(** * ec2auth: instrumented HTTP transport, JSON redaction and load harness

    A shallow embedding of [pkg/client.go] (the logging [RoundTripper] and
    [FormatJSON]) and of the load-generating [main] programs, together with
    the properties the specification states about them.

    Go strings are byte sequences: they are modelled by [string], whose
    characters are the 256 [ascii] values.  Go maps are modelled by stdpp's
    [gmap].  Integers of the 64-bit platforms are assumed ([int] and [uint]
    have 64 bits). *)

From Stdlib Require Import ZArith Ascii String List Bool Lia.
From stdpp Require Import gmap strings list fin_maps sorting pretty.

#[local] Open Scope string_scope.
#[local] Set Warnings "-register-all".

(** ** Go's [strings] and [unicode/utf8] packages (the parts the code calls) *)

Module utf8.

Definition byte_in (lo hi : N) (c : ascii) : bool :=
  ((lo <=? N_of_ascii c) && (N_of_ascii c <=? hi))%N.

Definition cont (c : ascii) : bool := byte_in 128 191 c.

(** [DecodeRuneInString]: the width of the first rune of [s] and whether it
    is a valid encoding.  An invalid or truncated sequence is one rune of
    width 1 (Go's [RuneError]); the empty string has width 0. *)
Definition DecodeRuneInString (s : string) : bool * nat :=
  match s with
  | "" => (false, 0)
  | String c0 r =>
    let x := N_of_ascii c0 in
    if (x <? 128)%N then (true, 1)
    else
      let two lo hi :=
        match r with
        | String c1 _ => if byte_in lo hi c1 then (true, 2) else (false, 1)
        | _ => (false, 1)
        end in
      let three lo hi :=
        match r with
        | String c1 (String c2 _) =>
            if byte_in lo hi c1 && cont c2 then (true, 3) else (false, 1)
        | _ => (false, 1)
        end in
      let four lo hi :=
        match r with
        | String c1 (String c2 (String c3 _)) =>
            if byte_in lo hi c1 && cont c2 && cont c3 then (true, 4)
            else (false, 1)
        | _ => (false, 1)
        end in
      if (x <? 194)%N then (false, 1)
      else if (x <? 224)%N then two 128%N 191%N
      else if (x =? 224)%N then three 160%N 191%N
      else if (x =? 237)%N then three 128%N 159%N
      else if (x <? 240)%N then three 128%N 191%N
      else if (x =? 240)%N then four 144%N 191%N
      else if (x <? 244)%N then four 128%N 191%N
      else if (x =? 244)%N then four 128%N 143%N
      else (false, 1)
  end.

End utf8.

(** ** Library code outside this development

    Three functions of Go's library are tables or floating-point
    arithmetic: the lower-casing of a string that is not plain ASCII, the
    conversion of a number literal to a [float64], and the encoder's text
    of a [float64].  They are parameters of the development: every
    definition and theorem below is about each choice of them. *)

(** A finite [float64]: sign, mantissa and binary exponent.  [Unmarshal]
    produces no other (a literal out of range is an error). *)
Record float64 := {
  float_sign : bool;
  float_mantissa : N;
  float_exponent : Z;
}.

Class Library := {
  (** [strings.Map(unicode.ToLower, s)], which [strings.ToLower] returns
      for a string with a byte outside ASCII *)
  Map_ToLower : string → string;
  (** [strconv.ParseFloat(lit, 64)] on a number literal of JSON; [None]
      for a value out of range *)
  ParseFloat : string → option float64;
  (** the text [encoding/json] writes for a [float64] *)
  FormatFloat : float64 → string;
}.

Module strings.

Fixpoint HasPrefix (s p : string) : bool :=
  match p, s with
  | "", _ => true
  | String a p', String b s' => if Ascii.eqb a b then HasPrefix s' p' else false
  | String _ _, "" => false
  end.

Fixpoint drop (n : nat) (s : string) : string :=
  match n, s with
  | S k, String _ s' => drop k s'
  | _, _ => s
  end.

Fixpoint take (n : nat) (s : string) : string :=
  match n, s with
  | S k, String c s' => String c (take k s')
  | _, _ => ""
  end.

Definition HasSuffix (s p : string) : bool :=
  (String.length p <=? String.length s)%nat
  && String.eqb (drop (String.length s - String.length p) s) p.


Definition lower (c : ascii) : ascii :=
  if utf8.byte_in 65 90 c then ascii_of_N (N_of_ascii c + 32) else c.

Fixpoint is_ascii (s : string) : bool :=
  match s with
  | "" => true
  | String c s' => (N_of_ascii c <? 128)%N && is_ascii s'
  end.

(** The loop of [ToLower] over a string of ASCII bytes. *)
Fixpoint lower_ascii (s : string) : string :=
  match s with
  | "" => ""
  | String c s' => String (lower c) (lower_ascii s')
  end.

Section ToLower.
Context {lib : Library}.

(** [ToLower]: byte by byte on a string of ASCII bytes, by [Map] and the
    Unicode tables otherwise. *)
Definition ToLower (s : string) : string :=
  if is_ascii s then lower_ascii s else Map_ToLower s.

End ToLower.

Fixpoint Join (elems : list string) (sep : string) : string :=
  match elems with
  | [] => ""
  | [x] => x
  | x :: rest => x ++ sep ++ Join rest sep
  end.

(** [Split s "\n"]: the lines of [s]; always at least one element. *)
Fixpoint SplitLines_go (cur : string) (s : string) : list string :=
  match s with
  | "" => [String.rev cur]
  | String c s' =>
      if Ascii.eqb c "010" then String.rev cur :: SplitLines_go "" s'
      else SplitLines_go (String c cur) s'
  end.
Definition SplitLines (s : string) : list string := SplitLines_go "" s.

(** [Replace s old new (-1)] for a non-empty [old]: the non-overlapping
    instances of [old] are replaced from left to right. *)
Fixpoint replace_nonempty (old new : string) (fuel : nat) (s : string) : string :=
  match fuel with
  | O => s
  | S f =>
      if HasPrefix s old
      then new ++ replace_nonempty old new f (drop (String.length old) s)
      else match s with
           | "" => ""
           | String c s' => String c (replace_nonempty old new f s')
           end
  end.

(** [Replace s "" new (-1)]: the empty string matches at the beginning of
    [s] and after each UTF-8 sequence. *)
Fixpoint replace_empty (new : string) (fuel : nat) (s : string) : string :=
  match fuel with
  | O => s
  | S f =>
      match s with
      | "" => new
      | _ =>
          let w := snd (utf8.DecodeRuneInString s) in
          new ++ take w s ++ replace_empty new f (drop w s)
      end
  end.

(** [Replace s old new n] with [n < 0] (no limit), as [FormatJSON] calls
    it.  Go returns [s] unchanged when [old = new]. *)
Definition ReplaceAll (s old new : string) : string :=
  if String.eqb old new then s
  else match old with
       | "" => replace_empty new (S (String.length s)) s
       | _ => replace_nonempty old new (S (String.length s)) s
       end.

End strings.

(** ** Go's [encoding/json], as [FormatJSON] uses it

    [json.Unmarshal] into an [interface{}] yields [nil], [bool], [float64],
    [string], [[]interface{}] or [map[string]interface{}].  A number is
    converted by [ParseFloat], which fails on a literal out of range, and
    written back by [FormatFloat]. *)

Inductive JSON : Type :=
| JNull
| JBool (b : bool)
| JNum (f : float64)
| JStr (s : string)
| JArr (l : list JSON)
| JObj (m : gmap string JSON).

(** Go's [error] values are modelled by their message. *)
Definition error : Type := string.

Module json.

Definition is_ws (c : ascii) : bool :=
  Ascii.eqb c " " || Ascii.eqb c "009" || Ascii.eqb c "010" || Ascii.eqb c "013".

Fixpoint skip_ws (s : string) : string :=
  match s with
  | String c s' => if is_ws c then skip_ws s' else s
  | "" => ""
  end.

Definition is_digit (c : ascii) : bool := utf8.byte_in 48 57 c.

Fixpoint span_digits (s : string) : string * string :=
  match s with
  | String c s' =>
      if is_digit c then let (d, r) := span_digits s' in (String c d, r)
      else ("", s)
  | "" => ("", "")
  end.

(** A number literal: an optional minus sign, an integer part without
    leading zero, an optional fraction and an optional exponent. *)
Definition scan_number (s : string) : option (string * string) :=
  let (sign, s1) :=
    match s with String "-" r => ("-", r) | _ => ("", s) end in
  let int_part :=
    match s1 with
    | String "0" r => Some ("0", r)
    | String c _ =>
        if is_digit c then Some (span_digits s1) else None
    | "" => None
    end in
  match int_part with
  | None => None
  | Some (i, s2) =>
      let frac :=
        match s2 with
        | String "." r =>
            match span_digits r with
            | ("", _) => None
            | (d, r') => Some ("." ++ d, r')
            end
        | _ => Some ("", s2)
        end in
      match frac with
      | None => None
      | Some (f, s3) =>
          match s3 with
          | String c r =>
              if Ascii.eqb c "e" || Ascii.eqb c "E" then
                let (es, r1) :=
                  match r with
                  | String "+" r' => ("+", r')
                  | String "-" r' => ("-", r')
                  | _ => ("", r)
                  end in
                match span_digits r1 with
                | ("", _) => None
                | (d, r2) => Some (sign ++ i ++ f ++ String c (es ++ d), r2)
                end
              else Some (sign ++ i ++ f, s3)
          | "" => Some (sign ++ i ++ f, s3)
          end
      end
  end.

Definition hex_val (c : ascii) : option N :=
  let x := N_of_ascii c in
  if utf8.byte_in 48 57 c then Some (x - 48)%N
  else if utf8.byte_in 97 102 c then Some (x - 87)%N
  else if utf8.byte_in 65 70 c then Some (x - 55)%N
  else None.

(** Four hexadecimal digits of a [\u] escape. *)
Definition getu4 (s : string) : option (N * string) :=
  match s with
  | String a (String b (String c (String d r))) =>
      match hex_val a, hex_val b, hex_val c, hex_val d with
      | Some x, Some y, Some z, Some w =>
          Some ((x * 4096 + y * 256 + z * 16 + w)%N, r)
      | _, _, _, _ => None
      end
  | _ => None
  end.

Definition byte (n : N) : ascii := ascii_of_N n.

(** [utf8.EncodeRune]; surrogate halves become U+FFFD. *)
Definition encode_rune (r : N) : string :=
  if (r <? 128)%N then String (byte r) ""
  else if (r <? 2048)%N then
    String (byte (192 + r / 64)) (String (byte (128 + r mod 64)) "")
  else if ((55296 <=? r) && (r <=? 57343))%N then
    String (byte 239) (String (byte 191) (String (byte 189) ""))
  else if (r <? 65536)%N then
    String (byte (224 + r / 4096))
      (String (byte (128 + (r / 64) mod 64)) (String (byte (128 + r mod 64)) ""))
  else
    String (byte (240 + r / 262144))
      (String (byte (128 + (r / 4096) mod 64))
        (String (byte (128 + (r / 64) mod 64)) (String (byte (128 + r mod 64)) ""))).

Definition replacement : string := encode_rune 65533.

(** The body of a string literal after its opening quote: the decoded
    string and the input after the closing quote. *)
Fixpoint scan_string (fuel : nat) (s : string) : option (string * string) :=
  match fuel with
  | O => None
  | S f =>
      match s with
      | "" => None
      | String c r =>
          if Ascii.eqb c "034" then Some ("", r)
          else if Ascii.eqb c "\" then
            match r with
            | String e r' =>
                let simple (x : ascii) :=
                  match scan_string f r' with
                  | Some (t, rest) => Some (String x t, rest)
                  | None => None
                  end in
                if Ascii.eqb e "034" then simple "034"%char
                else if Ascii.eqb e "\" then simple "\"%char
                else if Ascii.eqb e "/" then simple "/"%char
                else if Ascii.eqb e "b" then simple "008"%char
                else if Ascii.eqb e "f" then simple "012"%char
                else if Ascii.eqb e "n" then simple "010"%char
                else if Ascii.eqb e "r" then simple "013"%char
                else if Ascii.eqb e "t" then simple "009"%char
                else if Ascii.eqb e "u" then
                  match getu4 r' with
                  | None => None
                  | Some (hi, r1) =>
                      let pair :=
                        if ((55296 <=? hi) && (hi <=? 56319))%N then
                          match r1 with
                          | String "\" (String "u" r2) =>
                              match getu4 r2 with
                              | Some (lo, r3) =>
                                  if ((56320 <=? lo) && (lo <=? 57343))%N
                                  then Some ((65536 + (hi - 55296) * 1024 + (lo - 56320))%N, r3)
                                  else None
                              | None => None
                              end
                          | _ => None
                          end
                        else None in
                      let (rune, rest) :=
                        match pair with Some p => p | None => (hi, r1) end in
                      match scan_string f rest with
                      | Some (t, rest') => Some (encode_rune rune ++ t, rest')
                      | None => None
                      end
                  end
                else None
            | "" => None
            end
          else if (N_of_ascii c <? 32)%N then None
          else
            let (ok, w) := utf8.DecodeRuneInString s in
            match scan_string f (strings.drop w s) with
            | Some (t, rest) =>
                Some ((if ok then strings.take w s else replacement) ++ t, rest)
            | None => None
            end
      end
  end.

Definition maxNestingDepth : N := 10000.

Section Decode.
Context {lib : Library}.

(** Recursive descent over the value grammar.  [fuel] bounds the number
    of recursive calls (each consumes input, so the length of the input
    is enough); [depth] is the scanner's nesting depth. *)
Fixpoint parse_value (fuel : nat) (depth : N) (s : string) : option (JSON * string) :=
  match fuel with
  | O => None
  | S f =>
      match skip_ws s with
      | String "{" r =>
          if (maxNestingDepth <? depth + 1)%N then None
          else
            match skip_ws r with
            | String "}" r' => Some (JObj ∅, r')
            | r' => parse_members f (depth + 1) r' ∅
            end
      | String "[" r =>
          if (maxNestingDepth <? depth + 1)%N then None
          else
            match skip_ws r with
            | String "]" r' => Some (JArr [], r')
            | r' => parse_elements f (depth + 1) r' []
            end
      | String "034" r =>
          match scan_string (S (String.length r)) r with
          | Some (t, rest) => Some (JStr t, rest)
          | None => None
          end
      | String "t" (String "r" (String "u" (String "e" r))) => Some (JBool true, r)
      | String "f" (String "a" (String "l" (String "s" (String "e" r)))) =>
          Some (JBool false, r)
      | String "n" (String "u" (String "l" (String "l" r))) => Some (JNull, r)
      | s' =>
          match scan_number s' with
          | Some (lit, rest) =>
              match ParseFloat lit with
              | Some f => Some (JNum f, rest)
              | None => None
              end
          | None => None
          end
      end
  end
with parse_elements (fuel : nat) (depth : N) (s : string) (acc : list JSON)
  : option (JSON * string) :=
  match fuel with
  | O => None
  | S f =>
      match parse_value f depth s with
      | None => None
      | Some (v, r) =>
          match skip_ws r with
          | String "," r' => parse_elements f depth r' (acc ++ [v])
          | String "]" r' => Some (JArr (acc ++ [v]), r')
          | _ => None
          end
      end
  end
with parse_members (fuel : nat) (depth : N) (s : string) (acc : gmap string JSON)
  : option (JSON * string) :=
  match fuel with
  | O => None
  | S f =>
      match skip_ws s with
      | String "034" r =>
          match scan_string (S (String.length r)) r with
          | None => None
          | Some (k, r1) =>
              match skip_ws r1 with
              | String ":" r2 =>
                  match parse_value f depth r2 with
                  | None => None
                  | Some (v, r3) =>
                      match skip_ws r3 with
                      | String "," r4 => parse_members f depth r4 (<[k := v]> acc)
                      | String "}" r4 => Some (JObj (<[k := v]> acc), r4)
                      | _ => None
                      end
                  end
              | _ => None
              end
          end
      | _ => None
      end
  end.

(** [json.Unmarshal(raw, &rawData)] with [rawData] an [interface{}]: one
    value surrounded by white space.  It fails on a syntax error and on a
    number out of the range of [float64].  The text of the library's error
    is not modelled; every failure carries the same message. *)
Definition Unmarshal (raw : string) : JSON + error :=
  match parse_value (S (String.length raw)) 0 raw with
  | Some (v, rest) =>
      match skip_ws rest with
      | "" => inl v
      | _ => inr "invalid JSON"
      end
  | None => inr "invalid JSON"
  end.

End Decode.

(** The quotation mark, byte 34. *)
Definition dquote : string := String "034" "".

Definition hex (n : N) : ascii :=
  if (n <? 10)%N then byte (48 + n) else byte (87 + n).

Definition u00 (c : ascii) : string :=
  "\u00" ++ String (hex (N_of_ascii c / 16)) (String (hex (N_of_ascii c mod 16)) "").

(** The encoder's string escaping (HTML escaping is on by default). *)
Definition escape_byte (c : ascii) : string :=
  if Ascii.eqb c "034" then String "\" dquote
  else if Ascii.eqb c "\" then "\\"
  else if Ascii.eqb c "008" then "\b"
  else if Ascii.eqb c "012" then "\f"
  else if Ascii.eqb c "010" then "\n"
  else if Ascii.eqb c "013" then "\r"
  else if Ascii.eqb c "009" then "\t"
  else if (N_of_ascii c <? 32)%N || Ascii.eqb c "<" || Ascii.eqb c ">"
          || Ascii.eqb c "&" then u00 c
  else String c "".

Fixpoint escape (fuel : nat) (s : string) : string :=
  match fuel with
  | O => ""
  | S f =>
      match s with
      | "" => ""
      | String c r =>
          if (N_of_ascii c <? 128)%N then escape_byte c ++ escape f r
          else
            let (ok, w) := utf8.DecodeRuneInString s in
            if negb ok then "\ufffd" ++ escape f r
            else
              let seq := strings.take w s in
              (if String.eqb seq (encode_rune 8232) then "\u2028"
               else if String.eqb seq (encode_rune 8233) then "\u2029"
               else seq) ++ escape f (strings.drop w s)
      end
  end.

Definition quote (s : string) : string :=
  dquote ++ escape (String.length s) s ++ dquote.

Definition newline : string := String "010" "".

Fixpoint indent (n : nat) : string :=
  match n with O => "" | S k => "  " ++ indent k end.

Definition key_le (a b : string * string) : Prop := String.le a.1 b.1.

#[global] Instance key_le_dec : RelDecision key_le.
Proof. intros a b. unfold key_le. apply _. Defined.

(** The members of an object are written in the order of their keys. *)
Definition sorted_members (m : gmap string string) : list (string * string) :=
  merge_sort key_le (map_to_list m).

Definition block (open close : string) (lvl : nat) (items : list string) : string :=
  match items with
  | [] => open ++ close
  | _ =>
      open ++ newline ++ indent (S lvl)
      ++ strings.Join items ("," ++ newline ++ indent (S lvl))
      ++ newline ++ indent lvl ++ close
  end.

Section Encode.
Context {lib : Library}.

Fixpoint marshal (lvl : nat) (j : JSON) : string :=
  match j with
  | JNull => "null"
  | JBool true => "true"
  | JBool false => "false"
  | JNum f => FormatFloat f
  | JStr s => quote s
  | JArr l => block "[" "]" lvl (map (marshal (S lvl)) l)
  | JObj m =>
      block "{" "}" lvl
        (map (fun kv : string * string => quote kv.1 ++ ": " ++ kv.2)
             (sorted_members (marshal (S lvl) <$> m)))
  end.

(** [json.MarshalIndent(v, "", "  ")].  Encoding fails only for values
    that do not come out of [Unmarshal] (cycles, infinities, NaN), so on
    a [JSON] value it always succeeds. *)
Definition MarshalIndent (v : JSON) : string + error := inl (marshal 0 v).

End Encode.

End json.

(** ** [FormatJSON] (pkg/client.go) *)

(** The mask token. *)
Definition mask : JSON := JStr "***".

(** [if v, ok := m[k].(map[string]interface{}); ok { body }]: the body
    mutates the nested map [v], which is the one stored under [k].  A parsed
    document is a tree (no two keys share a map), so the in-place update is
    the update of the child followed by storing it back. *)
Definition with_map (k : string) (body : gmap string JSON → gmap string JSON)
    (m : gmap string JSON) : gmap string JSON :=
  match m !! k with
  | Some (JObj v) => <[k := JObj (body v)]> m
  | _ => m
  end.

(** [if _, ok := v[k]; ok { v[k] = "***" }] *)
Definition mask_if_present (k : string) (v : gmap string JSON) : gmap string JSON :=
  match v !! k with
  | Some _ => <[k := mask]> v
  | None => v
  end.

(** Mask known password fields (lines 314-336). *)
Definition mask_auth : gmap string JSON → gmap string JSON :=
  with_map "auth" (fun v =>
    let v := with_map "passwordCredentials" (insert "password" mask) v in
    let v := with_map "token" (insert "id" mask) v in
    with_map "identity" (fun v =>
      let v := with_map "password" (with_map "user" (insert "password" mask)) v in
      let v := with_map "application_credential" (insert "secret" mask) v in
      with_map "token" (insert "id" mask) v) v).

(** [var access string; if s, ok := v["access"]; ok { access, _ = s.(string) }]:
    the empty string unless [access] is present and a string. *)
Definition access_of (v : gmap string JSON) : string :=
  match v !! "access" with
  | Some (JStr s) => s
  | _ => ""
  end.

Definition mask_authorization (access : string) (h : gmap string JSON)
    : gmap string JSON :=
  match h !! "Authorization" with
  | Some (JStr s) => <["Authorization" := JStr (strings.ReplaceAll s access "***")]> h
  | _ => h
  end.

(** Mask EC2 access id and body hash (lines 339-355). *)
Definition mask_credentials : gmap string JSON → gmap string JSON :=
  with_map "credentials" (fun v =>
    let access := access_of v in
    let v := mask_if_present "access" v in
    let v := mask_if_present "body_hash" v in
    with_map "headers" (mask_authorization access) v).

(** Ignore the huge catalog output (lines 358-362). *)
Definition mask_token : gmap string JSON → gmap string JSON :=
  with_map "token" (mask_if_present "catalog").

Definition mask_data (data : gmap string JSON) : gmap string JSON :=
  mask_token (mask_credentials (mask_auth data)).

Section Redactor.
Context {lib : Library}.

Definition FormatJSON (raw : string) : string * option error :=
  match json.Unmarshal raw with
  | inr err => (raw, Some ("unable to parse JSON: " ++ err))
  | inl rawData =>
      match rawData with
      | JObj data =>
          match json.MarshalIndent (JObj (mask_data data)) with
          | inr err => (raw, Some ("unable to re-marshal JSON: " ++ err))
          | inl pretty => (pretty, None)
          end
      | _ =>
          match json.MarshalIndent rawData with
          | inr err => (raw, Some ("unable to re-marshal JSON: " ++ err))
          | inl pretty => (pretty, None)
          end
      end
  end.

End Redactor.

(** Field access along a path of keys. *)
Fixpoint jpath (p : list string) (j : JSON) : option JSON :=
  match p with
  | [] => Some j
  | k :: p' =>
      match j with
      | JObj m => match m !! k with Some c => jpath p' c | None => None end
      | _ => None
      end
  end.



(** ** The logging round-tripper (pkg/client.go) *)

(** [http.Header]: a map from header names to their values. *)
Abbreviation Header := (gmap string (list string)).

(** [ILogger] and its two implementations.  A logger is observed through
    the lines it hands to [log.Printf]; a method maps the formatted message
    and the output so far to the new output. *)
Record ILogger := {
  RequestPrintf : string → list string → list string;
  ResponsePrintf : string → list string → list string;
}.

Definition Logger : ILogger := {|
  RequestPrintf msg out := (out ++ ((λ v, "-> " +:+ v) <$> strings.SplitLines msg))%list;
  ResponsePrintf msg out := (out ++ ((λ v, "<- " +:+ v) <$> strings.SplitLines msg))%list;
|}.

Definition noopLogger : ILogger := {|
  RequestPrintf _ out := out;
  ResponsePrintf _ out := out;
|}.

(** An [io.ReadCloser]: the bytes not read yet, the error (other than EOF)
    that reading reports once they are exhausted, whether [Close] was
    called, and whether [Close] is a no-op ([ioutil.NopCloser]). *)
Record Stream := {
  data : string;
  fail : option error;
  closed : bool;
  nop : bool;
}.

Record Request := {
  Method : string;
  URL : string;
  req_Header : Header;
  req_Body : option nat;
}.

(** [http.Response], with the type of its [Body] as a parameter: the
    underlying transport returns responses whose body is a stream (net/http
    guarantees it is non-nil), [RoundTrip] may return one whose body is
    [nil]. *)
Record Response (B : Type) := {
  StatusCode : Z;
  resp_Header : Header;
  resp_Body : B;
}.
Arguments StatusCode {B} _.
Arguments resp_Header {B} _.
Arguments resp_Body {B} _.

(** The wrapped [http.RoundTripper]: what it answers at its [n]-th call,
    given the request and the streams.  Quantifying over this function
    covers every behaviour of the network. *)
Definition Transport : Type :=
  nat → Request → list Stream → option (Response nat) * option error.

Record RoundTripper := {
  rt_Rt : option Transport;
  rt_headers : option Header;
  rt_maskHeaders : option (gset string);
  rt_FormatJSON : option (string → string * option error);
  rt_MaxRetries : Z;
  rt_Logger : option ILogger;
}.

(** The state a round trip acts on: the streams (a stream is named by its
    index), the lines logged so far and the number of calls made to the
    underlying transport. *)
Record World := {
  streams : list Stream;
  out : list string;
  calls : list Request;
}.

Definition defaultSensitiveHeaders : gset string :=
  list_to_set
    [ "x-auth-token"; "x-auth-key"; "x-service-token"; "x-storage-token";
      "x-account-meta-temp-url-key"; "x-account-meta-temp-url-key-2";
      "x-container-meta-temp-url-key"; "x-container-meta-temp-url-key-2";
      "set-cookie"; "x-subject-token"; "authorization" ].

Definition GetDefaultSensitiveHeaders : list string :=
  elements defaultSensitiveHeaders.

Definition SetSensitiveHeaders (rt : RoundTripper) (headers : list string)
    : RoundTripper :=
  {| rt_Rt := rt_Rt rt; rt_headers := rt_headers rt;
     rt_maskHeaders := Some (list_to_set headers);
     rt_FormatJSON := rt_FormatJSON rt; rt_MaxRetries := rt_MaxRetries rt;
     rt_Logger := rt_Logger rt |}.

Definition SetHeaders (rt : RoundTripper) (headers : Header) : RoundTripper :=
  {| rt_Rt := rt_Rt rt; rt_headers := Some headers;
     rt_maskHeaders := rt_maskHeaders rt;
     rt_FormatJSON := rt_FormatJSON rt; rt_MaxRetries := rt_MaxRetries rt;
     rt_Logger := rt_Logger rt |}.

(** The set consulted by [hideSensitiveHeadersData]. *)
Definition maskHeaders_of (rt : RoundTripper) : gset string :=
  match rt_maskHeaders rt with
  | None => defaultSensitiveHeaders
  | Some v => v
  end.

Section RoundTripperMethods.
Context {lib : Library}.

(** One line of [hideSensitiveHeadersData]. *)
Definition redact_header (maskHeaders : gset string) (h : string * list string)
    : string :=
  if decide (strings.ToLower h.1 ∈ maskHeaders)
  then h.1 ++ ": " ++ "***"
  else h.1 ++ ": " ++ strings.Join h.2 " ".

(** Go ranges over the map in an unspecified order; [map_to_list] is one
    such order, and [formatHeaders] sorts the lines. *)
Definition hideSensitiveHeadersData (rt : RoundTripper) (headers : Header)
    : list string :=
  redact_header (maskHeaders_of rt) <$> map_to_list headers.

(** [sort.Strings]: increasing byte-wise order. *)
Definition sort_Strings (l : list string) : list string :=
  merge_sort String.le l.

Definition formatHeaders_lines (rt : RoundTripper) (headers : Header) : list string :=
  sort_Strings (hideSensitiveHeadersData rt headers).

Definition formatHeaders (rt : RoundTripper) (headers : Header) (separator : string)
    : string :=
  strings.Join (formatHeaders_lines rt headers) separator.

Definition set_streams (st : list Stream) (w : World) : World :=
  {| streams := st; out := out w; calls := calls w |}.

Definition set_out (o : list string) (w : World) : World :=
  {| streams := streams w; out := o; calls := calls w |}.

Definition record_call (request : Request) (w : World) : World :=
  {| streams := streams w; out := out w; calls := (calls w ++ [request])%list |}.

(** [rt.log()] and [rt.formatJSON()] *)
Definition log (rt : RoundTripper) : ILogger :=
  match rt_Logger rt with
  | None => noopLogger
  | Some l => l
  end.

Definition formatJSON (rt : RoundTripper) : string → string * option error :=
  match rt_FormatJSON rt with
  | None => FormatJSON
  | Some f => f
  end.

Definition req_log (rt : RoundTripper) (msg : string) (w : World) : World :=
  set_out (RequestPrintf (log rt) msg (out w)) w.

Definition resp_log (rt : RoundTripper) (msg : string) (w : World) : World :=
  set_out (ResponsePrintf (log rt) msg (out w)) w.

(** [io.Copy(&bs, src)]: reads [src] to its end.  It returns the bytes read
    and the error of the failing read, if any; the source is left drained.
    Names are created by allocation, so a name outside the store or an
    already closed source is reported as a read error. *)
Definition io_Copy (st : list Stream) (src : nat)
    : (string * option error) * list Stream :=
  match st !! src with
  | Some s =>
      if closed s then (("", Some "read on closed stream"), st)
      else ((data s, fail s),
            <[src := {| data := ""; fail := fail s; closed := false; nop := nop s |}]> st)
  | None => (("", Some "read on missing stream"), st)
  end.

Definition close_stream (s : Stream) : Stream :=
  if nop s then s
  else {| data := data s; fail := fail s; closed := true; nop := false |}.

(** [body.Close()] *)
Definition Close (st : list Stream) (body : nat) : list Stream :=
  alter close_stream body st.

(** [ioutil.NopCloser(strings.NewReader(bs.String()))] *)
Definition NopCloser (bs : string) : Stream :=
  {| data := bs; fail := None; closed := false; nop := true |}.

Definition is_json_request (contentType : string) : bool :=
  strings.HasPrefix contentType "application/json"
  || (strings.HasPrefix contentType "application/"
      && strings.HasSuffix contentType "-json-patch").

Definition is_json_response (contentType : string) : bool :=
  strings.HasPrefix contentType "application/json".

Definition logRequest (rt : RoundTripper) (original : nat) (contentType : string)
    (w : World) : (option nat * option error) * World :=
  if is_json_request contentType then
    let '((bs, err), st) := io_Copy (streams w) original in
    match err with
    | Some e => ((None, Some e), set_streams (Close st original) w)
    | None =>
        let '(debugInfo, ferr) := formatJSON rt bs in
        let w := set_streams st w in
        let w := match ferr with Some e => req_log rt e w | None => w end in
        let w := req_log rt ("Body: " +:+ debugInfo) w in
        let fresh := length (streams w) in
        let w := set_streams (streams w ++ [NopCloser bs])%list w in
        ((Some fresh, None), set_streams (Close (streams w) original) w)
    end
  else
    ((Some original, None),
     req_log rt "Not logging because request body isn't JSON" w).

Definition logResponse (rt : RoundTripper) (original : nat) (contentType : string)
    (w : World) : (option nat * option error) * World :=
  if is_json_response contentType then
    let '((bs, err), st) := io_Copy (streams w) original in
    match err with
    | Some e => ((None, Some e), set_streams (Close st original) w)
    | None =>
        let '(debugInfo, ferr) := formatJSON rt bs in
        let w := set_streams st w in
        let w := match ferr with Some e => resp_log rt e w | None => w end in
        let w := if String.eqb debugInfo "" then w
                 else resp_log rt ("Body: " +:+ debugInfo) w in
        let fresh := length (streams w) in
        let w := set_streams (streams w ++ [NopCloser bs])%list w in
        ((Some fresh, None), set_streams (Close (streams w) original) w)
    end
  else
    ((Some original, None),
     resp_log rt "Not logging because response body isn't JSON" w).

(** [headers.Get(key)] for a key in canonical form. *)
Definition Header_Get (h : Header) (key : string) : string :=
  match h !! key with
  | Some (v :: _) => v
  | _ => ""
  end.

(** [%s] applied to an [error], which may be [nil]. *)
Definition show_err (err : option error) : string :=
  match err with
  | Some e => e
  | None => "%!s(<nil>)"
  end.

Definition newline : string := String "010" "".

(** The deferred function of [RoundTrip]. *)
Definition close_body (request : Request) (w : World) : World :=
  match req_Body request with
  | Some b => set_streams (Close (streams w) b) w
  | None => w
  end.

(** Lines 164-170: the configured headers are set, not appended. *)
Definition inject_headers (rt : RoundTripper) (request : Request) : Request :=
  match rt_headers rt with
  | Some h =>
      {| Method := Method request; URL := URL request;
         req_Header := h ∪ req_Header request; req_Body := req_Body request |}
  | None => request
  end.

(** Lines 174-184: the request is logged; a body that cannot be read ends
    the round trip. *)
Definition log_request_phase (rt : RoundTripper) (request : Request) (w : World)
    : option error * Request * World :=
  match rt_Logger rt with
  | Some _ =>
      let w := req_log rt ("URL: " +:+ Method request +:+ " " +:+ URL request) w in
      let w := req_log rt ("Headers:" +:+ newline
                           +:+ formatHeaders rt (req_Header request) newline) w in
      match req_Body request with
      | Some body =>
          let '((body', err), w) :=
            logRequest rt body (Header_Get (req_Header request) "Content-Type") w in
          (err,
           {| Method := Method request; URL := URL request;
              req_Header := req_Header request; req_Body := body' |},
           w)
      | None => (None, request, w)
      end
  | None => (None, request, w)
  end.

Definition when_logging (rt : RoundTripper) (msg : string) (w : World) : World :=
  match rt_Logger rt with
  | Some _ => resp_log rt msg w
  | None => w
  end.

(** One call of the underlying transport. *)
Definition delegate (ort : Transport) (request : Request) (w : World)
    : (option (Response nat) * option error) * World :=
  (ort (length (calls w)) request (streams w), record_call request w).

Definition exhausted_error (err : option error) : error :=
  "Connection error, retries exhausted. Aborting. Last error was: " +:+ show_err err.

Definition retry_message (retry : Z) (err : option error) : string :=
  "Connection error, retry number " +:+ pretty retry +:+ ": " +:+ show_err err.

(** Lines 194-209, [for response == nil { ... }].  The result is the
    response that ended the loop with the error that came with it, or the
    error of the [return] inside the loop.  [fuel] bounds the iterations;
    [None] is returned when it runs out. *)
Fixpoint retry_loop (rt : RoundTripper) (ort : Transport) (request : Request)
    (fuel : nat) (retry : Z) (response : option (Response nat))
    (err : option error) (w : World)
    : option ((Response nat * option error + error) * World) :=
  match response with
  | Some r => Some (inl (r, err), w)
  | None =>
      if (rt_MaxRetries rt <? retry)%Z then
        let w := when_logging rt "Connection error, retries exhausted. Aborting" w in
        Some (inr (exhausted_error err), w)
      else
        match fuel with
        | O => None
        | S f =>
            let w := when_logging rt (retry_message retry err) w in
            let '((response, err), w) := delegate ort request w in
            retry_loop rt ort request f (retry + 1)%Z response err w
        end
  end.

(** Lines 211-218. *)
Definition log_response_phase (rt : RoundTripper) (response : Response nat)
    (err : option error) (w : World)
    : (Response (option nat) * option error) * World :=
  match rt_Logger rt with
  | Some _ =>
      let w := resp_log rt ("Code: " +:+ pretty (StatusCode response)) w in
      let w := resp_log rt ("Headers:" +:+ newline
                            +:+ formatHeaders rt (resp_Header response) newline) w in
      let '((body, err'), w) :=
        logResponse rt (resp_Body response)
          (Header_Get (resp_Header response) "Content-Type") w in
      (({| StatusCode := StatusCode response;
           resp_Header := resp_Header response; resp_Body := body |}, err'), w)
  | None =>
      (({| StatusCode := StatusCode response;
           resp_Header := resp_Header response;
           resp_Body := Some (resp_Body response) |}, err), w)
  end.

(** [RoundTrip]: the returned pair, the request as the call leaves it (it
    is updated through the pointer) and the final state.  [None] only if
    the retry loop ran out of fuel, which [Z.to_nat MaxRetries] excludes. *)
Definition RoundTrip (rt : RoundTripper) (request : Request) (w : World)
    : option ((option (Response (option nat)) * option error) * Request * World) :=
  let request := inject_headers rt request in
  let '(err, request, w) := log_request_phase rt request w in
  match err with
  | Some e => Some ((None, Some e), request, close_body request w)
  | None =>
      match rt_Rt rt with
      | None =>
          Some ((None, Some "Rt RoundTripper is nil, aborting"),
                request, close_body request w)
      | Some ort =>
          let '((response, err), w) := delegate ort request w in
          match retry_loop rt ort request (Z.to_nat (rt_MaxRetries rt)) 1
                  response err w with
          | None => None
          | Some (inr e, w) => Some ((None, Some e), request, close_body request w)
          | Some (inl (response, err), w) =>
              let '((response, err), w) := log_response_phase rt response err w in
              Some ((Some response, err), request, close_body request w)
          end
      end
  end.

End RoundTripperMethods.

(** ** The load harness ([main] of the looping commands)

    The program is a set of goroutines over shared memory: [main] (the
    dispatch loop), one goroutine per [go auth(limiter)], and the reporter.
    Each goroutine is a program counter; a step executes one statement that
    touches shared state (an atomic operation, a channel operation, a lock
    operation, a print).  A schedule, the list of the steps taken, fixes the
    interleaving and the results of the authentication calls; properties
    are stated for every schedule. *)

Module Harness.

(** [uint64] arithmetic. *)
Definition u64 (z : Z) : Z := z mod 2 ^ 64.
Definition AddUint64 (x delta : Z) : Z := u64 (x + delta).

(** The flags: [threads] is a [uint]. *)
Record Config := {
  threads : Z;
  debug : bool;
  showErr : bool;
}.

Record AuthResult := {
  Username : string;
  Project : string;
  TokenID : string;
}.

(** The error of [pkg.OpenStackEC2Auth]: its message, and either a
    [*url.Error] with the message of its [Err] field (if not [nil]) or
    another type with the text [%T] prints for it. *)
Inductive AuthError :=
| UrlError (msg : string) (inner : option string)
| OtherError (msg : string) (type_name : string).

Definition Error (e : AuthError) : string :=
  match e with
  | UrlError msg _ => msg
  | OtherError msg _ => msg
  end.

(** Lines 124-129 of the later version. *)
Definition errType (e : AuthError) : string :=
  match e with
  | UrlError _ (Some inner) => inner
  | UrlError _ None => "*url.Error"
  | OtherError _ type_name => type_name
  end.

(** The shared memory: the four counters, the tally with its lock (a
    writer, or a number of readers), the number of elements queued in the
    [limiter] channel, and what was printed: the lines written to standard
    output, and the messages handed to the standard logger (the time stamp
    it puts before each is not modelled). *)
Record Shared := {
  ops : Z;
  fps : Z;
  totalReq : Z;
  totalErr : Z;
  errs : gmap string Z;
  writer : bool;
  readers : nat;
  limiter : nat;
  stderr : list string;
  stdout : list string;
}.

Definition set_ops (v : Z) (sh : Shared) : Shared :=
  {| ops := v; fps := fps sh; totalReq := totalReq sh; totalErr := totalErr sh;
     errs := errs sh; writer := writer sh; readers := readers sh;
     limiter := limiter sh; stderr := stderr sh; stdout := stdout sh |}.
Definition set_fps (v : Z) (sh : Shared) : Shared :=
  {| ops := ops sh; fps := v; totalReq := totalReq sh; totalErr := totalErr sh;
     errs := errs sh; writer := writer sh; readers := readers sh;
     limiter := limiter sh; stderr := stderr sh; stdout := stdout sh |}.
Definition set_totalReq (v : Z) (sh : Shared) : Shared :=
  {| ops := ops sh; fps := fps sh; totalReq := v; totalErr := totalErr sh;
     errs := errs sh; writer := writer sh; readers := readers sh;
     limiter := limiter sh; stderr := stderr sh; stdout := stdout sh |}.
Definition set_totalErr (v : Z) (sh : Shared) : Shared :=
  {| ops := ops sh; fps := fps sh; totalReq := totalReq sh; totalErr := v;
     errs := errs sh; writer := writer sh; readers := readers sh;
     limiter := limiter sh; stderr := stderr sh; stdout := stdout sh |}.
Definition set_errs (v : gmap string Z) (sh : Shared) : Shared :=
  {| ops := ops sh; fps := fps sh; totalReq := totalReq sh; totalErr := totalErr sh;
     errs := v; writer := writer sh; readers := readers sh;
     limiter := limiter sh; stderr := stderr sh; stdout := stdout sh |}.
Definition set_lock (wr : bool) (rd : nat) (sh : Shared) : Shared :=
  {| ops := ops sh; fps := fps sh; totalReq := totalReq sh; totalErr := totalErr sh;
     errs := errs sh; writer := wr; readers := rd;
     limiter := limiter sh; stderr := stderr sh; stdout := stdout sh |}.
Definition set_limiter (v : nat) (sh : Shared) : Shared :=
  {| ops := ops sh; fps := fps sh; totalReq := totalReq sh; totalErr := totalErr sh;
     errs := errs sh; writer := writer sh; readers := readers sh;
     limiter := v; stderr := stderr sh; stdout := stdout sh |}.
(** [log.Printf] and [log.Print] *)
Definition log_Print (lines : list string) (sh : Shared) : Shared :=
  {| ops := ops sh; fps := fps sh; totalReq := totalReq sh; totalErr := totalErr sh;
     errs := errs sh; writer := writer sh; readers := readers sh;
     limiter := limiter sh; stderr := (stderr sh ++ lines)%list; stdout := stdout sh |}.
(** [fmt.Println] *)
Definition fmt_Println (line : string) (sh : Shared) : Shared :=
  {| ops := ops sh; fps := fps sh; totalReq := totalReq sh; totalErr := totalErr sh;
     errs := errs sh; writer := writer sh; readers := readers sh;
     limiter := limiter sh; stderr := stderr sh; stdout := (stdout sh ++ [line])%list |}.

(** What one step of a goroutine does: it moves on, it cannot move (a
    blocking operation), it ends the process with [os.Exit], or it
    panics. *)
Inductive Outcome (PC : Type) :=
| Next (pc : PC) (sh : Shared)
| Blocked
| Exit (code : Z) (sh : Shared)
| Panic (sh : Shared).
Arguments Next {PC} _ _.
Arguments Blocked {PC}.
Arguments Exit {PC} _ _.
Arguments Panic {PC} _.

(** The program points of [auth]. *)
Inductive WPc :=
| WStart
| WCall
| WFailed (e : AuthError)
| WFailed2 (e : AuthError)
| WLock (t : string)
| WTally (t : string)
| WUnlock
| WOk (res : AuthResult)
| WRelease
| WDone.

(** The program points of the reporter: the values read so far. *)
Inductive RPc :=
| RWait
| RSwapped1 (f : Z)
| RSwapped2 (f s : Z)
| RAdded1 (f s tS : Z)
| RAdded2 (f s tS tF : Z)
| RLock
| RLocked.

Definition debug_lines (cfg : Config) (res : AuthResult) (sh : Shared) : Shared :=
  if debug cfg
  then log_Print ["User: " +:+ Username res; "Project: " +:+ Project res] sh
  else sh.

(** [<-limiter] *)
Definition release (sh : Shared) : Outcome WPc :=
  match limiter sh with
  | O => Blocked
  | S n => Next WDone (set_limiter n sh)
  end.

(** [a / b] on [uint64]: a division by zero is a run-time panic
    ([None]). *)
Definition div64 (a b : Z) : option Z :=
  if (b =? 0)%Z then None else Some (a / b)%Z.

(** [var perc uint64; if s > 0 { perc = 100 * f / s }]: the value of
    [perc] after the statement, if it does not panic. *)
Definition percentage (f s : Z) : option Z :=
  if (0 <? s)%Z then div64 (u64 (100 * f)) s else Some 0%Z.

Arguments percentage : simpl never.

(** The value of [perc]. *)
Definition percent (f s : Z) : Z :=
  match percentage f s with
  | Some perc => perc
  | None => 0
  end.

(** [log.Printf("%d rps, %d failed (%d%%)", s, f, perc)] and
    [log.Printf("total %d rps, %d failed: %d%%", tS, tF, tPerc)] *)
Definition window_line (s f perc : Z) : string :=
  pretty s +:+ " rps, " +:+ pretty f +:+ " failed (" +:+ pretty perc +:+ "%)".

Definition total_line (tS tF tPerc : Z) : string :=
  "total " +:+ pretty tS +:+ " rps, " +:+ pretty tF +:+ " failed: "
  +:+ pretty tPerc +:+ "%".

(** A version of the program: its [auth] closure ([nil_limiter] tells
    whether it was called with [nil]) and its reporter. *)
Record Program := {
  auth : Config → bool → WPc → Shared → Outcome WPc;
  reporter : Config → RPc → Shared → Outcome RPc;
}.

(** The version with cumulative totals and the error tally. *)
Module V2.

Definition auth (cfg : Config) (nil_limiter : bool) (pc : WPc) (sh : Shared)
    : Outcome WPc :=
  match pc with
  | WStart => Next WCall (set_ops (AddUint64 (ops sh) 1) sh)
  | WCall => Blocked
  | WFailed e => Next (WFailed2 e) (set_fps (AddUint64 (fps sh) 1) sh)
  | WFailed2 e =>
      if nil_limiter then Exit 1 (log_Print [Error e] sh)
      else if showErr cfg then Next (WLock (errType e)) sh
      else Next WRelease sh
  | WLock t =>
      if writer sh || negb (readers sh =? 0)%nat then Blocked
      else Next (WTally t) (set_lock true 0 sh)
  | WTally t =>
      Next WUnlock
        (set_errs (<[t := AddUint64 (default 0%Z (errs sh !! t)) 1]> (errs sh)) sh)
  | WUnlock => Next WRelease (set_lock false 0 sh)
  | WOk res =>
      let sh := debug_lines cfg res sh in
      if nil_limiter then Next WDone (fmt_Println (TokenID res) sh)
      else Next WRelease sh
  | WRelease => release sh
  | WDone => Blocked
  end.

Definition reporter (cfg : Config) (pc : RPc) (sh : Shared) : Outcome RPc :=
  match pc with
  | RWait => Next (RSwapped1 (fps sh)) (set_fps 0 sh)
  | RSwapped1 f => Next (RSwapped2 f (ops sh)) (set_ops 0 sh)
  | RSwapped2 f s =>
      let tS := AddUint64 (totalReq sh) s in
      Next (RAdded1 f s tS) (set_totalReq tS sh)
  | RAdded1 f s tS =>
      let tF := AddUint64 (totalErr sh) f in
      Next (RAdded2 f s tS tF) (set_totalErr tF sh)
  | RAdded2 f s tS tF =>
      match percentage f s, percentage tF tS with
      | Some perc, Some tPerc =>
          let sh := log_Print [window_line s f perc; total_line tS tF tPerc] sh in
          if showErr cfg then Next RLock sh else Next RWait sh
      | _, _ => Panic sh
      end
  | RLock =>
      if writer sh then Blocked
      else Next RLocked (set_lock false (S (readers sh)) sh)
  | RLocked =>
      let lines :=
        (λ kv : string * Z, "ERROR: " +:+ kv.1 +:+ " -> " +:+ pretty kv.2)
          <$> map_to_list (errs sh) in
      Next RWait (set_lock false (pred (readers sh)) (log_Print lines sh))
  end.

Definition program : Program := {| Harness.auth := auth; Harness.reporter := reporter |}.

End V2.

(** The earlier version: window statistics only. *)
Module V1.

(** After a failure with a non-[nil] limiter, control falls through to
    the debug prints, which read [res.Username] of the [nil] result. *)
Definition auth (cfg : Config) (nil_limiter : bool) (pc : WPc) (sh : Shared)
    : Outcome WPc :=
  match pc with
  | WStart => Next WCall (set_ops (AddUint64 (ops sh) 1) sh)
  | WCall => Blocked
  | WFailed e => Next (WFailed2 e) (set_fps (AddUint64 (fps sh) 1) sh)
  | WFailed2 e =>
      if nil_limiter then Exit 1 (log_Print [Error e] sh)
      else if debug cfg then Panic sh
      else Next WRelease sh
  | WOk res =>
      let sh := debug_lines cfg res sh in
      if nil_limiter then Next WDone (fmt_Println (TokenID res) sh)
      else Next WRelease sh
  | WRelease => release sh
  | WLock _ | WTally _ | WUnlock | WDone => Blocked
  end.

Definition reporter (cfg : Config) (pc : RPc) (sh : Shared) : Outcome RPc :=
  match pc with
  | RWait => Next (RSwapped1 (fps sh)) (set_fps 0 sh)
  | RSwapped1 f => Next (RSwapped2 f (ops sh)) (set_ops 0 sh)
  | RSwapped2 f s =>
      match percentage f s with
      | Some perc => Next RWait (log_Print [window_line s f perc] sh)
      | None => Panic sh
      end
  | _ => Blocked
  end.

Definition program : Program := {| Harness.auth := auth; Harness.reporter := reporter |}.

End V1.

(** The program points of [main] once the provider and the identity
    client exist: the test of [threads], the single call [auth(nil)]
    followed by [os.Exit(0)], and the two statements of the dispatch
    loop.  Between the test and the loop the reporter is started and the
    channel is made; [make(chan struct{}, threads)] panics when [threads]
    does not fit an [int]. *)
Inductive MPc :=
| MStart
| MInline (pc : WPc)
| MSend
| MGo.

Inductive Status :=
| Running
| Exited (code : Z)
| Panicked.

Record State := {
  shared : Shared;
  main_pc : MPc;
  workers : list WPc;
  reporter_pc : option RPc;
  status : Status;
}.

Definition init : State := {|
  shared := {| ops := 0; fps := 0; totalReq := 0; totalErr := 0; errs := ∅;
               writer := false; readers := 0; limiter := 0;
               stderr := []; stdout := [] |};
  main_pc := MStart;
  workers := [];
  reporter_pc := None;
  status := Running;
|}.

(** The state in which [make] has panicked: the reporter was started and
    has not run. *)
Definition make_panicked : State := {|
  shared := shared init;
  main_pc := MStart;
  workers := [];
  reporter_pc := Some RWait;
  status := Panicked;
|}.

(** The result of [pkg.OpenStackEC2Auth]. *)
Definition AuthReturn : Type := AuthResult + AuthError.

Definition returned (r : AuthReturn) : WPc :=
  match r with
  | inl res => WOk res
  | inr e => WFailed e
  end.

(** The steps a schedule is made of: a statement of [main], a statement
    of the [i]-th [auth] goroutine, the return of an authentication call
    (of the [i]-th goroutine, or of [main] for [None]) with its result,
    a statement of the reporter, and a message that the round tripper of
    a call in progress hands to its logger (for a request or for a
    response). *)
Inductive Label :=
| Main
| Work (i : nat)
| AuthDone (who : option nat) (r : AuthReturn)
| Report
| CallLog (who : option nat) (response : bool) (msg : string).

Definition halt (st : State) (s : Status) (sh : Shared) : State :=
  {| shared := sh; main_pc := main_pc st; workers := workers st;
     reporter_pc := reporter_pc st; status := s |}.

Definition main_step (prog : Program) (cfg : Config) (st : State) : option State :=
  match main_pc st with
  | MStart =>
      if (threads cfg =? 0)%Z then
        Some {| shared := shared st; main_pc := MInline WStart;
                workers := workers st; reporter_pc := reporter_pc st;
                status := status st |}
      else if (2 ^ 63 <=? threads cfg)%Z then
        Some {| shared := shared st; main_pc := MStart; workers := workers st;
                reporter_pc := Some RWait; status := Panicked |}
      else
        Some {| shared := shared st; main_pc := MSend; workers := workers st;
                reporter_pc := Some RWait; status := status st |}
  | MInline WDone => Some (halt st (Exited 0) (shared st))
  | MInline pc =>
      match auth prog cfg true pc (shared st) with
      | Next pc' sh =>
          Some {| shared := sh; main_pc := MInline pc'; workers := workers st;
                  reporter_pc := reporter_pc st; status := status st |}
      | Blocked => None
      | Exit code sh => Some (halt st (Exited code) sh)
      | Panic sh => Some (halt st Panicked sh)
      end
  | MSend =>
      if (Z.of_nat (limiter (shared st)) <? threads cfg)%Z then
        Some {| shared := set_limiter (S (limiter (shared st))) (shared st);
                main_pc := MGo; workers := workers st;
                reporter_pc := reporter_pc st; status := status st |}
      else None
  | MGo =>
      Some {| shared := shared st; main_pc := MSend;
              workers := (workers st ++ [WStart])%list;
              reporter_pc := reporter_pc st; status := status st |}
  end.

Definition work_step (prog : Program) (cfg : Config) (i : nat) (st : State)
    : option State :=
  match workers st !! i with
  | Some pc =>
      match auth prog cfg false pc (shared st) with
      | Next pc' sh =>
          Some {| shared := sh; main_pc := main_pc st;
                  workers := <[i := pc']> (workers st);
                  reporter_pc := reporter_pc st; status := status st |}
      | Blocked => None
      | Exit code sh => Some (halt st (Exited code) sh)
      | Panic sh => Some (halt st Panicked sh)
      end
  | None => None
  end.

Definition auth_done (who : option nat) (r : AuthReturn) (st : State)
    : option State :=
  match who with
  | Some i =>
      match workers st !! i with
      | Some WCall =>
          Some {| shared := shared st; main_pc := main_pc st;
                  workers := <[i := returned r]> (workers st);
                  reporter_pc := reporter_pc st; status := status st |}
      | _ => None
      end
  | None =>
      match main_pc st with
      | MInline WCall =>
          Some {| shared := shared st; main_pc := MInline (returned r);
                  workers := workers st; reporter_pc := reporter_pc st;
                  status := status st |}
      | _ => None
      end
  end.

Definition report_step (prog : Program) (cfg : Config) (st : State) : option State :=
  match reporter_pc st with
  | Some pc =>
      match reporter prog cfg pc (shared st) with
      | Next pc' sh =>
          Some {| shared := sh; main_pc := main_pc st; workers := workers st;
                  reporter_pc := Some pc'; status := status st |}
      | Blocked => None
      | Exit code sh => Some (halt st (Exited code) sh)
      | Panic sh => Some (halt st Panicked sh)
      end
  | None => None
  end.

(** One step of the program; [None] when the step cannot be taken in
    this state.  A process that exited or panicked takes no step. *)
(** The lines a call in progress logs.  The programs install the logging
    round tripper with [pkg.Logger] when [debug] is set; otherwise the
    later one installs it with the no-op logger and the earlier one does
    not install it. *)
Definition call_lines (cfg : Config) (response : bool) (msg : string)
    : list string :=
  if debug cfg then
    if response then ResponsePrintf Logger msg [] else RequestPrintf Logger msg []
  else [].

Definition at_call (who : option nat) (st : State) : bool :=
  match who with
  | Some i => match workers st !! i with Some WCall => true | _ => false end
  | None => match main_pc st with MInline WCall => true | _ => false end
  end.

Definition call_log (cfg : Config) (who : option nat) (response : bool)
    (msg : string) (st : State) : option State :=
  if at_call who st then
    Some {| shared := log_Print (call_lines cfg response msg) (shared st);
            main_pc := main_pc st; workers := workers st;
            reporter_pc := reporter_pc st; status := status st |}
  else None.

Definition step (prog : Program) (cfg : Config) (l : Label) (st : State)
    : option State :=
  match status st with
  | Running =>
      match l with
      | Main => main_step prog cfg st
      | Work i => work_step prog cfg i st
      | AuthDone who r => auth_done who r st
      | Report => report_step prog cfg st
      | CallLog who response msg => call_log cfg who response msg st
      end
  | _ => None
  end.

Fixpoint run (prog : Program) (cfg : Config) (sched : list Label) (st : State)
    : option State :=
  match sched with
  | [] => Some st
  | l :: sched' =>
      match step prog cfg l st with
      | Some st' => run prog cfg sched' st'
      | None => None
      end
  end.

Definition active (pc : WPc) : nat :=
  match pc with
  | WDone => 0
  | _ => 1
  end.

(** The workers dispatched and not yet completed. *)
Fixpoint in_flight (ws : list WPc) : nat :=
  match ws with
  | [] => 0
  | pc :: ws' => active pc + in_flight ws'
  end.

End Harness.

(** ** The documented sensitive fields *)

Definition sensitive_fields : list (list string) :=
  [ ["auth"; "passwordCredentials"; "password"];
    ["auth"; "token"; "id"];
    ["auth"; "identity"; "password"; "user"; "password"];
    ["auth"; "identity"; "application_credential"; "secret"];
    ["auth"; "identity"; "token"; "id"];
    ["credentials"; "access"];
    ["credentials"; "body_hash"];
    ["credentials"; "headers"; "Authorization"];
    ["token"; "catalog"] ].

Fixpoint is_prefix (p q : list string) : bool :=
  match p, q with
  | [], _ => true
  | a :: p', b :: q' => String.eqb a b && is_prefix p' q'
  | _ :: _, [] => false
  end.

(** A path lies outside the sensitive fields when it is neither inside one
    of them nor one of their ancestors. *)
Definition outside (p : list string) : bool :=
  forallb (λ q, negb (is_prefix q p) && negb (is_prefix p q)) sensitive_fields.

(** ** Observations on a round trip *)

(** The messages of the retries [first], [first + 1], ..., [count] of them,
    when the attempt [i] ended with the error [errs i]. *)
Definition retry_entries (errs : nat → option error) (first count : nat)
    : list string :=
  (λ i, "Connection error, retry number " +:+ pretty (Z.of_nat i) +:+ ": "
        +:+ match errs (i - 1) with Some e => e | None => "%!s(<nil>)" end)
  <$> seq first count.

(** The output after a round tripper has logged the response-side
    messages [msgs], in order: each message is handed to [ResponsePrintf]
    of its logger; without a logger nothing is printed. *)
Definition log_lines (rt : RoundTripper) (msgs : list string) (o : list string)
    : list string :=
  match rt_Logger rt with
  | Some lg => foldl (λ o msg, ResponsePrintf lg msg o) o msgs
  | None => o
  end.

(** [s0] is what is left of the stream [s] once it was consumed and
    closed: no byte, and closed unless closing [s] is a no-op. *)
Definition consumed (s s0 : Stream) : Prop :=
  data s0 = "" ∧ (nop s = false → closed s0 = true).

(** A stream after it was read to its end. *)
Definition drained (s : Stream) : Stream :=
  {| data := ""; fail := fail s; closed := false; nop := nop s |}.

(** ** Invariants of the load harness *)

Module HarnessInv.
Import Harness.

(** The slot [main] holds between [limiter <- struct{}{}] and the
    [go] statement. *)
Definition held (pc : MPc) : nat :=
  match pc with
  | MGo => 1
  | _ => 0
  end.

(** Continuous mode: the process runs, [main] is in its dispatch loop (or
    about to enter it), and every queued element of [limiter] belongs to
    a worker in flight or to [main]. *)
Definition limiter_inv (cfg : Config) (st : State) : Prop :=
  status st = Running
  ∧ (∀ pc, main_pc st ≠ MInline pc)
  ∧ in_flight (workers st) + held (main_pc st) = limiter (shared st)
  ∧ (Z.of_nat (limiter (shared st)) ≤ threads cfg)%Z.

(** The window values the reporter has read and not yet added to the
    totals. *)
Definition pending_s (rp : option RPc) : Z :=
  match rp with
  | Some (RSwapped2 _ s) => s
  | _ => 0
  end.

Definition pending_f (rp : option RPc) : Z :=
  match rp with
  | Some (RSwapped1 f) | Some (RSwapped2 f _) | Some (RAdded1 f _ _) => f
  | _ => 0
  end.

(** After [n] steps no counter has wrapped: what was counted is at most
    [n], and the values the reporter holds are the ones it added. *)
Definition counters_inv (n : Z) (sh : Shared) (rp : option RPc) : Prop :=
  (0 ≤ ops sh ∧ 0 ≤ fps sh ∧ 0 ≤ totalReq sh ∧ 0 ≤ totalErr sh
   ∧ 0 ≤ pending_s rp ∧ 0 ≤ pending_f rp
   ∧ ops sh + totalReq sh + pending_s rp ≤ n
   ∧ fps sh + totalErr sh + pending_f rp ≤ n
   ∧ match rp with
     | Some (RAdded1 f s tS) => tS = totalReq sh ∧ 0 ≤ s ≤ tS
     | Some (RAdded2 f s tS tF) =>
         tS = totalReq sh ∧ tF = totalErr sh ∧ 0 ≤ s ≤ tS ∧ 0 ≤ f ≤ tF
     | _ => True
     end)%Z.

End HarnessInv.

(** ** Notions used in the statements *)

(** [body] keeps the value found along every path that satisfies [P]. *)
Definition frames (body : gmap string JSON → gmap string JSON)
    (P : list string → bool) : Prop :=
  ∀ v p, P p = true → jpath p (JObj (body v)) = jpath p (JObj v).

Definition access_path : list string := ["credentials"; "access"].
Definition authorization_path : list string :=
  ["credentials"; "headers"; "Authorization"].

(** The store after a body was buffered: the original is drained and
    closed, the copy is appended, the other streams are untouched. *)
Definition buffered_store (st : list Stream) (original : nat) (s : Stream)
    : list Stream :=
  Close (<[original := drained s]> st ++ [NopCloser (data s)]) original.

(** ** Sample inputs *)

(** The samples contain no number and no header name outside ASCII, so
    that their evaluation does not depend on the library; they are
    evaluated with one that leaves a string outside ASCII as it is and
    accepts no number literal. *)
Definition sample_library : Library :=
  {| Map_ToLower := λ s, s;
     ParseFloat := λ _, None;
     FormatFloat := λ _, "0" |}.

(** Sample documents are written with apostrophes for the quotation marks
    of JSON. *)
Fixpoint with_quotes (s : string) : string :=
  match s with
  | String c s' => String (if Ascii.eqb c "'" then "034"%char else c) (with_quotes s')
  | EmptyString => EmptyString
  end.

(** A request body as the EC2 token extension sends it, with the access
    key repeated in the signed query parameters. *)
Definition ec2_body : string :=
  with_quotes
    ("{'credentials':{'access':'AK1','headers':{'Authorization':"
     +:+ "'Credential=AK1/s'},'params':{'AWSAccessKeyId':'AK1'}}}").

Definition ec2_data : gmap string JSON :=
  {[ "credentials" :=
       JObj (<["access" := JStr "AK1"]>
              (<["headers" := JObj {[ "Authorization" := JStr "Credential=AK1/s" ]}]>
                {[ "params" := JObj {[ "AWSAccessKeyId" := JStr "AK1" ]} ]})) ]}.

(** A body with credentials and no access key. *)
Definition no_access_body : string :=
  with_quotes "{'credentials':{'headers':{'Authorization':'ab'}}}".

(** A truncated document. *)
Definition malformed_body : string := with_quotes "{'a':".


(** A transport that never answers, and one that answers at its attempt
    number [R]. *)
Definition sample_response : Response nat :=
  {| StatusCode := 200;
     resp_Header := {[ "Content-Type" := ["application/json"] ]};
     resp_Body := 0 |}.

Definition refusing : Transport := λ _ _ _, (None, Some "connection refused").

Definition flaky (R : nat) : Transport :=
  λ n _ _,
    if (n <? R)%nat then (None, Some "connection refused")
    else (Some sample_response, None).

Definition sample_rt (ort : Transport) : RoundTripper :=
  {| rt_Rt := Some ort; rt_headers := None; rt_maskHeaders := None;
     rt_FormatJSON := None; rt_MaxRetries := 2; rt_Logger := Some Logger |}.

Definition sample_request (body : option nat) : Request :=
  {| Method := "POST"; URL := "http://keystone/v3/ec2tokens";
     req_Header := {[ "Content-Type" := ["application/json"] ]};
     req_Body := body |}.

Definition sample_stream (bytes : string) : Stream :=
  {| data := bytes; fail := None; closed := false; nop := false |}.

Definition sample_world (bytes : string) : World :=
  {| streams := [sample_stream bytes]; out := []; calls := [] |}.

(** A configuration of the load harness, a failed authentication, and a
    schedule in which one worker fails and the reporter reads the
    counters. *)
Definition sample_cfg : Harness.Config :=
  {| Harness.threads := 2; Harness.debug := false; Harness.showErr := true |}.

Definition sample_failure : Harness.AuthReturn :=
  inr (Harness.UrlError
         "Post http://keystone/v3/ec2tokens: dial tcp: connection refused"
         (Some "dial tcp: connection refused")).

Definition sample_sched : list Harness.Label :=
  [Harness.Main; Harness.Main; Harness.Main; Harness.Work 0;
   Harness.AuthDone (Some 0) sample_failure; Harness.Work 0;
   Harness.Report; Harness.Report; Harness.Report; Harness.Report].

(** A version 2 password request without a password, and a token response. *)
Definition v2_user : gmap string JSON := {[ "username" := JStr "alice" ]}.

Definition v2_auth : gmap string JSON := {[ "passwordCredentials" := JObj v2_user ]}.

Definition v2_auth_data : gmap string JSON := {[ "auth" := JObj v2_auth ]}.

Definition token_fields : gmap string JSON :=
  <["catalog" := JArr [JObj ∅]]> {[ "id" := JStr "tok-123" ]}.

Definition token_data : gmap string JSON := {[ "token" := JObj token_fields ]}.

(** The number of bytes of [s] equal to [c]. *)
Fixpoint count_byte (c : ascii) (s : string) : nat :=
  match s with
  | String a s' => (if Ascii.eqb a c then 1 else 0) + count_byte c s'
  | EmptyString => 0
  end.

(** The stream named [b] exists and is not a no-op closer; it is closed. *)
Definition closable (st : list Stream) (b : nat) : Prop :=
  ∃ s, st !! b = Some s ∧ nop s = false.

Definition is_closed (st : list Stream) (b : nat) : Prop :=
  ∃ s, st !! b = Some s ∧ nop s = false ∧ closed s = true.

(** A round tripper without a logger, over the transport [ort]. *)
Definition silent_rt (ort : Transport) : RoundTripper :=
  {| rt_Rt := Some ort; rt_headers := None; rt_maskHeaders := None;
     rt_FormatJSON := None; rt_MaxRetries := 2; rt_Logger := None |}.

(** A round tripper without a transport and without a logger. *)
Definition bare_rt : RoundTripper :=
  {| rt_Rt := None; rt_headers := Some ∅; rt_maskHeaders := None;
     rt_FormatJSON := None; rt_MaxRetries := 2; rt_Logger := None |}.

(** Streams are only ever drained, closed and added: a stream that can be
    closed stays so, and a closed stream stays closed. *)
Definition store_grows (st st' : list Stream) : Prop :=
  ∀ b, (closable st b → closable st' b) ∧ (is_closed st b → is_closed st' b).

(** ** Single-shot mode *)

Module SingleShot.
Import Harness.

(** What [auth] prints on the diagnostic stream before the token. *)
Definition debug_output (cfg : Config) (res : AuthResult) : list string :=
  if debug cfg then ["User: " +:+ Username res; "Project: " +:+ Project res] else [].

(** What the round tripper of the call may have logged: lines of its
    logger, and none unless [debug] is set. *)
Definition logger_lines (cfg : Config) (logged : list string) : Prop :=
  Forall (λ l, strings.HasPrefix l "-> " = true ∨ strings.HasPrefix l "<- " = true)
         logged
  ∧ (debug cfg = false → logged = []).

(** The states of a run with [threads = 0]: no goroutine is started;
    while the process runs nothing is printed before the call returns,
    apart from what the round tripper logs; it ends with status 0 after
    printing the token on standard output, or with status 1 after
    printing the error on the diagnostic stream. *)
Definition single_shot_inv (cfg : Config) (st : State) : Prop :=
  workers st = [] ∧ reporter_pc st = None
  ∧ ∃ logged,
      logger_lines cfg logged
      ∧ match status st with
        | Running =>
            (stdout (shared st) = [] ∧ stderr (shared st) = logged
             ∧ match main_pc st with
               | MStart | MInline WStart | MInline WCall | MInline (WFailed _)
               | MInline (WFailed2 _) | MInline (WOk _) => True
               | _ => False
               end)
            ∨ (∃ res, main_pc st = MInline WDone
                      ∧ stdout (shared st) = [TokenID res]
                      ∧ stderr (shared st) = (logged ++ debug_output cfg res)%list)
        | Exited code =>
            (code = 0%Z
             ∧ ∃ res, stdout (shared st) = [TokenID res]
                      ∧ stderr (shared st) = (logged ++ debug_output cfg res)%list)
            ∨ (code = 1%Z
               ∧ ∃ e, stdout (shared st) = []
                      ∧ stderr (shared st) = (logged ++ [Error e])%list)
        | Panicked => False
        end.

End SingleShot.

(** ** The lock of the error tally *)

Module TallyLock.
Import Harness.

(** A worker between [lck.Lock()] and [lck.Unlock()]. *)
Definition writing (pc : WPc) : nat :=
  match pc with
  | WTally _ | WUnlock => 1
  | _ => 0
  end.

Fixpoint writers (ws : list WPc) : nat :=
  match ws with
  | [] => 0
  | pc :: ws' => writing pc + writers ws'
  end.

(** The reporter between [lck.RLock()] and [lck.RUnlock()]. *)
Definition reading (rp : option RPc) : nat :=
  match rp with
  | Some RLocked => 1
  | _ => 0
  end.

Definition lock_inv (st : State) : Prop :=
  writers (workers st) = (if writer (shared st) then 1 else 0)
  ∧ readers (shared st) = reading (reporter_pc st)
  ∧ (writer (shared st) = true → readers (shared st) = 0)
  ∧ (main_pc st = MStart → reporter_pc st = None).

End TallyLock.

(** ** Accounting of the attempts *)

Module Accounting.
Import Harness HarnessInv.

(** A worker that has not yet counted its attempt, and one whose call
    failed and that has not yet counted the failure. *)
Definition not_started (pc : WPc) : nat :=
  match pc with
  | WStart => 1
  | _ => 0
  end.

Definition uncounted_failure (pc : WPc) : nat :=
  match pc with
  | WFailed _ => 1
  | _ => 0
  end.

Fixpoint count (f : WPc → nat) (ws : list WPc) : nat :=
  match ws with
  | [] => 0
  | pc :: ws' => f pc + count f ws'
  end.

(** The authentication calls of workers that returned an error. *)
Definition is_failure_return (l : Label) : nat :=
  match l with
  | AuthDone (Some _) (inr _) => 1
  | _ => 0
  end.

Fixpoint failure_returns (sched : list Label) : nat :=
  match sched with
  | [] => 0
  | l :: sched' => is_failure_return l + failure_returns sched'
  end.

(** Every attempt and every failure is in exactly one place: a window
    counter, a value the reporter holds, or a total. *)
Definition accounting_inv (failures : Z) (st : State) : Prop :=
  (ops (shared st) + totalReq (shared st) + pending_s (reporter_pc st)
   + Z.of_nat (count not_started (workers st))
   = Z.of_nat (length (workers st))
   ∧ fps (shared st) + totalErr (shared st) + pending_f (reporter_pc st)
     + Z.of_nat (count uncounted_failure (workers st))
     = failures)%Z.

(** Before the first statement of [main] there is no reporter. *)
Definition no_reporter_at_start (st : State) : Prop :=
  main_pc st = MStart → reporter_pc st = None.

End Accounting.

(** A single-shot configuration and a successful authentication. *)
Definition single_cfg : Harness.Config :=
  {| Harness.threads := 0; Harness.debug := true; Harness.showErr := false |}.

Definition sample_success : Harness.AuthReturn :=
  inl {| Harness.Username := "alice"; Harness.Project := "demo";
         Harness.TokenID := "tok-123" |}.

(** A schedule in which two workers start between the reporter's addition
    to the totals and its print. *)
Definition burst_sched : list Harness.Label :=
  [Harness.Main; Harness.Main; Harness.Main; Harness.Work 0;
   Harness.AuthDone (Some 0) sample_success; Harness.Work 0; Harness.Work 0;
   Harness.Report; Harness.Report; Harness.Report; Harness.Report;
   Harness.Main; Harness.Main; Harness.Main; Harness.Main;
   Harness.Work 1; Harness.Work 2].

(** A schedule of the earlier version in which one worker fails and the
    reporter reads the counters. *)
Definition earlier_sched : list Harness.Label :=
  [Harness.Main; Harness.Main; Harness.Main; Harness.Work 0;
   Harness.AuthDone (Some 0) sample_failure; Harness.Work 0;
   Harness.Report; Harness.Report].

(** A schedule in which the reporter ticks before any worker has
    started. *)
Definition idle_sched : list Harness.Label :=
  [Harness.Main; Harness.Report; Harness.Report; Harness.Report; Harness.Report].

(** A single-shot run in which the call logs its request. *)
Definition single_sched : list Harness.Label :=
  [Harness.Main; Harness.Main;
   Harness.CallLog None false "URL: POST http://keystone/v3/ec2tokens";
   Harness.AuthDone None sample_success; Harness.Main; Harness.Main].

(** A schedule in which a worker holds the tally lock. *)
Definition tally_sched : list Harness.Label :=
  [Harness.Main; Harness.Main; Harness.Main; Harness.Work 0;
   Harness.AuthDone (Some 0) sample_failure; Harness.Work 0; Harness.Work 0;
   Harness.Work 0].

(** ** The error tally *)

Module Tally.
Import Harness.

(** The count the tally holds for the category [t]. *)
Definition tally (t : string) (sh : Shared) : Z := default 0%Z (errs sh !! t).

(** A worker whose call failed with an error of category [t] and that has
    not yet executed [errs[errType] += 1]. *)
Definition untallied (t : string) (pc : WPc) : nat :=
  match pc with
  | WFailed e | WFailed2 e => if String.eqb (errType e) t then 1 else 0
  | WLock t' | WTally t' => if String.eqb t' t then 1 else 0
  | _ => 0
  end.

(** The calls of workers that returned an error of category [t]. *)
Definition is_failure_of (t : string) (l : Label) : nat :=
  match l with
  | AuthDone (Some _) (inr e) => if String.eqb (errType e) t then 1 else 0
  | _ => 0
  end.

Fixpoint failures_of (t : string) (sched : list Label) : nat :=
  match sched with
  | [] => 0
  | l :: sched' => is_failure_of t l + failures_of t sched'
  end.

Definition tally_inv (t : string) (k : Z) (st : State) : Prop :=
  (tally t (shared st)
   + Z.of_nat (Accounting.count (untallied t) (workers st)) = k
   ∧ 0 ≤ tally t (shared st)
   ∧ ∀ v, errs (shared st) !! t = Some v → 0 < v)%Z.

(** A worker at the tally. *)
Definition tallying (pc : WPc) : nat :=
  match pc with
  | WLock _ | WTally _ | WUnlock => 1
  | _ => 0
  end.

Definition quiet_inv (st : State) : Prop :=
  errs (shared st) = ∅
  ∧ Accounting.count tallying (workers st) = 0
  ∧ match reporter_pc st with
    | Some RLock | Some RLocked => False
    | _ => True
    end.

End Tally.

(** A schedule in which a worker records its failure in the tally. *)
Definition tallied_sched : list Harness.Label :=
  (tally_sched ++ [Harness.Work 0])%list.

Definition quiet_cfg : Harness.Config :=
  {| Harness.threads := 2; Harness.debug := false; Harness.showErr := false |}.

(** ** [pkg.OpenStackEC2Auth] (pkg/main.go) *)

Module Auth.
Import Harness.

(** The user and the project scope of a token, with the field the code
    reads. *)
Record User := { user_Name : string }.
Record ProjectScope := { project_Name : string }.

(** The value of [ec2tokens.Create]: its [Err] field and what its three
    extraction methods return. *)
Record CreateResult := {
  Err : option AuthError;
  ExtractUser : option User * option AuthError;
  ExtractProject : option ProjectScope * option AuthError;
  ExtractTokenID : string * option AuthError;
}.

(** [fmt.Errorf] without a wrapped error *)
Definition Errorf (msg : string) : AuthError := OtherError msg "*errors.errorString".

Definition OpenStackEC2Auth (res : CreateResult)
    : option AuthResult * option AuthError :=
  match Err res with
  | Some e => (None, Some e)
  | None =>
      let '(user, err) := ExtractUser res in
      match err with
      | Some e => (None, Some e)
      | None =>
          match user with
          | None => (None, Some (Errorf "empty user"))
          | Some user =>
              let '(project, err) := ExtractProject res in
              match err with
              | Some e => (None, Some e)
              | None =>
                  match project with
                  | None => (None, Some (Errorf "empty project scope"))
                  | Some project =>
                      let '(tokenID, err) := ExtractTokenID res in
                      match err with
                      | Some e => (None, Some e)
                      | None =>
                          (Some {| Username := user_Name user;
                                   Project := project_Name project;
                                   TokenID := tokenID |}, None)
                      end
                  end
              end
          end
      end
  end.

(** Every step of the authentication succeeded and gave [r]. *)
Definition succeeded (res : CreateResult) (r : AuthResult) : Prop :=
  Err res = None
  ∧ ∃ user project,
      ExtractUser res = (Some user, None)
      ∧ ExtractProject res = (Some project, None)
      ∧ ExtractTokenID res = (TokenID r, None)
      ∧ Username r = user_Name user
      ∧ Project r = project_Name project.

End Auth.

(** ** The settings of [main] *)

Module Startup.

Record Settings := {
  authURL : string;
  Access : string;
  Secret : string;
}.

(** [if flag == "" { flag = os.Getenv(name) }] *)
Definition or_env (flag : string) (env : string) : string :=
  if String.eqb flag "" then env else flag.

Definition from_env (Getenv : string → string) (flags : Settings) : Settings :=
  {| authURL := or_env (authURL flags) (Getenv "OS_AUTH_URL");
     Access := or_env (Access flags) (Getenv "AWS_ACCESS_KEY_ID");
     Secret := or_env (Secret flags) (Getenv "AWS_SECRET_ACCESS_KEY") |}.

Definition missing_auth_url : error :=
  "Please define --auth-url parameter or OS_AUTH_URL environment variable".
Definition missing_access : error :=
  "Please define --access parameter or AWS_ACCESS_KEY_ID environment variable".
Definition missing_secret : error :=
  "Please define --secret parameter or AWS_SECRET_ACCESS_KEY environment variable".

Definition errors (s : Settings) : list error :=
  ((if String.eqb (authURL s) "" then [missing_auth_url] else [])
   ++ (if String.eqb (Access s) "" then [missing_access] else [])
   ++ (if String.eqb (Secret s) "" then [missing_secret] else []))%list.

(** The first part of [main]: what is logged, and the settings the
    program goes on with, or [None] for [os.Exit(1)]. *)
Definition settings (Getenv : string → string) (flags : Settings)
    : list string * option Settings :=
  let s := from_env Getenv flags in
  match errors s with
  | [] => ([], Some s)
  | es => (es, None)
  end.

(** A setting given neither as a flag nor in the environment. *)
Definition unset (flag : string) (env : string) : Prop := flag = "" ∧ env = "".

End Startup.

(** A transport whose response body cannot be read. *)
Definition broken_stream : Stream :=
  {| data := "{"; fail := Some "unexpected EOF"; closed := false; nop := false |}.

Definition broken_world : World :=
  {| streams := [broken_stream]; out := []; calls := [] |}.

(** ** Properties of [strings.ReplaceAll] *)

Section Replace.

Lemma HasPrefix_nil s : strings.HasPrefix s "" = true.
Proof. by destruct s. Qed.










End Replace.

(** ** Lookups through the masking steps *)

Section Masking.

Implicit Types (m v : gmap string JSON) (k : string).

Lemma with_map_lookup_ne k k' body m :
  k ≠ k' → with_map k body m !! k' = m !! k'.
Proof.
  intros Hne. unfold with_map.
  destruct (m !! k) as [[]|]; try done. by rewrite lookup_insert_ne.
Qed.

Lemma with_map_lookup_eq k body m v :
  m !! k = Some (JObj v) → with_map k body m !! k = Some (JObj (body v)).
Proof. intros H. unfold with_map. rewrite H. by rewrite lookup_insert_eq. Qed.

Lemma with_map_lookup_other k body m c :
  m !! k = Some c → (∀ v, c ≠ JObj v) → with_map k body m = m.
Proof. intros H Hc. unfold with_map. rewrite H. destruct c; try done. by destruct (Hc m0). Qed.

Lemma with_map_lookup_none k body m :
  m !! k = None → with_map k body m = m.
Proof. intros H. unfold with_map. by rewrite H. Qed.

Lemma mask_if_present_lookup_ne k k' v :
  k ≠ k' → mask_if_present k v !! k' = v !! k'.
Proof.
  intros Hne. unfold mask_if_present.
  destruct (v !! k); [|done]. by rewrite lookup_insert_ne.
Qed.

Lemma mask_if_present_lookup_eq k v :
  mask_if_present k v !! k = (λ _, mask) <$> (v !! k).
Proof.
  unfold mask_if_present. destruct (v !! k) eqn:E; simpl.
  - by rewrite lookup_insert_eq.
  - done.
Qed.

(** The top-level [credentials] object after all masking steps. *)
Lemma mask_data_credentials data v :
  data !! "credentials" = Some (JObj v) →
  mask_data data !! "credentials" =
    Some (JObj (with_map "headers" (mask_authorization (access_of v))
                  (mask_if_present "body_hash" (mask_if_present "access" v)))).
Proof.
  intros H. unfold mask_data, mask_token, mask_auth.
  rewrite with_map_lookup_ne by done.
  unfold mask_credentials.
  erewrite with_map_lookup_eq; [done|].
  by rewrite with_map_lookup_ne.
Qed.

End Masking.


(** ** The frame of [mask_data] *)

Section Frame.

Implicit Types (m v : gmap string JSON) (k : string) (P : list string → bool).

Lemma frames_with_map k body P :
  P [] = false → frames body (λ p, P (k :: p)) → frames (with_map k body) P.
Proof.
  intros Hnil Hbody m [|k' p] HP; [congruence|].
  cbn [jpath]. destruct (decide (k = k')) as [->|Hne].
  - unfold with_map. destruct (m !! k') as [c|] eqn:E; [|by rewrite E].
    destruct c; try by rewrite E.
    rewrite lookup_insert_eq. by apply Hbody.
  - by rewrite with_map_lookup_ne.
Qed.

Lemma frames_insert k x P :
  P [] = false → (∀ p, P (k :: p) = false) → frames (insert k x) P.
Proof.
  intros Hnil Hk m [|k' p] HP; [congruence|].
  cbn [jpath]. destruct (decide (k = k')) as [->|Hne].
  - rewrite Hk in HP. done.
  - by rewrite lookup_insert_ne.
Qed.

Lemma frames_mask_if_present k P :
  P [] = false → (∀ p, P (k :: p) = false) → frames (mask_if_present k) P.
Proof.
  intros Hnil Hk m p HP. unfold mask_if_present.
  destruct (m !! k); [|done]. by apply (frames_insert k mask P Hnil Hk).
Qed.

Lemma frames_mask_authorization access P :
  P [] = false → (∀ p, P ("Authorization" :: p) = false) →
  frames (mask_authorization access) P.
Proof.
  intros Hnil Hk m p HP. unfold mask_authorization.
  destruct (m !! "Authorization") as [[]|]; try done.
  by apply (frames_insert "Authorization" _ P Hnil Hk).
Qed.

Lemma frames_compose f g P :
  frames f P → frames g P → frames (λ v, g (f v)) P.
Proof. intros Hf Hg v p HP. rewrite Hg by done. by apply Hf. Qed.

Lemma frames_auth_passwordCredentials :
  frames (with_map "passwordCredentials" (insert "password" mask))
         (λ p, outside ("auth" :: p)).
Proof.
  apply frames_with_map; [reflexivity|].
  apply frames_insert; [reflexivity|intros; reflexivity].
Qed.

Lemma frames_auth_token :
  frames (with_map "token" (insert "id" mask)) (λ p, outside ("auth" :: p)).
Proof.
  apply frames_with_map; [reflexivity|].
  apply frames_insert; [reflexivity|intros; reflexivity].
Qed.

Lemma frames_identity_password :
  frames (with_map "password" (with_map "user" (insert "password" mask)))
         (λ p, outside ("auth" :: "identity" :: p)).
Proof.
  apply frames_with_map; [reflexivity|].
  apply frames_with_map; [reflexivity|].
  apply frames_insert; [reflexivity|intros; reflexivity].
Qed.

Lemma frames_identity_application_credential :
  frames (with_map "application_credential" (insert "secret" mask))
         (λ p, outside ("auth" :: "identity" :: p)).
Proof.
  apply frames_with_map; [reflexivity|].
  apply frames_insert; [reflexivity|intros; reflexivity].
Qed.

Lemma frames_identity_token :
  frames (with_map "token" (insert "id" mask))
         (λ p, outside ("auth" :: "identity" :: p)).
Proof.
  apply frames_with_map; [reflexivity|].
  apply frames_insert; [reflexivity|intros; reflexivity].
Qed.

Lemma frames_mask_auth : frames mask_auth outside.
Proof.
  unfold mask_auth. apply frames_with_map; [reflexivity|].
  intros v p HP. cbv zeta.
  rewrite (frames_with_map "identity" _ (λ p, outside ("auth" :: p)));
    [|reflexivity| |exact HP].
  - rewrite frames_auth_token by exact HP.
    by rewrite frames_auth_passwordCredentials.
  - intros v' p' HP'. cbv zeta.
    rewrite frames_identity_token by exact HP'.
    rewrite frames_identity_application_credential by exact HP'.
    by rewrite frames_identity_password.
Qed.

Lemma frames_mask_credentials : frames mask_credentials outside.
Proof.
  unfold mask_credentials. apply frames_with_map; [reflexivity|].
  intros v p HP. cbv zeta.
  rewrite (frames_with_map "headers" _ (λ p, outside ("credentials" :: p)));
    [|reflexivity| |exact HP].
  - rewrite (frames_mask_if_present "body_hash" (λ p, outside ("credentials" :: p)));
      [|reflexivity|intros; reflexivity|exact HP].
    rewrite (frames_mask_if_present "access" (λ p, outside ("credentials" :: p)));
      [reflexivity|reflexivity|intros; reflexivity|exact HP].
  - apply frames_mask_authorization; [reflexivity|intros; reflexivity].
Qed.

Lemma frames_mask_token : frames mask_token outside.
Proof.
  unfold mask_token. apply frames_with_map; [reflexivity|].
  apply frames_mask_if_present; [reflexivity|intros; reflexivity].
Qed.

(** Every field outside the sensitive ones keeps its value, and a field
    that is absent stays absent. *)
Lemma mask_data_frame data p :
  outside p = true → jpath p (JObj (mask_data data)) = jpath p (JObj data).
Proof.
  intros HP. unfold mask_data.
  rewrite frames_mask_token by exact HP.
  rewrite frames_mask_credentials by exact HP.
  by rewrite frames_mask_auth.
Qed.

End Frame.

(** ** [FormatJSON] on the EC2 credentials *)

Section Credentials.
Context {lib : Library}.

Lemma jpath_credentials data v p :
  data !! "credentials" = Some (JObj v) →
  jpath ("credentials" :: p) (JObj (mask_data data)) =
    jpath p (JObj (with_map "headers" (mask_authorization (access_of v))
                     (mask_if_present "body_hash" (mask_if_present "access" v)))).
Proof. intros H. cbn [jpath]. by rewrite (mask_data_credentials data v H). Qed.

End Credentials.


Section CredentialsMasked.
Context {lib : Library}.


(** C8 at the failing input: without an [access] field, the
    [Authorization] value, which has no access key to hide, is rewritten
    with the mask token around every byte. *)
Theorem FormatJSON_rewrites_authorization_without_access :
  ∃ data,
    json.Unmarshal no_access_body = inl (JObj data)
    ∧ jpath access_path (JObj data) = None
    ∧ jpath authorization_path (JObj data) = Some (JStr "ab")
    ∧ jpath authorization_path (JObj (mask_data data))
        = Some (JStr "***a***b***")
    ∧ FormatJSON no_access_body = (json.marshal 0 (JObj (mask_data data)), None).
Proof.
  destruct (json.Unmarshal no_access_body) as [[| | | | |data]|] eqn:E;
    try (vm_compute in E; discriminate).
  exists data. split; [reflexivity|].
  vm_compute in E. injection E as <-.
  repeat split; vm_compute; reflexivity.
Qed.

End CredentialsMasked.

(** ** Header redaction *)

Section Headers.
Context {lib : Library}.

Implicit Types (rt : RoundTripper) (headers : Header).

Lemma formatHeaders_lines_sorted rt headers :
  Sorted String.le (formatHeaders_lines rt headers).
Proof. apply Sorted_merge_sort, _. Qed.

Lemma formatHeaders_lines_perm rt headers :
  formatHeaders_lines rt headers ≡ₚ hideSensitiveHeadersData rt headers.
Proof. apply merge_sort_Permutation. Qed.

Lemma formatHeaders_join rt headers separator :
  formatHeaders rt headers separator
  = strings.Join (formatHeaders_lines rt headers) separator.
Proof. reflexivity. Qed.

(** Every header has its line in the output. *)
Lemma formatHeaders_line rt headers name vals :
  headers !! name = Some vals →
  redact_header (maskHeaders_of rt) (name, vals) ∈ formatHeaders_lines rt headers.
Proof.
  intros H. rewrite formatHeaders_lines_perm. unfold hideSensitiveHeadersData.
  apply list_elem_of_fmap. exists (name, vals). split; [done|].
  by apply elem_of_map_to_list.
Qed.

(** A header whose lower-cased name is in the set is masked, whatever the
    letter case of the incoming name. *)
Lemma formatHeaders_masks rt headers name vals :
  headers !! name = Some vals →
  strings.ToLower name ∈ maskHeaders_of rt →
  (name +:+ ": ***") ∈ formatHeaders_lines rt headers.
Proof.
  intros H Hin. pose proof (formatHeaders_line rt headers name vals H) as Hl.
  unfold redact_header in Hl. cbn [fst snd] in Hl.
  by rewrite decide_True in Hl.
Qed.

(** With a set of lower-case entries (the default set is one), a header
    is masked as soon as its name equals an entry up to letter case. *)
Lemma formatHeaders_masks_lowercase_set rt headers name vals entry :
  (∀ e, e ∈ maskHeaders_of rt → strings.ToLower e = e) →
  entry ∈ maskHeaders_of rt →
  strings.ToLower name = strings.ToLower entry →
  headers !! name = Some vals →
  (name +:+ ": ***") ∈ formatHeaders_lines rt headers.
Proof.
  intros Hlow Hin Heq H. apply (formatHeaders_masks rt headers name vals H).
  rewrite Heq, (Hlow entry Hin). exact Hin.
Qed.

Lemma defaultSensitiveHeaders_lowercase e :
  e ∈ defaultSensitiveHeaders → strings.ToLower e = e.
Proof.
  unfold defaultSensitiveHeaders. cbn [list_to_set foldr].
  rewrite !elem_of_union, !elem_of_singleton, elem_of_empty.
  intros H. repeat destruct H as [->|H]; try reflexivity. done.
Qed.

(** A header whose lower-cased name is not in the set is printed with its
    values. *)
Lemma formatHeaders_keeps rt headers name vals :
  headers !! name = Some vals →
  strings.ToLower name ∉ maskHeaders_of rt →
  (name +:+ ": " +:+ strings.Join vals " ") ∈ formatHeaders_lines rt headers.
Proof.
  intros H Hin. pose proof (formatHeaders_line rt headers name vals H) as Hl.
  unfold redact_header in Hl. cbn [fst snd] in Hl.
  by rewrite decide_False in Hl.
Qed.

(** C6 at the failing input: an entry installed with [SetSensitiveHeaders]
    in the canonical header spelling matches no header, not even the one
    spelled the same way, and the value is printed. *)
Theorem formatHeaders_mixed_case_entry_not_masked rt :
  formatHeaders (SetSensitiveHeaders rt ["X-Auth-Token"])
    {[ "X-Auth-Token" := ["secret"] ]} newline
  = "X-Auth-Token: secret".
Proof. reflexivity. Qed.

End Headers.

(** ** The retry loop of [RoundTrip] *)

Section Retry.
Context {lib : Library}.

Context (rt : RoundTripper) (ort : Transport) (request : Request).
Context (errs : nat → option error) (R n0 : nat).
Hypothesis HR : rt_MaxRetries rt = Z.of_nat R.

Lemma when_logging_streams msg w : streams (when_logging rt msg w) = streams w.
Proof. unfold when_logging. by destruct (rt_Logger rt). Qed.

Lemma when_logging_calls msg w : calls (when_logging rt msg w) = calls w.
Proof. unfold when_logging. by destruct (rt_Logger rt). Qed.

Lemma when_logging_out msg w :
  out (when_logging rt msg w) = log_lines rt [msg] (out w).
Proof.
  unfold log_lines, when_logging, resp_log, log.
  by destruct (rt_Logger rt).
Qed.

Lemma log_lines_cons msg msgs o :
  log_lines rt (msg :: msgs) o = log_lines rt msgs (log_lines rt [msg] o).
Proof. unfold log_lines. by destruct (rt_Logger rt). Qed.

Lemma log_lines_app msgs1 msgs2 o :
  log_lines rt (msgs1 ++ msgs2) o = log_lines rt msgs2 (log_lines rt msgs1 o).
Proof. unfold log_lines. destruct (rt_Logger rt); [|done]. by rewrite foldl_app. Qed.

Lemma log_lines_no_logger msgs o : rt_Logger rt = None → log_lines rt msgs o = o.
Proof. intros H. unfold log_lines. by rewrite H. Qed.

Lemma retry_entries_length first count :
  length (retry_entries errs first count) = count.
Proof. unfold retry_entries. by rewrite length_fmap, length_seq. Qed.

Lemma retry_entries_cons first count :
  retry_entries errs first (S count)
  = retry_message (Z.of_nat first) (errs (first - 1))
      :: retry_entries errs (S first) count.
Proof. reflexivity. Qed.

(** Every attempt from the retry [r] on returns no response: the loop
    makes the remaining [k] retries and gives up. *)
Lemma retry_loop_exhausted k :
  ∀ r w,
    (1 ≤ r)%nat → r + k = S R →
    length (calls w) = n0 + r →
    (∀ i req st, (r ≤ i)%nat → (i ≤ R)%nat → ort (n0 + i) req st = (None, errs i)) →
    ∃ w',
      retry_loop rt ort request k (Z.of_nat r) None (errs (r - 1)) w
        = Some (inr (exhausted_error (errs R)), w')
      ∧ streams w' = streams w
      ∧ calls w' = (calls w ++ replicate k request)%list
      ∧ out w' = log_lines rt
                   (retry_entries errs r k
                    ++ ["Connection error, retries exhausted. Aborting"])
                   (out w).
Proof.
  induction k as [|k IH]; intros r w Hr Hk Hlen Hfail.
  - assert (r = S R) as -> by lia.
    cbn [retry_loop]. rewrite HR.
    destruct (Z.ltb_spec (Z.of_nat R) (Z.of_nat (S R))) as [_|]; [|lia].
    eexists. split; [|split; [|split]].
    + repeat f_equal. replace (S R - 1) with R by lia. reflexivity.
    + apply when_logging_streams.
    + rewrite when_logging_calls. by rewrite app_nil_r.
    + by rewrite when_logging_out.
  - cbn [retry_loop]. rewrite HR.
    destruct (Z.ltb_spec (Z.of_nat R) (Z.of_nat r)) as [|_]; [lia|].
    unfold delegate. rewrite when_logging_calls, when_logging_streams, Hlen.
    rewrite (Hfail r) by lia.
    replace (Z.of_nat r + 1)%Z with (Z.of_nat (S r)) by lia.
    edestruct (IH (S r) (record_call request
                           (when_logging rt (retry_message (Z.of_nat r) (errs (r - 1))) w)))
      as (w' & Hloop & Hst & Hcalls & Hout).
    + lia.
    + lia.
    + cbn [record_call calls]. rewrite length_app, when_logging_calls. simpl. lia.
    + intros i req st ??. apply Hfail; lia.
    + replace (S r - 1) with r in Hloop by lia.
      exists w'. split; [exact Hloop|]. split; [|split].
      * rewrite Hst. cbn [record_call streams]. apply when_logging_streams.
      * rewrite Hcalls. cbn [record_call calls replicate].
        rewrite when_logging_calls. by rewrite <- app_assoc.
      * rewrite Hout. cbn [record_call out]. rewrite when_logging_out.
        rewrite retry_entries_cons. cbn [app]. symmetry. apply log_lines_cons.
Qed.

(** The attempts [r], ..., [r + k - 1] return no response and the attempt
    [r + k] returns one: the loop ends with it after [k + 1] retries. *)
Lemma retry_loop_succeeds k :
  ∀ r fuel w resp rerr,
    (r + k ≤ R)%nat → (k < fuel)%nat →
    length (calls w) = n0 + r →
    (∀ i req st, (r ≤ i)%nat → (i < r + k)%nat → ort (n0 + i) req st = (None, errs i)) →
    (∀ req st, ort (n0 + r + k) req st = (Some resp, rerr)) →
    ∃ w',
      retry_loop rt ort request fuel (Z.of_nat r) None (errs (r - 1)) w
        = Some (inl (resp, rerr), w')
      ∧ streams w' = streams w
      ∧ calls w' = (calls w ++ replicate (S k) request)%list
      ∧ out w' = log_lines rt (retry_entries errs r (S k)) (out w).
Proof.
  induction k as [|k IH]; intros r fuel w resp rerr Hr Hfuel Hlen Hfail Hok;
    (destruct fuel as [|fuel]; [lia|]); cbn [retry_loop]; rewrite HR;
    (destruct (Z.ltb_spec (Z.of_nat R) (Z.of_nat r)) as [|_]; [lia|]);
    unfold delegate; rewrite when_logging_calls, when_logging_streams, Hlen.
  - replace (n0 + r) with (n0 + r + 0) by lia. rewrite Hok.
    destruct fuel; cbn [retry_loop];
      (eexists; split; [reflexivity|]; split; [|split]);
      cbn [record_call streams calls out replicate];
      rewrite ?when_logging_streams, ?when_logging_calls, ?when_logging_out; done.
  - rewrite (Hfail r) by lia.
    replace (Z.of_nat r + 1)%Z with (Z.of_nat (S r)) by lia.
    edestruct (IH (S r) fuel (record_call request
                           (when_logging rt (retry_message (Z.of_nat r) (errs (r - 1))) w))
                  resp rerr)
      as (w' & Hloop & Hst & Hcalls & Hout).
    + lia.
    + lia.
    + cbn [record_call calls]. rewrite length_app, when_logging_calls. simpl. lia.
    + intros i req st ??. apply Hfail; lia.
    + intros req st. replace (n0 + S r + k) with (n0 + r + S k) by lia. apply Hok.
    + replace (S r - 1) with r in Hloop by lia.
      exists w'. split; [exact Hloop|]. split; [|split].
      * rewrite Hst. cbn [record_call streams]. apply when_logging_streams.
      * rewrite Hcalls. cbn [record_call calls replicate].
        rewrite when_logging_calls. by rewrite <- app_assoc.
      * rewrite Hout. cbn [record_call out]. rewrite when_logging_out.
        rewrite (retry_entries_cons r (S k)). symmetry. apply log_lines_cons.
Qed.

End Retry.

(** ** [RoundTrip] *)

Section RoundTrip.
Context {lib : Library}.

Implicit Types (rt : RoundTripper) (w : World) (request : Request).

Lemma req_log_calls rt msg w : calls (req_log rt msg w) = calls w.
Proof. reflexivity. Qed.

Lemma req_log_streams rt msg w : streams (req_log rt msg w) = streams w.
Proof. reflexivity. Qed.

Lemma logRequest_calls rt original ct w res w' :
  logRequest rt original ct w = (res, w') → calls w' = calls w.
Proof.
  unfold logRequest. destruct (is_json_request ct); [|by intros [= <- <-]].
  destruct (io_Copy (streams w) original) as [[bs [e|]] st].
  - by intros [= <- <-].
  - destruct (formatJSON rt bs) as [debugInfo [e|]]; by intros [= <- <-].
Qed.

Lemma logResponse_calls rt original ct w res w' :
  logResponse rt original ct w = (res, w') → calls w' = calls w.
Proof.
  unfold logResponse. destruct (is_json_response ct); [|by intros [= <- <-]].
  destruct (io_Copy (streams w) original) as [[bs [e|]] st].
  - by intros [= <- <-].
  - destruct (formatJSON rt bs) as [debugInfo [e|]];
      destruct (String.eqb debugInfo ""); by intros [= <- <-].
Qed.

Lemma log_request_phase_calls rt request w err request' w' :
  log_request_phase rt request w = (err, request', w') → calls w' = calls w.
Proof.
  unfold log_request_phase. destruct (rt_Logger rt); [|by intros [= <- <- <-]].
  destruct (req_Body request) as [body|]; [|by intros [= <- <- <-]].
  destruct (logRequest _ _ _ _) as [[body' e] w1] eqn:E.
  intros [= <- <- <-]. by apply logRequest_calls in E.
Qed.

Lemma log_response_phase_calls rt resp err w res w' :
  log_response_phase rt resp err w = (res, w') → calls w' = calls w.
Proof.
  unfold log_response_phase. destruct (rt_Logger rt); [|by intros [= <- <-]].
  destruct (logResponse _ _ _ _) as [[body' e] w1] eqn:E.
  intros [= <- <-]. by apply logResponse_calls in E.
Qed.

Lemma close_body_calls request w : calls (close_body request w) = calls w.
Proof. unfold close_body. by destruct (req_Body request). Qed.

Lemma close_body_out request w : out (close_body request w) = out w.
Proof. unfold close_body. by destruct (req_Body request). Qed.

(** The response handed back has the status and the headers of the one
    the transport returned; without a logger it is returned as it is. *)
Lemma log_response_phase_response rt resp err w :
  StatusCode (log_response_phase rt resp err w).1.1 = StatusCode resp
  ∧ resp_Header (log_response_phase rt resp err w).1.1 = resp_Header resp
  ∧ (rt_Logger rt = None →
     log_response_phase rt resp err w
     = (({| StatusCode := StatusCode resp; resp_Header := resp_Header resp;
            resp_Body := Some (resp_Body resp) |}, err), w)).
Proof.
  unfold log_response_phase. destruct (rt_Logger rt); [|done].
  by destruct (logResponse _ _ _ _) as [[body' e] w1].
Qed.

Lemma retry_loop_response rt ort request fuel retry r err w :
  retry_loop rt ort request fuel retry (Some r) err w = Some (inl (r, err), w).
Proof. by destruct fuel. Qed.

(** The fuel [RoundTrip] gives the loop is enough. *)
Lemma retry_loop_total rt ort request fuel :
  ∀ retry response err w,
    (rt_MaxRetries rt - retry + 1 ≤ Z.of_nat fuel)%Z →
    is_Some (retry_loop rt ort request fuel retry response err w).
Proof.
  induction fuel as [|fuel IH]; intros retry [r|] err w Hfuel; cbn [retry_loop];
    try done.
  - destruct (Z.ltb_spec (rt_MaxRetries rt) retry); [done|lia].
  - destruct (Z.ltb_spec (rt_MaxRetries rt) retry); [done|].
    destruct (delegate _ _ _) as [[response' err'] w']. apply IH. lia.
Qed.

(** [RoundTrip] returns. *)
Lemma RoundTrip_total rt request w : is_Some (RoundTrip rt request w).
Proof.
  unfold RoundTrip.
  destruct (log_request_phase _ _ _) as [[[e|] request'] w1]; [done|].
  destruct (rt_Rt rt) as [ort|]; [|done].
  destruct (delegate _ _ _) as [[response err] w2].
  destruct (retry_loop_total rt ort request' (Z.to_nat (rt_MaxRetries rt))
              1 response err w2) as [[[[r e]|e] w3] ->]; [lia| |done].
  by destruct (log_response_phase _ _ _ _) as [[? ?] ?].
Qed.

(** C2.  A transport with [MaxRetries = R] whose request reaches the
    underlying transport.  If the attempts [0..R] all return no response,
    [RoundTrip] delegates exactly [R + 1] times and returns the
    "retries exhausted" error, whose text ends with the last error; if the
    attempts [0..R-1] return no response and the attempt [R] returns one,
    [RoundTrip] delegates [R + 1] times and returns that response.  What
    is handed to the logger in between is exactly the [R] retry messages,
    one per retry with its number and the error of the previous attempt
    (followed, when the retries are exhausted, by the message that says
    so); without a logger nothing is printed. *)
Theorem RoundTrip_retries rt ort request request' w w1 errs (R : nat) :
  rt_Rt rt = Some ort →
  rt_MaxRetries rt = Z.of_nat R →
  log_request_phase rt (inject_headers rt request) w = (None, request', w1) →
  ((∀ i req st, (i ≤ R)%nat → ort (length (calls w) + i) req st = (None, errs i)) →
   ∃ w',
     RoundTrip rt request w
       = Some ((None,
                Some ("Connection error, retries exhausted. Aborting. "
                      +:+ "Last error was: "
                      +:+ match errs R with Some e => e | None => "%!s(<nil>)" end)),
               request', w')
     ∧ calls w' = (calls w ++ replicate (S R) request')%list
     ∧ out w' = log_lines rt
                  (retry_entries errs 1 R
                   ++ ["Connection error, retries exhausted. Aborting"])
                  (out w1))
  ∧ (∀ resp rerr,
       (∀ i req st, (i < R)%nat → ort (length (calls w) + i) req st = (None, errs i)) →
       (∀ req st, ort (length (calls w) + R) req st = (Some resp, rerr)) →
       ∃ w2,
         streams w2 = streams w1
         ∧ calls w2 = (calls w ++ replicate (S R) request')%list
         ∧ out w2 = log_lines rt (retry_entries errs 1 R) (out w1)
         ∧ length (retry_entries errs 1 R) = R
         ∧ RoundTrip rt request w
           = Some ((Some (log_response_phase rt resp rerr w2).1.1,
                    (log_response_phase rt resp rerr w2).1.2),
                   request',
                   close_body request' (log_response_phase rt resp rerr w2).2)
         ∧ StatusCode (log_response_phase rt resp rerr w2).1.1 = StatusCode resp
         ∧ resp_Header (log_response_phase rt resp rerr w2).1.1 = resp_Header resp).
Proof.
  intros HRt HR Hphase.
  pose proof (log_request_phase_calls _ _ _ _ _ _ Hphase) as Hcalls1.
  split.
  - intros Hfail. unfold RoundTrip. rewrite Hphase, HRt. unfold delegate.
    rewrite Hcalls1.
    pose proof (Hfail 0 request' (streams w1) ltac:(lia)) as H0.
    rewrite Nat.add_0_r in H0. rewrite H0, HR, Nat2Z.id.
    destruct (retry_loop_exhausted rt ort request' errs R (length (calls w)) HR
                R 1 (record_call request' w1))
      as (w' & Hloop & Hst & Hcalls & Hout).
    + lia.
    + lia.
    + cbn [record_call calls]. rewrite length_app, Hcalls1. simpl. lia.
    + intros i req st _ Hi. by apply Hfail.
    + change (Z.of_nat 1) with 1%Z in Hloop. change (1 - 1) with 0 in Hloop.
      rewrite Hloop. eexists. split; [reflexivity|]. split.
      * rewrite close_body_calls, Hcalls. cbn [record_call calls replicate].
        rewrite Hcalls1. by rewrite <- app_assoc.
      * by rewrite close_body_out, Hout.
  - intros resp rerr Hfail Hok. unfold RoundTrip. rewrite Hphase, HRt.
    unfold delegate. rewrite Hcalls1.
    destruct R as [|R'].
    + pose proof (Hok request' (streams w1)) as H0.
      rewrite Nat.add_0_r in H0. rewrite H0, retry_loop_response.
      exists (record_call request' w1).
      destruct (log_response_phase_response rt resp rerr (record_call request' w1))
        as (Hcode & Hhdr & _).
      split; [done|]. split; [|split; [|split; [|split; [|done]]]].
      * cbn [record_call calls replicate]. by rewrite Hcalls1.
      * unfold log_lines. by destruct (rt_Logger rt).
      * done.
      * destruct (log_response_phase rt resp rerr (record_call request' w1))
          as [[resp' err'] w3]. reflexivity.
    + pose proof (Hfail 0 request' (streams w1) ltac:(lia)) as H0.
      rewrite Nat.add_0_r in H0. rewrite H0, HR, Nat2Z.id.
      destruct (retry_loop_succeeds rt ort request' errs (S R') (length (calls w)) HR
                  R' 1 (S R') (record_call request' w1) resp rerr)
        as (w2 & Hloop & Hst & Hcalls & Hout).
      * lia.
      * lia.
      * cbn [record_call calls]. rewrite length_app, Hcalls1. simpl. lia.
      * intros i req st _ Hi. apply Hfail. lia.
      * intros req st. replace (length (calls w) + 1 + R') with (length (calls w) + S R') by lia.
        apply Hok.
      * change (Z.of_nat 1) with 1%Z in Hloop. change (1 - 1) with 0 in Hloop.
        rewrite Hloop. exists w2.
        destruct (log_response_phase_response rt resp rerr w2) as (Hcode & Hhdr & _).
        split; [by rewrite Hst|]. split; [|split; [|split; [|split; [|done]]]].
        -- rewrite Hcalls. cbn [record_call calls replicate].
           rewrite Hcalls1. by rewrite <- app_assoc.
        -- by rewrite Hout.
        -- apply retry_entries_length.
        -- destruct (log_response_phase rt resp rerr w2) as [[resp' err'] w3].
           reflexivity.
Qed.

End RoundTrip.

(** ** The body logger *)

Section BodyLogger.
Context {lib : Library}.

Implicit Types (rt : RoundTripper) (w : World) (s : Stream) (st : list Stream).

Lemma io_Copy_open st src s :
  st !! src = Some s → closed s = false →
  io_Copy st src = ((data s, fail s), <[src := drained s]> st).
Proof. intros H Hc. unfold io_Copy. by rewrite H, Hc. Qed.

Lemma buffered_store_lookup st original s :
  st !! original = Some s →
  buffered_store st original s !! length st = Some (NopCloser (data s))
  ∧ buffered_store st original s !! original = Some (close_stream (drained s))
  ∧ length (buffered_store st original s) = S (length st)
  ∧ (∀ j, j ≠ original → (j < length st)%nat →
       buffered_store st original s !! j = st !! j).
Proof.
  intros H. apply lookup_lt_Some in H as Hlt. unfold buffered_store, Close.
  split; [|split; [|split]].
  - rewrite list_lookup_alter_ne by lia.
    rewrite lookup_app_r by (rewrite length_insert; lia).
    rewrite length_insert. by replace (length st - length st) with 0 by lia.
  - rewrite list_lookup_alter_eq.
    rewrite lookup_app_l by (rewrite length_insert; lia).
    by rewrite list_lookup_insert_eq.
  - rewrite length_alter, length_app, length_insert. simpl. lia.
  - intros j Hj Hjlt. rewrite list_lookup_alter_ne by done.
    rewrite lookup_app_l by (rewrite length_insert; lia).
    by rewrite list_lookup_insert_ne.
Qed.

Lemma logRequest_buffered rt original ct w s :
  streams w !! original = Some s → closed s = false → fail s = None →
  is_json_request ct = true →
  ∃ w',
    logRequest rt original ct w = ((Some (length (streams w)), None), w')
    ∧ streams w' = buffered_store (streams w) original s
    ∧ calls w' = calls w.
Proof.
  intros H Hc Hf Hct. unfold logRequest. rewrite Hct, (io_Copy_open _ _ _ H Hc), Hf.
  destruct (formatJSON rt (data s)) as [debugInfo [e|]];
    (eexists; split;
      [cbn [set_streams req_log set_out streams]; rewrite length_insert; reflexivity
      |split; reflexivity]).
Qed.

Lemma logRequest_read_failure rt original ct w s e :
  streams w !! original = Some s → closed s = false → fail s = Some e →
  is_json_request ct = true →
  logRequest rt original ct w
  = ((None, Some e), set_streams (Close (<[original := drained s]> (streams w)) original) w).
Proof.
  intros H Hc Hf Hct. unfold logRequest.
  by rewrite Hct, (io_Copy_open _ _ _ H Hc), Hf.
Qed.

Lemma logResponse_buffered rt original ct w s :
  streams w !! original = Some s → closed s = false → fail s = None →
  is_json_response ct = true →
  ∃ w',
    logResponse rt original ct w = ((Some (length (streams w)), None), w')
    ∧ streams w' = buffered_store (streams w) original s
    ∧ calls w' = calls w.
Proof.
  intros H Hc Hf Hct. unfold logResponse. rewrite Hct, (io_Copy_open _ _ _ H Hc), Hf.
  destruct (formatJSON rt (data s)) as [debugInfo [e|]];
    destruct (String.eqb debugInfo "");
    (eexists; split;
      [cbn [set_streams resp_log set_out streams]; rewrite length_insert; reflexivity
      |split; reflexivity]).
Qed.

Lemma logResponse_read_failure rt original ct w s e :
  streams w !! original = Some s → closed s = false → fail s = Some e →
  is_json_response ct = true →
  logResponse rt original ct w
  = ((None, Some e), set_streams (Close (<[original := drained s]> (streams w)) original) w).
Proof.
  intros H Hc Hf Hct. unfold logResponse.
  by rewrite Hct, (io_Copy_open _ _ _ H Hc), Hf.
Qed.

Lemma closed_drained_lookup st original s :
  st !! original = Some s →
  Close (<[original := drained s]> st) original !! original
  = Some (close_stream (drained s)).
Proof.
  intros H%lookup_lt_Some. unfold Close.
  by rewrite list_lookup_alter_eq, list_lookup_insert_eq.
Qed.

(** A request body that fails while it is read ends the round trip with
    that error, before the underlying transport is called. *)
Lemma RoundTrip_request_read_failure rt lg request w original s e :
  rt_Logger rt = Some lg →
  req_Body request = Some original →
  streams w !! original = Some s → closed s = false → fail s = Some e →
  is_json_request
    (Header_Get (req_Header (inject_headers rt request)) "Content-Type") = true →
  ∃ request' w',
    RoundTrip rt request w = Some ((None, Some e), request', w')
    ∧ req_Body request' = None
    ∧ calls w' = calls w
    ∧ streams w' !! original = Some (close_stream (drained s)).
Proof.
  intros Hlg Hbody H Hc Hf Hct. unfold RoundTrip, log_request_phase.
  rewrite Hlg.
  assert (req_Body (inject_headers rt request) = Some original) as ->.
  { unfold inject_headers. by destruct (rt_headers rt). }
  rewrite (logRequest_read_failure rt original _ _ s e); [|done..].
  eexists _, _. split; [reflexivity|]. split; [done|]. split; [done|].
  cbn [close_body req_Body set_streams streams req_log set_out].
  by apply closed_drained_lookup.
Qed.

Lemma closed_drained_consumed s : consumed s (close_stream (drained s)).
Proof.
  unfold consumed, close_stream, drained. cbn.
  destruct (nop s); cbn; by split.
Qed.

(** C9.  A body the logger intercepts (a JSON content type) on an open
    stream.  If reading succeeds, [logRequest] and [logResponse] return a
    new stream, open and readable, whose bytes are exactly the bytes of
    the original; the original is left without a byte and closed, and no
    other stream changes.  If reading fails, they return the read error
    and no stream, the original is closed, and [RoundTrip] returns that
    error for a request body without calling the transport. *)
Theorem body_logger_preserves_body rt original ct w s :
  streams w !! original = Some s → closed s = false →
  (is_json_request ct = true →
     match fail s with
     | None =>
         ∃ w' s' s0,
           logRequest rt original ct w = ((Some (length (streams w)), None), w')
           ∧ streams w' !! length (streams w) = Some s'
           ∧ data s' = data s ∧ fail s' = None ∧ closed s' = false
           ∧ streams w' !! original = Some s0
           ∧ data s0 = "" ∧ (nop s = false → closed s0 = true)
           ∧ (∀ j, j ≠ original → (j < length (streams w))%nat →
                streams w' !! j = streams w !! j)
     | Some e =>
         ∃ w' s0,
           logRequest rt original ct w = ((None, Some e), w')
           ∧ streams w' !! original = Some s0
           ∧ (nop s = false → closed s0 = true)
           ∧ ∀ lg request,
               rt_Logger rt = Some lg → req_Body request = Some original →
               Header_Get (req_Header (inject_headers rt request)) "Content-Type" = ct →
               ∃ request' w'',
                 RoundTrip rt request w = Some ((None, Some e), request', w'')
                 ∧ calls w'' = calls w
     end)
  ∧ (is_json_response ct = true →
     match fail s with
     | None =>
         ∃ w' s' s0,
           logResponse rt original ct w = ((Some (length (streams w)), None), w')
           ∧ streams w' !! length (streams w) = Some s'
           ∧ data s' = data s ∧ fail s' = None ∧ closed s' = false
           ∧ streams w' !! original = Some s0
           ∧ data s0 = "" ∧ (nop s = false → closed s0 = true)
           ∧ (∀ j, j ≠ original → (j < length (streams w))%nat →
                streams w' !! j = streams w !! j)
     | Some e =>
         ∃ w' s0,
           logResponse rt original ct w = ((None, Some e), w')
           ∧ streams w' !! original = Some s0
           ∧ (nop s = false → closed s0 = true)
     end).
Proof.
  intros H Hc.
  destruct (closed_drained_consumed s) as [Hempty Hclosed].
  split; intros Hct; destruct (fail s) as [e|] eqn:Hf.
  - eexists _, _. split; [by apply (logRequest_read_failure rt original ct w s e)|].
    split; [by apply closed_drained_lookup|]. split; [done|].
    intros lg request Hlg Hbody Hget.
    destruct (RoundTrip_request_read_failure rt lg request w original s e)
      as (request' & w'' & HRT & _ & Hcalls & _); try done.
    { by rewrite Hget. }
    by exists request', w''.
  - destruct (logRequest_buffered rt original ct w s) as (w' & Hlog & Hst & _);
      try done.
    destruct (buffered_store_lookup (streams w) original s H) as (? & ? & _ & ?).
    exists w', (NopCloser (data s)), (close_stream (drained s)). rewrite Hst. done.
  - eexists _, _. split; [by apply (logResponse_read_failure rt original ct w s e)|].
    split; [by apply closed_drained_lookup|done].
  - destruct (logResponse_buffered rt original ct w s) as (w' & Hlog & Hst & _);
      try done.
    destruct (buffered_store_lookup (streams w) original s H) as (? & ? & _ & ?).
    exists w', (NopCloser (data s)), (close_stream (drained s)). rewrite Hst. done.
Qed.

End BodyLogger.

(** ** Malformed JSON bodies *)

Section Malformed.
Context {lib : Library}.

Implicit Types (rt : RoundTripper) (w : World) (s : Stream).

Lemma FormatJSON_parse_error raw e :
  json.Unmarshal raw = inr e →
  FormatJSON raw = (raw, Some ("unable to parse JSON: " +:+ e)).
Proof. intros H. unfold FormatJSON. by rewrite H. Qed.

(** The calls of the retry loop all hand over the same request. *)
Lemma retry_loop_calls rt ort request fuel :
  ∀ retry response err w res w',
    retry_loop rt ort request fuel retry response err w = Some (res, w') →
    ∃ k, calls w' = (calls w ++ replicate k request)%list.
Proof.
  induction fuel as [|fuel IH]; intros retry [r|] err w res w'; cbn [retry_loop].
  - intros [= <- <-]. exists 0. by rewrite app_nil_r.
  - destruct (rt_MaxRetries rt <? retry)%Z; [|done].
    intros [= <- <-]. exists 0. by rewrite when_logging_calls, app_nil_r.
  - intros [= <- <-]. exists 0. by rewrite app_nil_r.
  - destruct (rt_MaxRetries rt <? retry)%Z.
    + intros [= <- <-]. exists 0. by rewrite when_logging_calls, app_nil_r.
    + unfold delegate. destruct (ort _ _ _) as [response' err'].
      intros H. apply IH in H as [k Hk]. exists (S k).
      rewrite Hk. cbn [record_call calls replicate].
      by rewrite when_logging_calls, <- app_assoc.
Qed.

(** Once the request is logged and a transport is configured, the round
    trip calls it at least once, always with the logged request. *)
Lemma RoundTrip_delegates rt ort request request' w w1 :
  rt_Rt rt = Some ort →
  log_request_phase rt (inject_headers rt request) w = (None, request', w1) →
  ∃ res w' k,
    RoundTrip rt request w = Some (res, request', w')
    ∧ calls w' = (calls w ++ replicate (S k) request')%list.
Proof.
  intros HRt Hphase.
  pose proof (log_request_phase_calls _ _ _ _ _ _ Hphase) as Hcalls1.
  unfold RoundTrip. rewrite Hphase, HRt. unfold delegate.
  destruct (ort _ _ _) as [response err].
  destruct (retry_loop_total rt ort request' (Z.to_nat (rt_MaxRetries rt))
              1 response err (record_call request' w1)) as [[res w2] Hloop]; [lia|].
  rewrite Hloop. apply retry_loop_calls in Hloop as [k Hk].
  cbn [record_call calls] in Hk. rewrite Hcalls1, <- app_assoc in Hk.
  destruct res as [[r e]|e].
  - destruct (log_response_phase rt r e w2) as [[r' e'] w3] eqn:E.
    apply log_response_phase_calls in E.
    eexists _, _, k. split; [reflexivity|].
    by rewrite close_body_calls, E, Hk.
  - eexists _, _, k. split; [reflexivity|]. by rewrite close_body_calls, Hk.
Qed.

(** C7.  For input that [json.Unmarshal] rejects, [FormatJSON] returns
    the input itself with a parse error.  The callers recover: with the
    default formatter, [logRequest] and [logResponse] log the error, log
    the raw text as the body (the response side skips an empty text) and
    return a stream over the raw bytes without error; the round trip then
    goes on to call the transport with that body. *)
Theorem FormatJSON_malformed raw e :
  json.Unmarshal raw = inr e →
  FormatJSON raw = (raw, Some ("unable to parse JSON: " +:+ e))
  ∧ ∀ rt original ct w s,
      rt_FormatJSON rt = None →
      streams w !! original = Some s → closed s = false → fail s = None →
      data s = raw →
      (is_json_request ct = true →
         ∃ w',
           logRequest rt original ct w = ((Some (length (streams w)), None), w')
           ∧ streams w' !! length (streams w) = Some (NopCloser raw)
           ∧ out w' = RequestPrintf (log rt) ("Body: " +:+ raw)
                        (RequestPrintf (log rt) ("unable to parse JSON: " +:+ e) (out w))
           ∧ ∀ lg ort request,
               rt_Logger rt = Some lg → rt_Rt rt = Some ort →
               req_Body request = Some original →
               Header_Get (req_Header (inject_headers rt request)) "Content-Type" = ct →
               ∃ res request' w'' k,
                 RoundTrip rt request w = Some (res, request', w'')
                 ∧ req_Body request' = Some (length (streams w))
                 ∧ calls w'' = (calls w ++ replicate (S k) request')%list)
      ∧ (is_json_response ct = true →
         ∃ w',
           logResponse rt original ct w = ((Some (length (streams w)), None), w')
           ∧ streams w' !! length (streams w) = Some (NopCloser raw)
           ∧ out w' = (if String.eqb raw "" then λ o, o
                       else ResponsePrintf (log rt) ("Body: " +:+ raw))
                        (ResponsePrintf (log rt) ("unable to parse JSON: " +:+ e) (out w))).
Proof.
  intros Hraw. pose proof (FormatJSON_parse_error raw e Hraw) as HF.
  split; [exact HF|].
  intros rt original ct w s Hfmt H Hc Hf Hdata.
  assert (formatJSON rt (data s) = (raw, Some ("unable to parse JSON: " +:+ e))) as HfJ.
  { unfold formatJSON. by rewrite Hfmt, Hdata. }
  destruct (buffered_store_lookup (streams w) original s H) as (Hnew & _).
  rewrite Hdata in Hnew.
  split; intros Hct.
  - assert (logRequest rt original ct w
            = ((Some (length (streams w)), None),
               set_streams (buffered_store (streams w) original s)
                 (req_log rt ("Body: " +:+ raw)
                    (req_log rt ("unable to parse JSON: " +:+ e) w)))) as Hlog.
    { unfold logRequest. rewrite Hct, (io_Copy_open _ _ _ H Hc), Hf, HfJ.
      cbn [set_streams req_log set_out streams]. by rewrite length_insert. }
    eexists. split; [exact Hlog|]. split; [exact Hnew|]. split; [reflexivity|].
    intros lg ort request Hlg HRt Hbody Hget.
    edestruct (RoundTrip_delegates rt ort request) as (res & w'' & k & HRT & Hcalls);
      [exact HRt| |].
    + unfold log_request_phase. rewrite Hlg.
      assert (req_Body (inject_headers rt request) = Some original) as ->.
      { unfold inject_headers. by destruct (rt_headers rt). }
      rewrite Hget.
      assert (∀ a b, logRequest rt original ct (req_log rt a (req_log rt b w))
              = ((Some (length (streams w)), None),
                 set_streams (buffered_store (streams w) original s)
                   (req_log rt ("Body: " +:+ raw)
                      (req_log rt ("unable to parse JSON: " +:+ e)
                         (req_log rt a (req_log rt b w)))))) as ->.
      { intros a b. unfold logRequest.
        cbn [req_log set_out streams].
        rewrite Hct, (io_Copy_open _ _ _ H Hc), Hf, HfJ.
        cbn [set_streams req_log set_out streams]. by rewrite length_insert. }
      reflexivity.
    + exists res. eexists. exists w'', k. split; [exact HRT|]. split; [done|].
      exact Hcalls.
  - assert (logResponse rt original ct w
            = ((Some (length (streams w)), None),
               set_streams (buffered_store (streams w) original s)
                 (if String.eqb raw ""
                  then resp_log rt ("unable to parse JSON: " +:+ e) w
                  else resp_log rt ("Body: " +:+ raw)
                         (resp_log rt ("unable to parse JSON: " +:+ e) w)))) as Hlog.
    { unfold logResponse. rewrite Hct, (io_Copy_open _ _ _ H Hc), Hf, HfJ.
      destruct (String.eqb raw "");
        cbn [set_streams resp_log set_out streams]; by rewrite length_insert. }
    eexists. split; [exact Hlog|]. split; [exact Hnew|].
    by destruct (String.eqb raw "").
Qed.

End Malformed.

(** ** The load harness: the limiter *)

Section Limiter.
Import Harness HarnessInv.

Implicit Types (cfg : Config) (st : State) (sh : Shared) (ws : list WPc).

Lemma in_flight_app ws1 ws2 :
  in_flight (ws1 ++ ws2) = in_flight ws1 + in_flight ws2.
Proof. induction ws1 as [|pc ws1 IH]; simpl; lia. Qed.

Lemma in_flight_insert ws i pc pc' :
  ws !! i = Some pc →
  in_flight (<[i := pc']> ws) + active pc = in_flight ws + active pc'.
Proof.
  revert i. induction ws as [|a ws IH]; intros [|i] H; simplify_eq/=; [lia|].
  specialize (IH i H). lia.
Qed.

(** The guard [s > 0] makes the division safe. *)
Lemma percentage_guarded f s :
  percentage f s = Some (if (0 <? s)%Z then (u64 (100 * f) / s)%Z else 0%Z).
Proof.
  unfold percentage, div64. destruct (Z.ltb_spec 0 s); [|done].
  destruct (Z.eqb_spec s 0); [lia|done].
Qed.

Lemma percentage_percent f s : percentage f s = Some (percent f s).
Proof. unfold percent. by rewrite percentage_guarded. Qed.

Lemma percent_guarded f s :
  percent f s = if (0 <? s)%Z then (u64 (100 * f) / s)%Z else 0%Z.
Proof. unfold percent. by rewrite percentage_guarded. Qed.

(** A statement of [auth] called with a limiter keeps the balance between
    the channel and the worker, and never ends the process. *)
Lemma V2_auth_balance cfg pc sh :
  match V2.auth cfg false pc sh with
  | Next pc' sh' =>
      limiter sh' + active pc = limiter sh + active pc'
      ∧ (limiter sh' <= limiter sh)%nat
  | Blocked => True
  | Exit _ _ | Panic _ => False
  end.
Proof.
  destruct pc; cbn; try done; try lia.
  - by destruct (showErr cfg).
  - destruct (writer sh || negb (readers sh =? 0)%nat); cbn; lia.
  - unfold debug_lines. destruct (debug cfg); cbn; lia.
  - unfold release. destruct (limiter sh); cbn; lia.
Qed.

Lemma V2_reporter_limiter cfg pc sh :
  match V2.reporter cfg pc sh with
  | Next pc' sh' => limiter sh' = limiter sh
  | Blocked => True
  | Exit _ _ | Panic _ => False
  end.
Proof.
  destruct pc; cbn; rewrite ?percentage_percent; cbn; try done.
  - by destruct (showErr cfg).
  - by destruct (writer sh).
Qed.

(** A message logged by a call in progress changes the log alone. *)
Lemma call_log_frame cfg who rsp msg st st' :
  call_log cfg who rsp msg st = Some st' →
  st' = {| shared := log_Print (call_lines cfg rsp msg) (shared st);
           main_pc := main_pc st; workers := workers st;
           reporter_pc := reporter_pc st; status := status st |}.
Proof. unfold call_log. destruct (at_call who st); [|done]. by intros [= <-]. Qed.

Lemma limiter_inv_step cfg l st st' :
  (0 < threads cfg < 2 ^ 63)%Z →
  limiter_inv cfg st →
  step V2.program cfg l st = Some st' →
  limiter_inv cfg st'.
Proof.
  intros Ht (Hrun & Hmain & Hbal & Hcap) Hstep. unfold step in Hstep.
  rewrite Hrun in Hstep. destruct l as [|i|who r| |who rsp msg].
  - unfold main_step in Hstep.
    destruct (main_pc st) as [|pc| |] eqn:Hpc.
    + destruct (Z.eqb_spec (threads cfg) 0); [lia|].
      destruct (Z.leb_spec (2 ^ 63) (threads cfg)); [lia|].
      injection Hstep as <-. unfold limiter_inv. cbn. repeat split; try done.
    + by destruct (Hmain pc).
    + destruct (Z.ltb_spec (Z.of_nat (limiter (shared st))) (threads cfg));
        [|done].
      injection Hstep as <-. unfold limiter_inv. cbn. cbn in Hbal. repeat split; try done; lia.
    + injection Hstep as <-. unfold limiter_inv. cbn. cbn in Hbal. rewrite in_flight_app. cbn. repeat split; try done; lia.
  - unfold work_step in Hstep.
    destruct (workers st !! i) as [pc|] eqn:Hw; [|done].
    pose proof (V2_auth_balance cfg pc (shared st)) as Hb.
    change (auth V2.program) with V2.auth in Hstep.
    destruct (V2.auth cfg false pc (shared st)) as [pc' sh'| | |]; try done.
    injection Hstep as <-. unfold limiter_inv. cbn.
    pose proof (in_flight_insert (workers st) i pc pc' Hw).
    destruct Hb as [Hb1 Hb2]. repeat split; try done; lia.
  - unfold auth_done in Hstep. destruct who as [i|].
    + destruct (workers st !! i) as [pc|] eqn:Hw; [|done].
      destruct pc; try done. injection Hstep as <-. unfold limiter_inv. cbn.
      pose proof (in_flight_insert (workers st) i WCall (returned r) Hw) as Hi.
      assert (active (returned r) = 1) as Ha by (by destruct r).
      cbn in Hi. repeat split; try done; lia.
    + destruct (main_pc st) as [|pc| |] eqn:Hpc; try done.
      by destruct (Hmain pc).
  - unfold report_step in Hstep.
    destruct (reporter_pc st) as [pc|]; [|done].
    pose proof (V2_reporter_limiter cfg pc (shared st)) as Hb.
    change (reporter V2.program) with V2.reporter in Hstep.
    destruct (V2.reporter cfg pc (shared st)) as [pc' sh'| | |]; try done.
    injection Hstep as <-. unfold limiter_inv. cbn.
    repeat split; try done; lia.
  - apply call_log_frame in Hstep as ->. by unfold limiter_inv.
Qed.

Lemma limiter_inv_run cfg sched :
  (0 < threads cfg < 2 ^ 63)%Z →
  ∀ st st',
    limiter_inv cfg st →
    run V2.program cfg sched st = Some st' →
    limiter_inv cfg st'.
Proof.
  intros Ht. induction sched as [|l sched IH]; intros st st' Hinv; cbn [run].
  - by intros [= <-].
  - destruct (step V2.program cfg l st) as [st1|] eqn:Hstep; [|done].
    apply IH. by eapply limiter_inv_step.
Qed.

Lemma limiter_inv_init cfg : (0 < threads cfg < 2 ^ 63)%Z → limiter_inv cfg init.
Proof. intros H. unfold limiter_inv. cbn. repeat split; try done; lia. Qed.

(** With [threads] beyond the range of [int] the only step is the one of
    [main] that panics. *)
Lemma run_out_of_range prog cfg sched st :
  (2 ^ 63 ≤ threads cfg)%Z →
  run prog cfg sched init = Some st →
  (sched = [] ∧ st = init) ∨ (sched = [Main] ∧ st = make_panicked).
Proof.
  intros Ht. destruct sched as [|l sched]; cbn [run]; [intros [= <-]; by left|].
  assert (step prog cfg l init = Some make_panicked ∧ l = Main
          ∨ step prog cfg l init = None) as [[Hstep ->]|Hstep].
  { destruct l as [|i|[i|] r| |[i|] rsp msg]; try (by right).
    left. split; [|done]. unfold step, main_step. cbn.
    destruct (Z.eqb_spec (threads cfg) 0); [lia|].
    by destruct (Z.leb_spec (2 ^ 63) (threads cfg)); [|lia]. }
  - rewrite Hstep. destruct sched as [|l sched]; cbn [run]; [|done].
    intros [= <-]. by right.
  - by rewrite Hstep.
Qed.

(** C3.  In continuous-load mode, after any schedule, the workers that
    were dispatched and have not completed are at most [threads]: with
    the slot [main] may hold they are exactly the elements queued in the
    limiter, whose capacity is [threads]. *)
Theorem in_flight_bounded cfg sched st :
  (0 < threads cfg)%Z →
  run V2.program cfg sched init = Some st →
  in_flight (workers st) + held (main_pc st) = limiter (shared st)
  ∧ (Z.of_nat (limiter (shared st)) ≤ threads cfg)%Z
  ∧ (Z.of_nat (in_flight (workers st)) ≤ threads cfg)%Z.
Proof.
  intros Ht Hrun.
  destruct (Z.lt_ge_cases (threads cfg) (2 ^ 63)) as [Hlt|Hge].
  - destruct (limiter_inv_run cfg sched (conj Ht Hlt) init st
                (limiter_inv_init cfg (conj Ht Hlt)) Hrun)
      as (_ & _ & Hbal & Hcap).
    repeat split; try done. lia.
  - destruct (run_out_of_range _ cfg sched st Hge Hrun) as [[_ ->]|[_ ->]];
      cbn; repeat split; lia.
Qed.

(** In continuous-load mode the later version never exits or panics,
    whatever the authentication calls return and whatever the flags. *)
Lemma V2_never_fatal cfg sched st :
  (0 < threads cfg < 2 ^ 63)%Z →
  run V2.program cfg sched init = Some st →
  status st = Running.
Proof.
  intros Ht Hrun.
  by destruct (limiter_inv_run cfg sched Ht init st (limiter_inv_init cfg Ht) Hrun).
Qed.

End Limiter.

(** ** The load harness: failures *)

Section Failures.
Import Harness HarnessInv.

(** In the earlier version, a failed call of a worker reaches the debug
    prints with the [nil] result when [debug] is set. *)
Lemma V1_auth_failure_debug cfg e sh :
  debug cfg = true → V1.auth cfg false (WFailed2 e) sh = Panic sh.
Proof. intros H. cbn. by rewrite H. Qed.

(** The later version returns after releasing its slot instead. *)
Lemma V2_auth_failure cfg e sh :
  V2.auth cfg false (WFailed2 e) sh
  = if showErr cfg then Next (WLock (errType e)) sh else Next WRelease sh.
Proof. reflexivity. Qed.

(** C4 at the failing input (earlier version, [threads = 1], [debug]
    set): one worker is dispatched, its authentication fails, and the
    process panics. *)
Theorem V1_debug_failure_panics :
  status <$> run V1.program {| threads := 1; debug := true; showErr := false |}
    [Main; Main; Main; Work 0;
     AuthDone (Some 0) (inr (OtherError "Authentication failed" "gophercloud.ErrDefault401"));
     Work 0; Work 0] init
  = Some Panicked.
Proof. reflexivity. Qed.

End Failures.

(** ** The load harness: the counters *)

Section Counters.
Import Harness HarnessInv.
#[local] Open Scope Z_scope.

Implicit Types (cfg : Config) (st : State) (sh : Shared) (n : Z).

Lemma u64_small z : 0 ≤ z < 2 ^ 64 → u64 z = z.
Proof. intros H. unfold u64. by apply Z.mod_small. Qed.

Ltac counters :=
  unfold counters_inv, pending_s, pending_f, AddUint64 in *; cbn in *;
  rewrite ?u64_small by lia; repeat split; try lia.

Lemma counters_inv_weaken n sh rp :
  counters_inv n sh rp → counters_inv (n + 1) sh rp.
Proof. destruct rp as [[]|]; counters. Qed.

Lemma V2_auth_counters cfg nil_limiter pc sh n rp :
  n + 1 < 2 ^ 64 →
  counters_inv n sh rp →
  match V2.auth cfg nil_limiter pc sh with
  | Next _ sh' | Exit _ sh' | Panic sh' => counters_inv (n + 1) sh' rp
  | Blocked => True
  end.
Proof.
  intros Hn Hinv.
  destruct pc; cbn; try done;
    repeat match goal with
      | |- context [if ?b then _ else _] => destruct b
      | |- context [release ?sh] => unfold release; destruct (limiter sh)
      | |- context [debug_lines ?c ?r ?s] => unfold debug_lines
      end; cbn; try done;
    destruct rp as [[]|]; counters.
Qed.

Lemma V2_reporter_counters cfg pc sh n :
  n + 1 < 2 ^ 64 →
  counters_inv n sh (Some pc) →
  match V2.reporter cfg pc sh with
  | Next pc' sh' => counters_inv (n + 1) sh' (Some pc')
  | Blocked => True
  | Exit _ _ | Panic _ => False
  end.
Proof.
  intros Hn Hinv.
  destruct pc; cbn; rewrite ?percentage_percent; cbn; try done;
    repeat match goal with
      | |- context [if ?b then _ else _] => destruct b
      end; cbn; try done; counters.
Qed.

Lemma V1_auth_counters cfg nil_limiter pc sh n rp :
  n + 1 < 2 ^ 64 →
  counters_inv n sh rp →
  match V1.auth cfg nil_limiter pc sh with
  | Next _ sh' | Exit _ sh' | Panic sh' => counters_inv (n + 1) sh' rp
  | Blocked => True
  end.
Proof.
  intros Hn Hinv.
  destruct pc; cbn; try done;
    repeat match goal with
      | |- context [if ?b then _ else _] => destruct b
      | |- context [release ?sh] => unfold release; destruct (limiter sh)
      | |- context [debug_lines ?c ?r ?s] => unfold debug_lines
      end; cbn; try done;
    destruct rp as [[]|]; counters.
Qed.

Lemma V1_reporter_counters cfg pc sh n :
  n + 1 < 2 ^ 64 →
  counters_inv n sh (Some pc) →
  match V1.reporter cfg pc sh with
  | Next pc' sh' => counters_inv (n + 1) sh' (Some pc')
  | Blocked => True
  | Exit _ _ | Panic _ => False
  end.
Proof.
  intros Hn Hinv.
  destruct pc; cbn; rewrite ?percentage_percent; cbn; try done; counters.
Qed.

(** The step of a program whose statements keep the counters in range. *)
Lemma counters_inv_step_of prog cfg l st st' n :
  (∀ nil_limiter pc sh rp,
     counters_inv n sh rp →
     match auth prog cfg nil_limiter pc sh with
     | Next _ sh' | Exit _ sh' | Panic sh' => counters_inv (n + 1) sh' rp
     | Blocked => True
     end) →
  (∀ pc sh,
     counters_inv n sh (Some pc) →
     match reporter prog cfg pc sh with
     | Next pc' sh' => counters_inv (n + 1) sh' (Some pc')
     | Blocked => True
     | Exit _ _ | Panic _ => False
     end) →
  n + 1 < 2 ^ 64 →
  counters_inv n (shared st) (reporter_pc st) →
  step prog cfg l st = Some st' →
  counters_inv (n + 1) (shared st') (reporter_pc st').
Proof.
  intros Hauth Hrep Hn Hinv Hstep. unfold step in Hstep.
  destruct (status st); try done. destruct l as [|i|who r| |who rsp msg].
  - unfold main_step in Hstep.
    destruct (main_pc st) as [|pc| |].
    + destruct (threads cfg =? 0); [|destruct (2 ^ 63 <=? threads cfg)];
        injection Hstep as <-; cbn.
      * by apply counters_inv_weaken.
      * apply counters_inv_weaken. destruct (reporter_pc st) as [[]|]; counters.
      * apply counters_inv_weaken. destruct (reporter_pc st) as [[]|]; counters.
    + pose proof (Hauth true pc (shared st) (reporter_pc st) Hinv) as Hb.
      destruct pc;
        try (destruct (auth prog cfg true _ (shared st)) as [pc' sh'| |code sh'|sh'];
             try done; injection Hstep as <-; exact Hb).
      injection Hstep as <-. by apply counters_inv_weaken.
    + destruct (Z.of_nat (limiter (shared st)) <? threads cfg); [|done].
      injection Hstep as <-. cbn. apply counters_inv_weaken.
      destruct (reporter_pc st) as [[]|]; counters.
    + injection Hstep as <-. by apply counters_inv_weaken.
  - unfold work_step in Hstep.
    destruct (workers st !! i) as [pc|]; [|done].
    pose proof (Hauth false pc (shared st) (reporter_pc st) Hinv) as Hb.
    destruct (auth prog cfg false pc (shared st)) as [pc' sh'| |code sh'|sh'];
      try done; injection Hstep as <-; exact Hb.
  - unfold auth_done in Hstep. destruct who as [i|].
    + destruct (workers st !! i) as [[]|]; try done.
      injection Hstep as <-. by apply counters_inv_weaken.
    + destruct (main_pc st) as [|[]| |]; try done.
      injection Hstep as <-. by apply counters_inv_weaken.
  - unfold report_step in Hstep.
    destruct (reporter_pc st) as [pc|] eqn:Hrp; [|done].
    pose proof (Hrep pc (shared st) Hinv) as Hb.
    destruct (reporter prog cfg pc (shared st)) as [pc' sh'| | |]; try done.
    injection Hstep as <-. exact Hb.
  - apply call_log_frame in Hstep as ->. cbn. by apply counters_inv_weaken.
Qed.

Lemma counters_inv_step_either prog cfg l st st' n :
  prog = V1.program ∨ prog = V2.program →
  n + 1 < 2 ^ 64 →
  counters_inv n (shared st) (reporter_pc st) →
  step prog cfg l st = Some st' →
  counters_inv (n + 1) (shared st') (reporter_pc st').
Proof.
  intros [-> | ->] Hn; apply counters_inv_step_of; try done.
  - intros. by apply V1_auth_counters.
  - intros. by apply V1_reporter_counters.
  - intros. by apply V2_auth_counters.
  - intros. by apply V2_reporter_counters.
Qed.

Lemma counters_inv_step cfg l st st' n :
  n + 1 < 2 ^ 64 →
  counters_inv n (shared st) (reporter_pc st) →
  step V2.program cfg l st = Some st' →
  counters_inv (n + 1) (shared st') (reporter_pc st').
Proof. apply counters_inv_step_either. by right. Qed.

Lemma counters_inv_run_either prog cfg sched :
  prog = V1.program ∨ prog = V2.program →
  ∀ st st' n,
    n + Z.of_nat (length sched) < 2 ^ 64 →
    counters_inv n (shared st) (reporter_pc st) →
    run prog cfg sched st = Some st' →
    counters_inv (n + Z.of_nat (length sched)) (shared st') (reporter_pc st').
Proof.
  intros Hprog.
  induction sched as [|l sched IH]; intros st st' n Hn Hinv; cbn [run].
  - intros [= <-]. cbn. by rewrite Z.add_0_r.
  - destruct (step prog cfg l st) as [st1|] eqn:Hstep; [|done].
    intros Hrun. cbn [length] in *.
    replace (n + Z.of_nat (S (length sched)))
      with ((n + 1) + Z.of_nat (length sched)) by lia.
    apply (IH st1); [lia| |done].
    eapply counters_inv_step_either; [done| |done..]. lia.
Qed.

Lemma counters_inv_run cfg sched :
  ∀ st st' n,
    n + Z.of_nat (length sched) < 2 ^ 64 →
    counters_inv n (shared st) (reporter_pc st) →
    run V2.program cfg sched st = Some st' →
    counters_inv (n + Z.of_nat (length sched)) (shared st') (reporter_pc st').
Proof. apply counters_inv_run_either. by right. Qed.

Lemma counters_inv_init : counters_inv 0 (shared init) (reporter_pc init).
Proof. counters. Qed.

Lemma counters_inv_reachable_either prog cfg sched st :
  prog = V1.program ∨ prog = V2.program →
  Z.of_nat (length sched) < 2 ^ 64 →
  run prog cfg sched init = Some st →
  counters_inv (Z.of_nat (length sched)) (shared st) (reporter_pc st).
Proof.
  intros Hprog Hn Hrun.
  by apply (counters_inv_run_either prog cfg sched Hprog init st 0 Hn
              counters_inv_init Hrun).
Qed.

Lemma counters_inv_reachable cfg sched st :
  Z.of_nat (length sched) < 2 ^ 64 →
  run V2.program cfg sched init = Some st →
  counters_inv (Z.of_nat (length sched)) (shared st) (reporter_pc st).
Proof. apply counters_inv_reachable_either. by right. Qed.

End Counters.

(** ** The load harness: what the reporter observes *)

Section Reporter.
Import Harness HarnessInv.
#[local] Open Scope Z_scope.

Implicit Types (cfg : Config) (st : State) (sh : Shared) (n : Z).

Lemma run_app prog cfg sched1 sched2 st :
  run prog cfg (sched1 ++ sched2) st
  = match run prog cfg sched1 st with
    | Some st1 => run prog cfg sched2 st1
    | None => None
    end.
Proof.
  revert st. induction sched1 as [|l sched1 IH]; intros st; cbn [run app]; [done|].
  by destruct (step prog cfg l st).
Qed.

Lemma V2_auth_totals cfg nil_limiter pc sh :
  match V2.auth cfg nil_limiter pc sh with
  | Next _ sh' | Exit _ sh' | Panic sh' =>
      totalReq sh' = totalReq sh ∧ totalErr sh' = totalErr sh
  | Blocked => True
  end.
Proof.
  destruct pc; cbn; try done;
    repeat match goal with
      | |- context [if ?b then _ else _] => destruct b
      | |- context [release ?sh] => unfold release; destruct (limiter sh)
      | |- context [debug_lines ?c ?r ?s] => unfold debug_lines
      end; cbn; done.
Qed.

Lemma V2_reporter_totals cfg pc sh n :
  n + 1 < 2 ^ 64 →
  counters_inv n sh (Some pc) →
  match V2.reporter cfg pc sh with
  | Next _ sh' => totalReq sh ≤ totalReq sh' ∧ totalErr sh ≤ totalErr sh'
  | Blocked => True
  | Exit _ _ | Panic _ => False
  end.
Proof.
  intros Hn Hinv.
  destruct pc; cbn; rewrite ?percentage_percent; cbn; try done;
    repeat match goal with
      | |- context [if ?b then _ else _] => destruct b
      end; cbn; try done;
    unfold counters_inv, pending_s, pending_f, AddUint64 in *; cbn in *;
    rewrite ?u64_small by lia; lia.
Qed.

Lemma totals_step cfg l st st' n :
  n + 1 < 2 ^ 64 →
  counters_inv n (shared st) (reporter_pc st) →
  step V2.program cfg l st = Some st' →
  totalReq (shared st) ≤ totalReq (shared st')
  ∧ totalErr (shared st) ≤ totalErr (shared st').
Proof.
  intros Hn Hinv Hstep. unfold step in Hstep.
  destruct (status st); try done. destruct l as [|i|who r| |who rsp msg].
  - unfold main_step in Hstep.
    destruct (main_pc st) as [|pc| |].
    + destruct (threads cfg =? 0); [|destruct (2 ^ 63 <=? threads cfg)];
        injection Hstep as <-; cbn; lia.
    + pose proof (V2_auth_totals cfg true pc (shared st)) as Hb.
      change (auth V2.program) with V2.auth in Hstep.
      destruct pc;
        first [ injection Hstep as <-; cbn; lia
              | destruct (V2.auth cfg true _ (shared st)) as [pc' sh'| |code sh'|sh'];
                try done; injection Hstep as <-; cbn; lia ].
    + destruct (Z.of_nat (limiter (shared st)) <? threads cfg); [|done].
      injection Hstep as <-. cbn. lia.
    + injection Hstep as <-. cbn. lia.
  - unfold work_step in Hstep.
    destruct (workers st !! i) as [pc|]; [|done].
    pose proof (V2_auth_totals cfg false pc (shared st)) as Hb.
    change (auth V2.program) with V2.auth in Hstep.
    destruct (V2.auth cfg false pc (shared st)) as [pc' sh'| |code sh'|sh'];
      try done; injection Hstep as <-; cbn; lia.
  - unfold auth_done in Hstep. destruct who as [i|].
    + destruct (workers st !! i) as [[]|]; try done.
      injection Hstep as <-. cbn. lia.
    + destruct (main_pc st) as [|[]| |]; try done.
      injection Hstep as <-. cbn. lia.
  - unfold report_step in Hstep.
    destruct (reporter_pc st) as [pc|] eqn:Hrp; [|done].
    pose proof (V2_reporter_totals cfg pc (shared st) n Hn Hinv) as Hb.
    change (reporter V2.program) with V2.reporter in Hstep.
    destruct (V2.reporter cfg pc (shared st)) as [pc' sh'| | |]; try done.
    injection Hstep as <-. exact Hb.
  - apply call_log_frame in Hstep as ->. cbn. lia.
Qed.

Lemma totals_run cfg sched :
  ∀ st st' n,
    n + Z.of_nat (length sched) < 2 ^ 64 →
    counters_inv n (shared st) (reporter_pc st) →
    run V2.program cfg sched st = Some st' →
    totalReq (shared st) ≤ totalReq (shared st')
    ∧ totalErr (shared st) ≤ totalErr (shared st').
Proof.
  induction sched as [|l sched IH]; intros st st' n Hn Hinv; cbn [run].
  - intros [= <-]. lia.
  - destruct (step V2.program cfg l st) as [st1|] eqn:Hstep; [|done].
    intros Hrun. cbn [length] in *.
    destruct (totals_step cfg l st st1 n) as [H1 H2]; [lia|done|done|].
    destruct (IH st1 st' (n + 1)) as [H3 H4]; [lia| |done|lia].
    eapply counters_inv_step; [|done..]. lia.
Qed.

(** C5, as stated, fails: the window counter is reset by the reporter and
    counts on while the reporter adds and prints, so that it exceeds the
    cumulative total, also at the instant the reporter prints. *)
Lemma window_counter_exceeds_total :
  ¬ (∀ cfg sched st f s tS tF,
       0 < threads cfg →
       run V2.program cfg sched init = Some st →
       reporter_pc st = Some (RAdded2 f s tS tF) →
       ops (shared st) ≤ totalReq (shared st)).
Proof.
  intros H.
  destruct (run V2.program sample_cfg burst_sched init) as [st|] eqn:Hrun;
    [|vm_compute in Hrun; discriminate].
  specialize (H sample_cfg burst_sched st 0 1 1 0 eq_refl Hrun).
  vm_compute in Hrun. injection Hrun as <-.
  specialize (H eq_refl). cbn in H. lia.
Qed.

(** C5, amended.  In an execution of fewer than [2^64] steps (so that no
    64-bit counter has wrapped): whenever the reporter is about to print,
    the cumulative totals [tS], [tF] it prints are the current totals and
    are at least the window values [s], [f] it prints; and the totals at
    any earlier point of the execution are at most the totals now. *)
Theorem totals_dominate_window cfg sched st :
  Z.of_nat (length sched) < 2 ^ 64 →
  run V2.program cfg sched init = Some st →
  (∀ f s tS tF,
     reporter_pc st = Some (RAdded2 f s tS tF) →
     s ≤ tS ∧ f ≤ tF
     ∧ tS = totalReq (shared st) ∧ tF = totalErr (shared st))
  ∧ (∀ before after mid,
       sched = (before ++ after)%list →
       run V2.program cfg before init = Some mid →
       totalReq (shared mid) ≤ totalReq (shared st)
       ∧ totalErr (shared mid) ≤ totalErr (shared st)).
Proof.
  intros Hn Hrun. split.
  - intros f s tS tF Hrp.
    pose proof (counters_inv_reachable cfg sched st Hn Hrun) as Hinv.
    unfold counters_inv in Hinv. rewrite Hrp in Hinv. lia.
  - intros before after mid -> Hbefore.
    rewrite run_app, Hbefore in Hrun. rewrite length_app in Hn.
    apply (totals_run cfg after mid st (Z.of_nat (length before))); [lia| |done].
    apply (counters_inv_reachable cfg before mid); [lia|done].
Qed.

Lemma percent_zero f : percent f 0 = 0.
Proof. reflexivity. Qed.

Lemma percent_exact f s :
  0 ≤ f → 100 * f < 2 ^ 64 → 0 ≤ s →
  percent f s = if s =? 0 then 0 else 100 * f / s.
Proof.
  intros Hf Hb Hs. rewrite percent_guarded.
  destruct (Z.ltb_spec 0 s), (Z.eqb_spec s 0); try lia.
  by rewrite u64_small by lia.
Qed.

(** C10.  In continuous-load mode, in an execution of fewer than
    [2^64 / 100] steps, when the reporter is about to print: its step does
    not panic, the process keeps running, and what it appends to the log
    is the window line (and, in the later version, the cumulative line)
    whose percentage is [100 * failures / attempts] (integer division),
    and [0] when the attempts are [0]. *)
Theorem reporter_percentages cfg sched :
  0 < threads cfg →
  100 * Z.of_nat (length sched) < 2 ^ 64 →
  (∀ st f s tS tF,
     run V2.program cfg sched init = Some st →
     reporter_pc st = Some (RAdded2 f s tS tF) →
     ∃ st',
       step V2.program cfg Report st = Some st'
       ∧ status st' = Running
       ∧ stderr (shared st')
         = (stderr (shared st)
            ++ [ pretty s +:+ " rps, " +:+ pretty f +:+ " failed ("
                 +:+ pretty (if s =? 0 then 0 else 100 * f / s) +:+ "%)";
                 "total " +:+ pretty tS +:+ " rps, " +:+ pretty tF
                 +:+ " failed: "
                 +:+ pretty (if tS =? 0 then 0 else 100 * tF / tS) +:+ "%" ])%list)
  ∧ (∀ st f s,
       run V1.program cfg sched init = Some st →
       status st = Running →
       reporter_pc st = Some (RSwapped2 f s) →
       ∃ st',
         step V1.program cfg Report st = Some st'
         ∧ status st' = Running
         ∧ stderr (shared st')
           = (stderr (shared st)
              ++ [ pretty s +:+ " rps, " +:+ pretty f +:+ " failed ("
                   +:+ pretty (if s =? 0 then 0 else 100 * f / s)
                   +:+ "%)" ])%list).
Proof.
  intros Ht Hn. assert (Z.of_nat (length sched) < 2 ^ 64) as Hn' by lia.
  split.
  - intros st f s tS tF Hrun Hrp.
    assert (status st = Running) as Hst.
    { destruct (Z.lt_ge_cases (threads cfg) (2 ^ 63)) as [Hlt|Hge].
      - by apply (V2_never_fatal cfg sched st (conj Ht Hlt) Hrun).
      - by destruct (run_out_of_range _ cfg sched st Hge Hrun) as [[_ ->]|[_ ->]]. }
    pose proof (counters_inv_reachable cfg sched st Hn' Hrun) as Hinv.
    unfold counters_inv in Hinv. rewrite Hrp in Hinv. cbn in Hinv.
    unfold step, report_step. rewrite Hst, Hrp. cbn [reporter V2.program V2.reporter].
    rewrite !percentage_percent, !percent_exact by lia.
    destruct (showErr cfg); eexists; (split; [reflexivity|]); by cbn.
  - intros st f s Hrun Hst Hrp.
    pose proof (counters_inv_reachable_either V1.program cfg sched st
                  ltac:(by left) Hn' Hrun) as Hinv.
    unfold counters_inv in Hinv. rewrite Hrp in Hinv. cbn in Hinv.
    unfold step, report_step. rewrite Hst, Hrp. cbn [reporter V1.program V1.reporter].
    rewrite !percentage_percent, !percent_exact by lia.
    eexists; (split; [reflexivity|]); by cbn.
Qed.

End Reporter.

(** ** The theorems at sample inputs *)

Section Samples.
#[local] Existing Instance sample_library.
Import Harness HarnessInv.

Lemma RoundTrip_retries_witness :
  (∃ w',
     RoundTrip (sample_rt refusing) (sample_request None) (sample_world "{}")
       = Some ((None,
                Some ("Connection error, retries exhausted. Aborting. "
                      +:+ "Last error was: connection refused")),
               sample_request None, w')
     ∧ calls w' = replicate 3 (sample_request None)
     ∧ out w' = ["-> URL: POST http://keystone/v3/ec2tokens"; "-> Headers:";
                 "-> Content-Type: application/json";
                 "<- Connection error, retry number 1: connection refused";
                 "<- Connection error, retry number 2: connection refused";
                 "<- Connection error, retries exhausted. Aborting"])
  ∧ (∃ w2,
       out w2 = ["-> URL: POST http://keystone/v3/ec2tokens"; "-> Headers:";
                 "-> Content-Type: application/json";
                 "<- Connection error, retry number 1: connection refused";
                 "<- Connection error, retry number 2: connection refused"]
       ∧ calls w2 = replicate 3 (sample_request None)
       ∧ RoundTrip (sample_rt (flaky 2)) (sample_request None) (sample_world "{}")
         = Some ((Some (log_response_phase (sample_rt (flaky 2)) sample_response None w2).1.1,
                  (log_response_phase (sample_rt (flaky 2)) sample_response None w2).1.2),
                 sample_request None,
                 close_body (sample_request None)
                   (log_response_phase (sample_rt (flaky 2)) sample_response None w2).2)
       ∧ StatusCode (log_response_phase (sample_rt (flaky 2)) sample_response None w2).1.1
         = 200%Z).
Proof.
  split.
  - destruct (RoundTrip_retries (sample_rt refusing) refusing (sample_request None)
                (sample_request None) (sample_world "{}")
                (set_out ["-> URL: POST http://keystone/v3/ec2tokens"; "-> Headers:";
                          "-> Content-Type: application/json"] (sample_world "{}"))
                (λ _, Some "connection refused") 2 eq_refl eq_refl)
      as [Hall _]; [vm_compute; reflexivity|].
    destruct Hall as (w' & H1 & H2 & H3); [reflexivity|].
    exists w'. split; [exact H1|]. split; [exact H2|]. rewrite H3. reflexivity.
  - destruct (RoundTrip_retries (sample_rt (flaky 2)) (flaky 2) (sample_request None)
                (sample_request None) (sample_world "{}")
                (set_out ["-> URL: POST http://keystone/v3/ec2tokens"; "-> Headers:";
                          "-> Content-Type: application/json"] (sample_world "{}"))
                (λ _, Some "connection refused") 2 eq_refl eq_refl)
      as [_ Hlast]; [vm_compute; reflexivity|].
    destruct (Hlast sample_response None) as (w2 & _ & H2 & H3 & _ & H5 & H6 & _).
    + intros [|[|i]] req st Hi; [reflexivity|reflexivity|lia].
    + reflexivity.
    + exists w2. split; [rewrite H3; reflexivity|]. split; [exact H2|].
      split; [exact H5|exact H6].
Defined.

Lemma FormatJSON_malformed_witness :
  json.Unmarshal malformed_body = inr "invalid JSON"
  ∧ FormatJSON malformed_body
    = (malformed_body, Some "unable to parse JSON: invalid JSON")
  ∧ ∃ w',
      logRequest (sample_rt refusing) 0 "application/json" (sample_world malformed_body)
        = ((Some 1, None), w')
      ∧ streams w' !! 1 = Some (NopCloser malformed_body)
      ∧ out w' = ["-> unable to parse JSON: invalid JSON";
                  "-> Body: " +:+ malformed_body].
Proof.
  assert (json.Unmarshal malformed_body = inr "invalid JSON") as H
    by (vm_compute; reflexivity).
  destruct (FormatJSON_malformed malformed_body "invalid JSON" H) as [H1 H2].
  destruct (H2 (sample_rt refusing) 0 "application/json" (sample_world malformed_body)
              (sample_stream malformed_body) eq_refl eq_refl eq_refl eq_refl eq_refl)
    as [Hreq _].
  destruct (Hreq eq_refl) as (w' & Hl & Hs & Ho & _).
  split; [exact H|]. split; [exact H1|]. exists w'. repeat split; assumption.
Defined.

Lemma body_logger_preserves_body_witness :
  ∃ w' s' s0,
    logRequest (sample_rt refusing) 0 "application/json" (sample_world "{}")
      = ((Some 1, None), w')
    ∧ streams w' !! 1 = Some s' ∧ data s' = "{}"
    ∧ streams w' !! 0 = Some s0 ∧ data s0 = "" ∧ closed s0 = true.
Proof.
  destruct (body_logger_preserves_body (sample_rt refusing) 0 "application/json"
              (sample_world "{}") (sample_stream "{}") eq_refl eq_refl)
    as [Hreq _].
  destruct (Hreq eq_refl)
    as (w' & s' & s0 & Hl & Hnew & Hd & _ & _ & Hold & He & Hcl & _).
  exists w', s', s0. split; [exact Hl|]. split; [exact Hnew|]. split; [exact Hd|].
  split; [exact Hold|]. split; [exact He|]. exact (Hcl eq_refl).
Defined.

Lemma in_flight_bounded_witness :
  ∃ st,
    run V2.program sample_cfg [Main; Main; Main; Main; Main; Work 0] init = Some st
    ∧ in_flight (workers st) = 2
    ∧ (Z.of_nat (in_flight (workers st)) ≤ 2)%Z.
Proof.
  destruct (run V2.program sample_cfg [Main; Main; Main; Main; Main; Work 0] init)
    as [st|] eqn:Hrun; [|vm_compute in Hrun; discriminate].
  destruct (in_flight_bounded sample_cfg [Main; Main; Main; Main; Main; Work 0] st
              eq_refl Hrun) as (_ & _ & H3).
  exists st. split; [reflexivity|]. split; [|exact H3].
  vm_compute in Hrun. injection Hrun as <-. reflexivity.
Defined.

Lemma totals_dominate_window_witness :
  ∃ st,
    run V2.program sample_cfg sample_sched init = Some st
    ∧ reporter_pc st = Some (RAdded2 1 1 1 1)
    ∧ (1 ≤ 1 ∧ 1 ≤ 1 ∧ 1 = totalReq (shared st) ∧ 1 = totalErr (shared st))%Z.
Proof.
  destruct (run V2.program sample_cfg sample_sched init) as [st|] eqn:Hrun;
    [|vm_compute in Hrun; discriminate].
  destruct (totals_dominate_window sample_cfg sample_sched st eq_refl Hrun)
    as [Hobs _].
  assert (reporter_pc st = Some (RAdded2 1 1 1 1)) as Hrp.
  { vm_compute in Hrun. injection Hrun as <-. reflexivity. }
  exists st. split; [reflexivity|]. split; [exact Hrp|]. exact (Hobs 1 1 1 1 Hrp)%Z.
Defined.

Lemma reporter_percentages_witness :
  (∃ st st',
     run V2.program sample_cfg sample_sched init = Some st
     ∧ reporter_pc st = Some (RAdded2 1 1 1 1)
     ∧ step V2.program sample_cfg Report st = Some st'
     ∧ status st' = Running
     ∧ stderr (shared st')
       = ["1 rps, 1 failed (100%)"; "total 1 rps, 1 failed: 100%"])
  ∧ (∃ st st',
       run V2.program sample_cfg idle_sched init = Some st
       ∧ reporter_pc st = Some (RAdded2 0 0 0 0)
       ∧ step V2.program sample_cfg Report st = Some st'
       ∧ status st' = Running
       ∧ stderr (shared st')
         = ["0 rps, 0 failed (0%)"; "total 0 rps, 0 failed: 0%"])
  ∧ (∃ st st',
       run V1.program sample_cfg earlier_sched init = Some st
       ∧ reporter_pc st = Some (RSwapped2 1 1)
       ∧ step V1.program sample_cfg Report st = Some st'
       ∧ status st' = Running
       ∧ stderr (shared st') = ["1 rps, 1 failed (100%)"]).
Proof.
  split; [|split].
  - destruct (run V2.program sample_cfg sample_sched init) as [st|] eqn:Hrun;
      [|vm_compute in Hrun; discriminate].
    assert (reporter_pc st = Some (RAdded2 1 1 1 1) ∧ stderr (shared st) = [])
      as [Hrp Herr].
    { vm_compute in Hrun. injection Hrun as <-. split; reflexivity. }
    destruct (reporter_percentages sample_cfg sample_sched eq_refl eq_refl)
      as [Hlater _].
    destruct (Hlater st 1 1 1 1 Hrun Hrp)%Z as (st' & H1 & H2 & H3).
    exists st, st'. split; [reflexivity|]. split; [exact Hrp|]. split; [exact H1|].
    split; [exact H2|]. rewrite H3, Herr. reflexivity.
  - destruct (run V2.program sample_cfg idle_sched init) as [st|] eqn:Hrun;
      [|vm_compute in Hrun; discriminate].
    assert (reporter_pc st = Some (RAdded2 0 0 0 0) ∧ stderr (shared st) = [])
      as [Hrp Herr].
    { vm_compute in Hrun. injection Hrun as <-. split; reflexivity. }
    destruct (reporter_percentages sample_cfg idle_sched eq_refl eq_refl)
      as [Hlater _].
    destruct (Hlater st 0 0 0 0 Hrun Hrp)%Z as (st' & H1 & H2 & H3).
    exists st, st'. split; [reflexivity|]. split; [exact Hrp|]. split; [exact H1|].
    split; [exact H2|]. rewrite H3, Herr. reflexivity.
  - destruct (run V1.program sample_cfg earlier_sched init) as [st|] eqn:Hrun;
      [|vm_compute in Hrun; discriminate].
    assert (reporter_pc st = Some (RSwapped2 1 1) ∧ stderr (shared st) = []
            ∧ status st = Running) as (Hrp & Herr & Hst).
    { vm_compute in Hrun. injection Hrun as <-. repeat split; reflexivity. }
    destruct (reporter_percentages sample_cfg earlier_sched eq_refl eq_refl)
      as [_ Hearlier].
    destruct (Hearlier st 1 1 Hrun Hst Hrp)%Z as (st' & H1 & H2 & H3).
    exists st, st'. split; [reflexivity|]. split; [exact Hrp|]. split; [exact H1|].
    split; [exact H2|]. rewrite H3, Herr. reflexivity.
Defined.

End Samples.

(** ** More on header redaction *)

Section HeadersMore.
Context {lib : Library}.

Implicit Types (rt : RoundTripper) (headers : Header).

(** X2.  [formatHeaders] prints one line per header, in increasing
    byte-wise order, joined by the separator. *)
Theorem formatHeaders_sorted_lines rt headers separator :
  formatHeaders rt headers separator
  = strings.Join (formatHeaders_lines rt headers) separator
  ∧ Sorted String.le (formatHeaders_lines rt headers)
  ∧ formatHeaders_lines rt headers ≡ₚ hideSensitiveHeadersData rt headers
  ∧ length (formatHeaders_lines rt headers) = size headers.
Proof.
  split; [reflexivity|]. split; [apply formatHeaders_lines_sorted|].
  split; [apply formatHeaders_lines_perm|].
  rewrite formatHeaders_lines_perm. unfold hideSensitiveHeadersData.
  by rewrite length_fmap, length_map_to_list.
Qed.

(** X3.  Without a configured set, a header whose name is one of the
    default entries up to the case of its letters is printed as
    [name: ***]. *)
Theorem default_headers_masked rt headers name vals entry :
  rt_maskHeaders rt = None →
  entry ∈ defaultSensitiveHeaders →
  strings.ToLower name = strings.ToLower entry →
  headers !! name = Some vals →
  (name +:+ ": ***") ∈ formatHeaders_lines rt headers.
Proof.
  intros Hnone Hin Heq H.
  assert (maskHeaders_of rt = defaultSensitiveHeaders) as Hset.
  { unfold maskHeaders_of. by rewrite Hnone. }
  apply (formatHeaders_masks_lowercase_set rt headers name vals entry);
    rewrite ?Hset; try done.
  apply defaultSensitiveHeaders_lowercase.
Qed.

(** X4.  A header whose lower-cased name is not in the set is printed with
    its values separated by one space; with an empty configured set that is
    every header. *)
Theorem other_headers_printed rt headers name vals :
  headers !! name = Some vals →
  (strings.ToLower name ∉ maskHeaders_of rt →
   (name +:+ ": " +:+ strings.Join vals " ") ∈ formatHeaders_lines rt headers)
  ∧ (name +:+ ": " +:+ strings.Join vals " ")
    ∈ formatHeaders_lines (SetSensitiveHeaders rt []) headers.
Proof.
  intros H. split.
  - intros Hnot. by apply formatHeaders_keeps.
  - apply formatHeaders_keeps; [done|]. cbn. set_solver.
Qed.

(** X5.  The list installed last decides: installing the list returned
    by [GetDefaultSensitiveHeaders] gives the output of a round tripper
    whose list was never set, whatever was installed before; and after
    [SetSensitiveHeaders l] the line of a header is the masked one when
    its lower-cased name is an entry of [l], and the one with its values
    otherwise. *)
Theorem SetSensitiveHeaders_membership rt (l : list string) headers name vals
    separator :
  (rt_maskHeaders rt = None →
   formatHeaders
     (SetSensitiveHeaders (SetSensitiveHeaders rt l) GetDefaultSensitiveHeaders)
     headers separator
   = formatHeaders rt headers separator)
  ∧ (headers !! name = Some vals →
     (if decide (strings.ToLower name ∈ l)
      then name +:+ ": ***"
      else name +:+ ": " +:+ strings.Join vals " ")
     ∈ formatHeaders_lines (SetSensitiveHeaders rt l) headers).
Proof.
  split.
  - intros Hnone.
    unfold formatHeaders, formatHeaders_lines, hideSensitiveHeadersData.
    unfold maskHeaders_of at 2. rewrite Hnone.
    unfold SetSensitiveHeaders, maskHeaders_of, GetDefaultSensitiveHeaders.
    cbn [rt_maskHeaders]. by rewrite list_to_set_elements_L.
  - intros H. destruct (decide (strings.ToLower name ∈ l)) as [Hin|Hin].
    + apply (formatHeaders_masks _ headers name vals H).
      unfold SetSensitiveHeaders, maskHeaders_of. cbn.
      by apply elem_of_list_to_set.
    + apply (formatHeaders_keeps _ headers name vals H).
      unfold SetSensitiveHeaders, maskHeaders_of. cbn.
      by rewrite elem_of_list_to_set.
Qed.

End HeadersMore.

(** ** More on [FormatJSON] *)

Section Unchanged.
Context {lib : Library}.

(** X1.  On a JSON object, [FormatJSON] prints the masked document, in
    which every path that is neither inside a sensitive field nor one of
    its ancestors leads to the value it led to before (or to none if it
    led to none). *)
Theorem FormatJSON_frame raw data p :
  json.Unmarshal raw = inl (JObj data) →
  outside p = true →
  FormatJSON raw = (json.marshal 0 (JObj (mask_data data)), None)
  ∧ jpath p (JObj (mask_data data)) = jpath p (JObj data).
Proof.
  intros Hraw Hp. split; [|by apply mask_data_frame].
  unfold FormatJSON. by rewrite Hraw.
Qed.

End Unchanged.

(** ** The masked fields *)

Section MaskedFields.

Implicit Types (data m v : gmap string JSON).

Lemma mask_data_auth data auth :
  data !! "auth" = Some (JObj auth) →
  mask_data data !! "auth"
  = Some (JObj (with_map "identity"
                  (λ v, with_map "token" (insert "id" mask)
                          (with_map "application_credential" (insert "secret" mask)
                             (with_map "password"
                                (with_map "user" (insert "password" mask)) v)))
                  (with_map "token" (insert "id" mask)
                     (with_map "passwordCredentials" (insert "password" mask) auth)))).
Proof.
  intros H. unfold mask_data, mask_token, mask_credentials.
  rewrite !with_map_lookup_ne by done.
  unfold mask_auth. by erewrite with_map_lookup_eq.
Qed.

(** X6.  The password, token and secret fields under [auth] hold the mask
    token after masking whenever the object that contains them exists,
    also when the field itself was missing: the key is then added. *)
Theorem auth_fields_masked data auth :
  data !! "auth" = Some (JObj auth) →
  (∀ pc, auth !! "passwordCredentials" = Some (JObj pc) →
     jpath ["auth"; "passwordCredentials"; "password"] (JObj (mask_data data))
     = Some mask)
  ∧ (∀ t, auth !! "token" = Some (JObj t) →
       jpath ["auth"; "token"; "id"] (JObj (mask_data data)) = Some mask)
  ∧ (∀ idn,
       auth !! "identity" = Some (JObj idn) →
       (∀ pw u, idn !! "password" = Some (JObj pw) → pw !! "user" = Some (JObj u) →
          jpath ["auth"; "identity"; "password"; "user"; "password"]
            (JObj (mask_data data)) = Some mask)
       ∧ (∀ ac, idn !! "application_credential" = Some (JObj ac) →
            jpath ["auth"; "identity"; "application_credential"; "secret"]
              (JObj (mask_data data)) = Some mask)
       ∧ (∀ t, idn !! "token" = Some (JObj t) →
            jpath ["auth"; "identity"; "token"; "id"] (JObj (mask_data data))
            = Some mask)).
Proof.
  intros H. pose proof (mask_data_auth data auth H) as Ha.
  split; [|split].
  - intros pc Hpc. cbn [jpath]. rewrite Ha.
    rewrite !with_map_lookup_ne by done.
    erewrite with_map_lookup_eq by done. by rewrite lookup_insert_eq.
  - intros t Ht. cbn [jpath]. rewrite Ha.
    rewrite with_map_lookup_ne by done.
    erewrite with_map_lookup_eq by (by rewrite with_map_lookup_ne).
    by rewrite lookup_insert_eq.
  - intros idn Hidn.
    assert (with_map "token" (insert "id" mask)
              (with_map "passwordCredentials" (insert "password" mask) auth)
            !! "identity" = Some (JObj idn)) as Hi
      by (by rewrite !with_map_lookup_ne).
    split; [|split].
    + intros pw u Hpw Hu. cbn [jpath]. rewrite Ha.
      erewrite with_map_lookup_eq by exact Hi.
      rewrite !with_map_lookup_ne by done.
      erewrite with_map_lookup_eq by done.
      erewrite with_map_lookup_eq by done. by rewrite lookup_insert_eq.
    + intros ac Hac. cbn [jpath]. rewrite Ha.
      erewrite with_map_lookup_eq by exact Hi.
      rewrite with_map_lookup_ne by done.
      erewrite with_map_lookup_eq by (by rewrite with_map_lookup_ne).
      by rewrite lookup_insert_eq.
    + intros t Ht. cbn [jpath]. rewrite Ha.
      erewrite with_map_lookup_eq by exact Hi.
      erewrite with_map_lookup_eq by (by rewrite !with_map_lookup_ne).
      by rewrite lookup_insert_eq.
Qed.

(** X7.  [credentials.access], [credentials.body_hash] and [token.catalog]
    are replaced by the mask token when present, whatever their value, and
    stay absent when absent. *)
Theorem present_fields_masked data :
  (∀ v, data !! "credentials" = Some (JObj v) →
     jpath ["credentials"; "access"] (JObj (mask_data data))
     = (λ _, mask) <$> v !! "access"
     ∧ jpath ["credentials"; "body_hash"] (JObj (mask_data data))
       = (λ _, mask) <$> v !! "body_hash")
  ∧ (∀ t, data !! "token" = Some (JObj t) →
       jpath ["token"; "catalog"] (JObj (mask_data data))
       = (λ _, mask) <$> t !! "catalog").
Proof.
  split.
  - intros v Hv. rewrite !(jpath_credentials data v _ Hv). cbn [jpath].
    rewrite !with_map_lookup_ne by done.
    rewrite mask_if_present_lookup_ne by done.
    rewrite !mask_if_present_lookup_eq.
    rewrite mask_if_present_lookup_ne by done.
    split; by case_match.
  - intros t Ht. cbn [jpath]. unfold mask_data, mask_token.
    erewrite with_map_lookup_eq.
    + rewrite mask_if_present_lookup_eq. by case_match.
    + unfold mask_credentials, mask_auth. by rewrite !with_map_lookup_ne.
Qed.

End MaskedFields.

(** ** The loggers *)

Section Loggers.

Lemma append_cons c a b : String c a +:+ b = String c (a +:+ b).
Proof. reflexivity. Qed.

Lemma append_nil_r a : a +:+ EmptyString = a.
Proof. induction a as [|c a IH]; [done|]. by rewrite append_cons, IH. Qed.

Lemma append_assoc a b c : (a +:+ b) +:+ c = a +:+ (b +:+ c).
Proof. induction a as [|x a IH]; [done|]. by rewrite !append_cons, IH. Qed.

Lemma rev_app_append s1 s2 : String.rev_app s1 s2 = String.rev s1 +:+ s2.
Proof.
  unfold String.rev. revert s2.
  induction s1 as [|c s1 IH]; intros s2; cbn [String.rev_app]; [done|].
  rewrite (IH (String c s2)), (IH (String c EmptyString)).
  by rewrite append_assoc.
Qed.

Lemma rev_cons c cur : String.rev (String c cur) = String.rev cur +:+ String c EmptyString.
Proof. unfold String.rev at 1. cbn [String.rev_app]. apply rev_app_append. Qed.

Lemma SplitLines_go_nonempty cur s : strings.SplitLines_go cur s ≠ [].
Proof.
  revert cur. induction s as [|c s IH]; intros cur; cbn; [done|].
  destruct (Ascii.eqb c "010"); [done|apply IH].
Qed.

Lemma Join_cons x rest sep :
  rest ≠ [] → strings.Join (x :: rest) sep = x +:+ sep +:+ strings.Join rest sep.
Proof. by destruct rest. Qed.

Lemma SplitLines_go_join cur s :
  strings.Join (strings.SplitLines_go cur s) newline = String.rev cur +:+ s.
Proof.
  revert cur. induction s as [|c s IH]; intros cur; cbn [strings.SplitLines_go].
  - cbn. by rewrite append_nil_r.
  - destruct (Ascii.eqb_spec c "010") as [->|Hne].
    + rewrite Join_cons by apply SplitLines_go_nonempty. by rewrite IH.
    + rewrite IH, rev_cons. by rewrite append_assoc.
Qed.

Lemma SplitLines_go_length cur s :
  length (strings.SplitLines_go cur s) = S (count_byte "010" s).
Proof.
  revert cur. induction s as [|c s IH]; intros cur; cbn; [done|].
  destruct (Ascii.eqb c "010"); cbn; by rewrite IH.
Qed.

Lemma SplitLines_go_no_newline cur s :
  count_byte "010" cur = 0 →
  Forall (λ l, count_byte "010" l = 0) (strings.SplitLines_go cur s).
Proof.
  assert (∀ a b, count_byte "010" (a +:+ b) = count_byte "010" a + count_byte "010" b)
    as Happ.
  { intros a b. induction a as [|x a IH]; [done|].
    rewrite append_cons. cbn [count_byte]. rewrite IH. lia. }
  assert (∀ a, count_byte "010" (String.rev a) = count_byte "010" a) as Hrev.
  { intros a. induction a as [|x a IH]; [done|].
    rewrite rev_cons, Happ, IH. cbn. lia. }
  revert cur. induction s as [|c s IH]; intros cur Hcur; cbn.
  - constructor; [by rewrite Hrev|constructor].
  - destruct (Ascii.eqb c "010") eqn:E.
    + constructor; [by rewrite Hrev|]. by apply IH.
    + apply IH. cbn. by rewrite E.
Qed.

(** X8.  [Logger] appends to the output one line per line of the
    message, each with the prefix of its direction and none containing a
    line feed; the lines joined by line feeds are the message.  The no-op
    logger writes nothing. *)
Theorem Logger_lines msg o :
  RequestPrintf Logger msg o
  = (o ++ ((λ v, "-> " +:+ v) <$> strings.SplitLines msg))%list
  ∧ ResponsePrintf Logger msg o
    = (o ++ ((λ v, "<- " +:+ v) <$> strings.SplitLines msg))%list
  ∧ length (strings.SplitLines msg) = S (count_byte "010" msg)
  ∧ Forall (λ l, count_byte "010" l = 0) (strings.SplitLines msg)
  ∧ strings.Join (strings.SplitLines msg) newline = msg
  ∧ RequestPrintf noopLogger msg o = o
  ∧ ResponsePrintf noopLogger msg o = o.
Proof.
  repeat split.
  - apply SplitLines_go_length.
  - by apply SplitLines_go_no_newline.
  - unfold strings.SplitLines. by rewrite SplitLines_go_join.
Qed.

End Loggers.

(** ** Configured headers *)

Section ConfiguredHeaders.

(** X9.  The headers installed with [SetHeaders] replace the values of the
    request headers of the same name and leave the other headers, the
    method, the URL and the body as they are. *)
Theorem SetHeaders_overrides rt (h : Header) request k :
  req_Header (inject_headers (SetHeaders rt h) request) !! k
  = match h !! k with
    | Some v => Some v
    | None => req_Header request !! k
    end
  ∧ Method (inject_headers (SetHeaders rt h) request) = Method request
  ∧ URL (inject_headers (SetHeaders rt h) request) = URL request
  ∧ req_Body (inject_headers (SetHeaders rt h) request) = req_Body request.
Proof.
  unfold inject_headers, SetHeaders. cbn. repeat split.
  destruct (h !! k) as [v|] eqn:E.
  - by apply lookup_union_Some_l.
  - by rewrite lookup_union_r.
Qed.

End ConfiguredHeaders.

(** ** More on [RoundTrip] *)

Section RoundTripMore.
Context {lib : Library}.

Implicit Types (rt : RoundTripper) (w : World) (request : Request).

Lemma retry_loop_frame rt ort request fuel :
  ∀ retry response err w res w',
    retry_loop rt ort request fuel retry response err w = Some (res, w') →
    streams w' = streams w
    ∧ (rt_Logger rt = None → out w' = out w)
    ∧ ∃ k, (k <= fuel)%nat ∧ calls w' = (calls w ++ replicate k request)%list.
Proof.
  assert (∀ msg w, rt_Logger rt = None → out (when_logging rt msg w) = out w) as Hout.
  { intros msg w H. unfold when_logging. by rewrite H. }
  induction fuel as [|fuel IH]; intros retry [r|] err w res w'; cbn [retry_loop].
  - intros [= <- <-]. repeat split. exists 0. by rewrite app_nil_r.
  - destruct (rt_MaxRetries rt <? retry)%Z; [|done].
    intros [= <- <-]. rewrite when_logging_streams, when_logging_calls.
    split; [done|]. split; [by apply Hout|]. exists 0. by rewrite app_nil_r.
  - intros [= <- <-]. repeat split. exists 0. split; [lia|]. by rewrite app_nil_r.
  - destruct (rt_MaxRetries rt <? retry)%Z.
    + intros [= <- <-]. rewrite when_logging_streams, when_logging_calls.
      split; [done|]. split; [by apply Hout|].
      exists 0. split; [lia|]. by rewrite app_nil_r.
    + unfold delegate. destruct (ort _ _ _) as [response' err'].
      intros H. apply IH in H as (Hst & Ho & k & Hk & Hcalls).
      cbn [record_call streams out calls] in *.
      rewrite when_logging_streams in Hst. rewrite when_logging_calls in Hcalls.
      split; [done|]. split.
      * intros Hnone. rewrite (Ho Hnone). by apply Hout.
      * exists (S k). split; [lia|]. rewrite Hcalls. cbn [replicate].
        by rewrite <- app_assoc.
Qed.

Lemma log_request_phase_request rt request w err request' w' :
  log_request_phase rt request w = (err, request', w') →
  Method request' = Method request ∧ URL request' = URL request
  ∧ req_Header request' = req_Header request
  ∧ (rt_Logger rt = None → request' = request ∧ w' = w ∧ err = None).
Proof.
  unfold log_request_phase. destruct (rt_Logger rt); [|by intros [= <- <- <-]].
  destruct (req_Body request) as [body|]; [|by intros [= <- <- <-]].
  destruct (logRequest _ _ _ _) as [[body' e] w1]. by intros [= <- <- <-].
Qed.

(** X10.  [RoundTrip] returns for every transport, and it hands the same
    request (the incoming one, with the configured headers set) to the
    underlying transport at most [MaxRetries + 1] times, once if
    [MaxRetries] is not positive. *)
Theorem RoundTrip_bounded_attempts rt request w :
  ∃ res request' w' k,
    RoundTrip rt request w = Some (res, request', w')
    ∧ calls w' = (calls w ++ replicate k request')%list
    ∧ (k <= 1 + Z.to_nat (rt_MaxRetries rt))%nat
    ∧ Method request' = Method request ∧ URL request' = URL request
    ∧ req_Header request' = req_Header (inject_headers rt request).
Proof.
  unfold RoundTrip.
  destruct (log_request_phase rt (inject_headers rt request) w)
    as [[err request'] w1] eqn:Hphase.
  pose proof (log_request_phase_calls _ _ _ _ _ _ Hphase) as Hcalls1.
  destruct (log_request_phase_request _ _ _ _ _ _ Hphase) as (Hm & Hu & Hh & _).
  assert (Method (inject_headers rt request) = Method request
          ∧ URL (inject_headers rt request) = URL request) as [Hm' Hu'].
  { unfold inject_headers. by destruct (rt_headers rt). }
  rewrite Hm' in Hm. rewrite Hu' in Hu.
  destruct err as [e|].
  { eexists _, _, _, 0. split; [reflexivity|].
    rewrite close_body_calls, Hcalls1, app_nil_r. repeat split; try done. lia. }
  destruct (rt_Rt rt) as [ort|].
  2:{ eexists _, _, _, 0. split; [reflexivity|].
      rewrite close_body_calls, Hcalls1, app_nil_r. repeat split; try done. lia. }
  unfold delegate. destruct (ort _ _ _) as [response err].
  destruct (retry_loop_total rt ort request' (Z.to_nat (rt_MaxRetries rt))
              1 response err (record_call request' w1)) as [[res w2] Hloop]; [lia|].
  rewrite Hloop. apply retry_loop_frame in Hloop as (_ & _ & k & Hk & Hc).
  cbn [record_call calls] in Hc. rewrite Hcalls1, <- app_assoc in Hc.
  destruct res as [[r e]|e].
  - destruct (log_response_phase rt r e w2) as [[r' e'] w3] eqn:E.
    apply log_response_phase_calls in E.
    eexists _, _, _, (S k). split; [reflexivity|].
    rewrite close_body_calls, E, Hc. repeat split; try done. lia.
  - eexists _, _, _, (S k). split; [reflexivity|].
    rewrite close_body_calls, Hc. repeat split; try done. lia.
Qed.

(** X11.  Without an underlying transport the round trip fails without a
    response; once the request is logged, the error is the one that names
    the missing transport. *)
Theorem RoundTrip_nil_transport rt request w :
  rt_Rt rt = None →
  ∃ e request' w',
    RoundTrip rt request w = Some ((None, Some e), request', w')
    ∧ calls w' = calls w
    ∧ ((log_request_phase rt (inject_headers rt request) w).1.1 = None →
       e = "Rt RoundTripper is nil, aborting").
Proof.
  intros HRt. unfold RoundTrip.
  destruct (log_request_phase rt (inject_headers rt request) w)
    as [[err request'] w1] eqn:Hphase.
  pose proof (log_request_phase_calls _ _ _ _ _ _ Hphase) as Hcalls1.
  rewrite HRt. destruct err as [e|].
  - eexists _, _, _. split; [reflexivity|]. by rewrite close_body_calls.
  - eexists _, _, _. split; [reflexivity|]. by rewrite close_body_calls.
Qed.

(** The response with which the loop ends is the one it was entered
    with, or the one of a later call of the transport. *)
Lemma retry_loop_source rt ort request fuel :
  ∀ retry response err w r e w',
    retry_loop rt ort request fuel retry response err w = Some (inl (r, e), w') →
    (response = Some r ∧ err = e)
    ∨ ∃ k, (k < fuel)%nat
           ∧ ort (length (calls w) + k) request (streams w) = (Some r, e).
Proof.
  induction fuel as [|fuel IH]; intros retry [r0|] err w r e w'; cbn [retry_loop].
  - intros [= <- <- <-]. by left.
  - by destruct (rt_MaxRetries rt <? retry)%Z.
  - intros [= <- <- <-]. by left.
  - destruct (rt_MaxRetries rt <? retry)%Z; [done|].
    unfold delegate. rewrite when_logging_calls, when_logging_streams.
    destruct (ort _ _ _) as [response' err'] eqn:Hort.
    intros H. apply IH in H as [[-> ->]|(k & Hk & H)].
    + right. exists 0. split; [lia|]. by rewrite Nat.add_0_r.
    + right. exists (S k). split; [lia|].
      cbn [record_call calls streams] in H.
      rewrite length_app, when_logging_calls, when_logging_streams in H.
      cbn [length] in H. by replace (length (calls w) + S k)
                              with (length (calls w) + 1 + k) by lia.
Qed.

(** X12.  With a [nil] logger nothing is printed, no body is buffered
    (the request keeps its body stream) and the streams change only by the
    final close of the request body; a response that is returned is the
    one the transport gave at one of its at most [MaxRetries + 1] calls,
    with its status, headers and body, together with the error the
    transport gave with it. *)
Theorem RoundTrip_without_logger rt request w res request' w' :
  rt_Logger rt = None →
  RoundTrip rt request w = Some (res, request', w') →
  out w' = out w
  ∧ request' = inject_headers rt request
  ∧ streams w' = streams (close_body request w)
  ∧ (∀ resp, res.1 = Some resp →
       ∃ ort (r : Response nat) k,
         rt_Rt rt = Some ort
         ∧ (k <= Z.to_nat (rt_MaxRetries rt))%nat
         ∧ ort (length (calls w) + k) request' (streams w) = (Some r, res.2)
         ∧ resp = {| StatusCode := StatusCode r; resp_Header := resp_Header r;
                     resp_Body := Some (resp_Body r) |}).
Proof.
  intros Hlg. unfold RoundTrip.
  destruct (log_request_phase rt (inject_headers rt request) w)
    as [[err request1] w1] eqn:Hphase.
  destruct (log_request_phase_request _ _ _ _ _ _ Hphase) as (_ & _ & _ & Hsame).
  destruct (Hsame Hlg) as (-> & -> & ->).
  assert (req_Body (inject_headers rt request) = req_Body request) as Hb.
  { unfold inject_headers. by destruct (rt_headers rt). }
  assert (∀ w0, streams (close_body (inject_headers rt request) w0)
                = streams (close_body request w0)) as Hcb.
  { intros w0. unfold close_body. by rewrite Hb. }
  assert (∀ w0 w1, streams w0 = streams w1 →
            streams (close_body request w0) = streams (close_body request w1)) as Hcs.
  { intros w0 w2 H. unfold close_body. destruct (req_Body request); cbn; by rewrite ?H. }
  destruct (rt_Rt rt) as [ort|].
  2:{ intros [= <- <- <-]. rewrite close_body_out, Hcb. by repeat split. }
  unfold delegate. destruct (ort _ _ _) as [response err] eqn:Hort.
  destruct (retry_loop _ _ _ _ _ _ _ _) as [[[[r e]|e] w2]|] eqn:Hloop; [| |done].
  - pose proof (retry_loop_source _ _ _ _ _ _ _ _ _ _ _ Hloop) as Hsrc.
    apply retry_loop_frame in Hloop as (Hst & Ho & _).
    destruct (log_response_phase_response rt r e w2) as (_ & _ & Hresp).
    rewrite (Hresp Hlg). intros [= <- <- <-].
    rewrite close_body_out, Hcb, (Ho Hlg). split; [done|]. split; [done|].
    split; [by apply Hcs|]. intros resp [= <-]. exists ort, r.
    destruct Hsrc as [[-> ->]|(k & Hk & Hk')].
    + exists 0. split; [done|]. split; [lia|]. split; [|done].
      by rewrite Nat.add_0_r.
    + exists (S k). split; [done|]. split; [lia|]. split; [|done].
      cbn [record_call calls streams] in Hk'. rewrite length_app in Hk'.
      cbn [length] in Hk'. by replace (length (calls w) + S k)
                               with (length (calls w) + 1 + k) by lia.
  - apply retry_loop_frame in Hloop as (Hst & Ho & _).
    intros [= <- <- <-]. rewrite close_body_out, Hcb, (Ho Hlg).
    split; [done|]. split; [done|]. split; [by apply Hcs|]. by intros resp [=].
Qed.

End RoundTripMore.

(** ** The request body is released *)

Section Release.
Context {lib : Library}.

Implicit Types (rt : RoundTripper) (w : World) (st : list Stream) (b : nat).

Lemma store_grows_refl st : store_grows st st.
Proof. by intros b. Qed.

Lemma store_grows_trans st1 st2 st3 :
  store_grows st1 st2 → store_grows st2 st3 → store_grows st1 st3.
Proof.
  intros H1 H2 b. destruct (H1 b) as [Ha Hb], (H2 b) as [Hc Hd]. split; auto.
Qed.

Lemma close_stream_closed s :
  nop s = false → nop (close_stream s) = false ∧ closed (close_stream s) = true.
Proof. intros H. unfold close_stream. by rewrite H. Qed.

Lemma store_grows_Close st b' : store_grows st (Close st b').
Proof.
  intros b. unfold Close. split.
  - intros (s & Hs & Hn). destruct (decide (b' = b)) as [->|Hne].
    + exists (close_stream s). rewrite list_lookup_alter_eq, Hs.
      split; [done|]. by apply close_stream_closed.
    + exists s. by rewrite list_lookup_alter_ne.
  - intros (s & Hs & Hn & Hc). destruct (decide (b' = b)) as [->|Hne].
    + exists (close_stream s). rewrite list_lookup_alter_eq, Hs.
      split; [done|]. by apply close_stream_closed.
    + exists s. by rewrite list_lookup_alter_ne.
Qed.

Lemma Close_is_closed st b : closable st b → is_closed (Close st b) b.
Proof.
  intros (s & Hs & Hn). exists (close_stream s). unfold Close.
  rewrite list_lookup_alter_eq, Hs. split; [done|]. by apply close_stream_closed.
Qed.

Lemma store_grows_io_Copy st src : store_grows st (io_Copy st src).2.
Proof.
  unfold io_Copy. destruct (st !! src) as [s0|] eqn:Hsrc; [|apply store_grows_refl].
  destruct (closed s0) eqn:Hc0; [apply store_grows_refl|]. cbn.
  apply lookup_lt_Some in Hsrc as Hlt.
  intros b. split.
  - intros (s & Hs & Hn). destruct (decide (src = b)) as [->|Hne].
    + eexists. rewrite list_lookup_insert_eq by done. split; [done|]. cbn.
      by simplify_eq.
    + exists s. by rewrite list_lookup_insert_ne.
  - intros (s & Hs & Hn & Hc). destruct (decide (src = b)) as [->|Hne].
    + simplify_eq. congruence.
    + exists s. by rewrite list_lookup_insert_ne.
Qed.

Lemma store_grows_app st extra : store_grows st (st ++ extra).
Proof.
  intros b. split.
  - intros (s & Hs & Hn). exists s. split; [|done].
    rewrite lookup_app_l; [done|]. by eapply lookup_lt_Some.
  - intros (s & Hs & Hn). exists s. split; [|done].
    rewrite lookup_app_l; [done|]. by eapply lookup_lt_Some.
Qed.

(** Buffering a body: drain, close, append the copy. *)
Lemma store_grows_buffer st original bs :
  store_grows st (Close ((io_Copy st original).2 ++ [NopCloser bs]) original)
  ∧ store_grows st (Close (io_Copy st original).2 original)
  ∧ (closable st original →
     is_closed (Close ((io_Copy st original).2 ++ [NopCloser bs]) original) original
     ∧ is_closed (Close (io_Copy st original).2 original) original).
Proof.
  pose proof (store_grows_io_Copy st original) as H1.
  split; [|split].
  - eapply store_grows_trans; [exact H1|].
    eapply store_grows_trans; [apply store_grows_app|apply store_grows_Close].
  - eapply store_grows_trans; [exact H1|apply store_grows_Close].
  - intros Hc. split; apply Close_is_closed.
    + by apply store_grows_app, H1.
    + by apply H1.
Qed.

Lemma logRequest_store rt original ct w body' err w' :
  logRequest rt original ct w = ((body', err), w') →
  store_grows (streams w) (streams w')
  ∧ (closable (streams w) original →
     is_closed (streams w') original ∨ body' = Some original).
Proof.
  unfold logRequest. destruct (is_json_request ct).
  2:{ intros [= <- <- <-]. split; [apply store_grows_refl|by right]. }
  destruct (store_grows_buffer (streams w) original
              (io_Copy (streams w) original).1.1) as (H1 & H2 & H3).
  destruct (io_Copy (streams w) original) as [[bs [e|]] st] eqn:E; cbn in *.
  - intros [= <- <- <-]. split; [exact H2|]. intros Hc. left. by apply H3.
  - destruct (formatJSON rt bs) as [debugInfo [e|]]; intros [= <- <- <-];
      (split; [exact H1|]; intros Hc; left; by apply H3).
Qed.

Lemma logResponse_store rt original ct w body' err w' :
  logResponse rt original ct w = ((body', err), w') →
  store_grows (streams w) (streams w').
Proof.
  unfold logResponse. destruct (is_json_response ct).
  2:{ intros [= <- <- <-]. apply store_grows_refl. }
  destruct (store_grows_buffer (streams w) original
              (io_Copy (streams w) original).1.1) as (H1 & H2 & H3).
  destruct (io_Copy (streams w) original) as [[bs [e|]] st] eqn:E; cbn in *.
  - by intros [= <- <- <-].
  - destruct (formatJSON rt bs) as [debugInfo [e|]];
      destruct (String.eqb debugInfo ""); by intros [= <- <- <-].
Qed.

Lemma log_request_phase_store rt request w err request' w' :
  log_request_phase rt request w = (err, request', w') →
  store_grows (streams w) (streams w')
  ∧ (∀ b, req_Body request = Some b → closable (streams w) b →
       is_closed (streams w') b ∨ req_Body request' = Some b).
Proof.
  unfold log_request_phase. destruct (rt_Logger rt).
  2:{ intros [= <- <- <-]. split; [apply store_grows_refl|]. by right. }
  destruct (req_Body request) as [body|] eqn:Hb.
  2:{ intros [= <- <- <-]. split; [apply store_grows_refl|]. by intros. }
  destruct (logRequest _ _ _ _) as [[body' e] w1] eqn:E.
  intros [= <- <- <-]. apply logRequest_store in E as [H1 H2].
  split; [exact H1|]. intros b [= <-] Hc. exact (H2 Hc).
Qed.

Lemma log_response_phase_store rt resp err w res w' :
  log_response_phase rt resp err w = (res, w') →
  store_grows (streams w) (streams w').
Proof.
  unfold log_response_phase. destruct (rt_Logger rt).
  2:{ intros [= <- <-]. apply store_grows_refl. }
  destruct (logResponse _ _ _ _) as [[body' e] w1] eqn:E.
  intros [= <- <-]. by apply logResponse_store in E.
Qed.

Lemma close_body_store request w :
  store_grows (streams w) (streams (close_body request w))
  ∧ (∀ b, req_Body request = Some b → closable (streams w) b →
       is_closed (streams (close_body request w)) b).
Proof.
  unfold close_body. destruct (req_Body request) as [body|]; cbn.
  - split; [apply store_grows_Close|]. intros b [= <-]. apply Close_is_closed.
  - split; [apply store_grows_refl|]. by intros.
Qed.

(** X13.  Whatever the outcome of the round trip, the body stream of the
    request is closed when [RoundTrip] returns (a body that is a no-op
    closer apart), and no stream that was closed is open again. *)
Theorem RoundTrip_closes_request_body rt request w b res request' w' :
  req_Body request = Some b →
  closable (streams w) b →
  RoundTrip rt request w = Some (res, request', w') →
  is_closed (streams w') b ∧ store_grows (streams w) (streams w').
Proof.
  intros Hb Hc. unfold RoundTrip.
  assert (req_Body (inject_headers rt request) = Some b) as Hb'.
  { unfold inject_headers. by destruct (rt_headers rt). }
  destruct (log_request_phase rt (inject_headers rt request) w)
    as [[err request1] w1] eqn:Hphase.
  apply log_request_phase_store in Hphase as [Hg1 Hdone].
  specialize (Hdone b Hb' Hc).
  assert (∀ w2, store_grows (streams w1) (streams w2) →
            is_closed (streams (close_body request1 w2)) b
            ∧ store_grows (streams w) (streams (close_body request1 w2))) as Hend.
  { intros w2 Hg2. destruct (close_body_store request1 w2) as [Hg3 Hcl]. split.
    - destruct Hdone as [Hclosed|Hsame].
      + by apply Hg3, Hg2.
      + apply Hcl; [done|]. by apply Hg2, Hg1.
    - eapply store_grows_trans; [exact Hg1|].
      eapply store_grows_trans; [exact Hg2|exact Hg3]. }
  destruct err as [e|].
  { intros [= <- <- <-]. apply Hend, store_grows_refl. }
  destruct (rt_Rt rt) as [ort|].
  2:{ intros [= <- <- <-]. apply Hend, store_grows_refl. }
  unfold delegate. destruct (ort _ _ _) as [response err].
  destruct (retry_loop _ _ _ _ _ _ _ _) as [[[[r e]|e] w2]|] eqn:Hloop; [| |done].
  - apply retry_loop_frame in Hloop as (Hst & _).
    destruct (log_response_phase rt r e w2) as [[r' e'] w3] eqn:E.
    apply log_response_phase_store in E. rewrite Hst in E.
    intros [= <- <- <-]. by apply Hend.
  - apply retry_loop_frame in Hloop as (Hst & _).
    intros [= <- <- <-]. apply Hend. rewrite Hst. apply store_grows_refl.
Qed.


End Release.

(** ** More on the load harness *)

Section HarnessMore.
Import Harness HarnessInv.

Implicit Types (cfg : Config) (st : State) (sh : Shared).

(** X14.  The later version of the harness, in continuous-load mode, never
    exits, whatever the authentication calls return and whatever the
    flags.  With [threads] in the range of [int] it never panics either;
    with a larger [threads] the first statement of [main] after the test,
    which makes the channel, panics. *)
Theorem continuous_mode_never_stops cfg sched st :
  (0 < threads cfg)%Z →
  run V2.program cfg sched init = Some st →
  (∀ code, status st ≠ Exited code)
  ∧ (∀ pc, main_pc st ≠ MInline pc)
  ∧ ((threads cfg < 2 ^ 63)%Z → status st = Running)
  ∧ ((2 ^ 63 ≤ threads cfg)%Z →
     (sched = [] ∧ st = init) ∨ (sched = [Main] ∧ status st = Panicked)).
Proof.
  intros Ht Hrun.
  destruct (Z.lt_ge_cases (threads cfg) (2 ^ 63)) as [Hlt|Hge].
  - destruct (limiter_inv_run cfg sched (conj Ht Hlt) init st
                (limiter_inv_init cfg (conj Ht Hlt)) Hrun) as (H1 & H2 & _).
    split; [by rewrite H1|]. split; [done|]. split; [done|]. lia.
  - destruct (run_out_of_range _ cfg sched st Hge Hrun) as [[-> ->]|[-> ->]].
    + split; [done|]. split; [done|]. split; [lia|]. by left.
    + split; [done|]. split; [done|]. split; [lia|]. by right.
Qed.

Lemma continuous_mode_never_stops_witness :
  ∃ st,
    run V2.program sample_cfg sample_sched init = Some st ∧ status st = Running.
Proof.
  destruct (run V2.program sample_cfg sample_sched init) as [st|] eqn:Hrun;
    [|vm_compute in Hrun; discriminate].
  destruct (continuous_mode_never_stops sample_cfg sample_sched st eq_refl Hrun)
    as (_ & _ & H & _).
  exists st. split; [reflexivity|exact (H eq_refl)].
Defined.

(** X15.  A worker that has reached [<-limiter] is never blocked there:
    the channel holds an element, and its step completes the worker and
    takes one element out. *)
Theorem release_never_blocks cfg sched st i :
  (0 < threads cfg)%Z →
  run V2.program cfg sched init = Some st →
  workers st !! i = Some WRelease →
  ∃ st',
    step V2.program cfg (Work i) st = Some st'
    ∧ workers st' = <[i := WDone]> (workers st)
    ∧ S (limiter (shared st')) = limiter (shared st).
Proof.
  intros Ht Hrun Hw.
  destruct (Z.lt_ge_cases (threads cfg) (2 ^ 63)) as [Hlt|Hge].
  2:{ by destruct (run_out_of_range _ cfg sched st Hge Hrun) as [[_ ->]|[_ ->]]. }
  destruct (limiter_inv_run cfg sched (conj Ht Hlt) init st
              (limiter_inv_init cfg (conj Ht Hlt)) Hrun) as (Hst & _ & Hbal & _).
  assert (1 <= in_flight (workers st))%nat as Hpos.
  { clear Hbal. revert i Hw. generalize (workers st).
    induction l as [|pc l IH]; intros [|i] H; simplify_eq/=; [lia|].
    specialize (IH i H). lia. }
  unfold step, work_step. rewrite Hst, Hw. cbn. unfold release.
  destruct (limiter (shared st)) as [|n] eqn:Hl; [lia|].
  eexists. split; [reflexivity|]. by cbn.
Qed.

Lemma release_never_blocks_witness :
  ∃ st st',
    run V2.program sample_cfg
      [Main; Main; Main; Work 0; AuthDone (Some 0) sample_failure;
       Work 0; Work 0; Work 0; Work 0; Work 0] init = Some st
    ∧ workers st !! 0 = Some WRelease
    ∧ step V2.program sample_cfg (Work 0) st = Some st'.
Proof.
  destruct (run V2.program sample_cfg
              [Main; Main; Main; Work 0; AuthDone (Some 0) sample_failure;
               Work 0; Work 0; Work 0; Work 0; Work 0] init) as [st|] eqn:Hrun;
    [|vm_compute in Hrun; discriminate].
  assert (workers st !! 0 = Some WRelease) as Hw.
  { vm_compute in Hrun. injection Hrun as <-. reflexivity. }
  destruct (release_never_blocks sample_cfg _ st 0 eq_refl Hrun Hw)
    as (st' & H & _).
  exists st, st'. split; [reflexivity|]. split; [exact Hw|exact H].
Defined.



End HarnessMore.

(** ** Single-shot mode *)

Section SingleShotMode.
Import Harness SingleShot.

Implicit Types (cfg : Config) (st : State) (prog : Program).

Lemma call_lines_logger cfg rsp msg :
  Forall (λ l, strings.HasPrefix l "-> " = true ∨ strings.HasPrefix l "<- " = true)
         (call_lines cfg rsp msg).
Proof.
  unfold call_lines. destruct (debug cfg); [|done].
  destruct rsp; cbn; apply Forall_fmap, Forall_forall; intros v _;
    [right|left]; lazy [append]; cbn; apply HasPrefix_nil.
Qed.

Lemma single_shot_step prog cfg l st st' :
  prog = V1.program ∨ prog = V2.program →
  threads cfg = 0%Z →
  single_shot_inv cfg st →
  step prog cfg l st = Some st' →
  single_shot_inv cfg st'.
Proof.
  intros Hprog Ht (Hw & Hr & logged & Hlog & Hinv) Hstep. unfold step in Hstep.
  destruct (status st) eqn:Hst; try done.
  destruct l as [|i|[i|] r| |[i|] rsp msg].
  - unfold main_step in Hstep.
    destruct Hinv as [(Hout & Herr & Hpc)|(res & Hpc & Hout & Herr)].
    + destruct (main_pc st) as [|pc| |]; try done.
      * rewrite Ht in Hstep. cbn in Hstep. injection Hstep as <-.
        unfold single_shot_inv. cbn. rewrite Hst.
        split; [done|]. split; [done|]. exists logged. split; [done|].
        left. by repeat split.
      * destruct pc; try done;
          destruct Hprog as [-> | ->]; cbn in Hstep; try done;
          injection Hstep as <-; unfold single_shot_inv; cbn;
          rewrite ?Hst; (split; [done|]); (split; [done|]);
          exists logged; (split; [done|]);
          first [ left; by repeat split
                | right; split; [done|]; eexists; by rewrite ?Hout, ?Herr
                | right; eexists; unfold debug_lines, debug_output;
                  destruct (debug cfg); cbn; by rewrite ?Hout, ?Herr, ?app_nil_r ].
    + rewrite Hpc in Hstep. injection Hstep as <-.
      unfold single_shot_inv. cbn.
      split; [done|]. split; [done|]. exists logged. split; [done|].
      left. split; [done|]. by exists res.
  - unfold work_step in Hstep. by rewrite Hw in Hstep.
  - unfold auth_done in Hstep. by rewrite Hw in Hstep.
  - unfold auth_done in Hstep.
    destruct (main_pc st) as [|[]| |] eqn:Hpc; try done.
    injection Hstep as <-. unfold single_shot_inv. cbn. rewrite Hst.
    destruct Hinv as [(Hout & Herr & _)|(res & [=] & _)].
    split; [done|]. split; [done|]. exists logged. split; [done|].
    left. repeat split; try done. by destruct r.
  - unfold report_step in Hstep. by rewrite Hr in Hstep.
  - unfold call_log, at_call in Hstep. by rewrite Hw in Hstep.
  - unfold call_log, at_call in Hstep.
    destruct (main_pc st) as [|[]| |] eqn:Hpc; try done.
    injection Hstep as <-. unfold single_shot_inv. cbn. rewrite Hst.
    destruct Hinv as [(Hout & Herr & _)|(res & [=] & _)].
    split; [done|]. split; [done|].
    exists (logged ++ call_lines cfg rsp msg)%list. split.
    + destruct Hlog as [Hall Hoff]. split.
      * apply Forall_app. split; [done|]. apply call_lines_logger.
      * intros Hd. rewrite (Hoff Hd). unfold call_lines. by rewrite Hd.
    + left. by rewrite Hout, Herr.
Qed.

Lemma single_shot_run prog cfg sched :
  prog = V1.program ∨ prog = V2.program →
  threads cfg = 0%Z →
  ∀ st st',
    single_shot_inv cfg st →
    run prog cfg sched st = Some st' →
    single_shot_inv cfg st'.
Proof.
  intros Hprog Ht. induction sched as [|l sched IH]; intros st st' Hinv; cbn [run].
  - by intros [= <-].
  - destruct (step prog cfg l st) as [st1|] eqn:Hstep; [|done].
    apply IH. by eapply single_shot_step.
Qed.

(** X17.  With [threads = 0], in both versions of the program, no goroutine
    is started and the process never panics.  When it ends, the log holds
    first what the round tripper of the call logged (lines of its logger,
    none unless [debug] is set), and the process ended in one of two
    ways: with status 0, after printing the token identifier alone on
    standard output, preceded on the log by the user and project lines
    when [debug] is set; or with status 1, after printing the error on the
    log and nothing on standard output. *)
Theorem single_shot_outcome prog cfg sched st :
  prog = V1.program ∨ prog = V2.program →
  threads cfg = 0%Z →
  run prog cfg sched init = Some st →
  workers st = [] ∧ reporter_pc st = None
  ∧ status st ≠ Panicked
  ∧ (∀ code, status st = Exited code →
       ∃ logged,
         Forall (λ l, strings.HasPrefix l "-> " = true
                      ∨ strings.HasPrefix l "<- " = true) logged
         ∧ (debug cfg = false → logged = [])
         ∧ ((code = 0%Z
             ∧ ∃ res, stdout (shared st) = [TokenID res]
                      ∧ stderr (shared st)
                        = (logged
                           ++ if debug cfg
                              then ["User: " +:+ Username res;
                                    "Project: " +:+ Project res]
                              else [])%list)
            ∨ (code = 1%Z
               ∧ ∃ e, stdout (shared st) = []
                      ∧ stderr (shared st) = (logged ++ [Error e])%list))).
Proof.
  intros Hprog Ht Hrun.
  assert (single_shot_inv cfg init) as Hinit.
  { unfold single_shot_inv. cbn. repeat split. exists []. split; [by split|].
    left. by repeat split. }
  destruct (single_shot_run prog cfg sched Hprog Ht init st Hinit Hrun)
    as (Hw & Hr & logged & [Hall Hoff] & Hinv).
  split; [done|]. split; [done|]. split.
  - intros Hp. by rewrite Hp in Hinv.
  - intros code Hc. rewrite Hc in Hinv. exists logged. by repeat split.
Qed.

End SingleShotMode.

(** ** The lock of the error tally *)

Section TallyLockProofs.
Import Harness HarnessInv TallyLock.

Implicit Types (cfg : Config) (st : State) (sh : Shared) (ws : list WPc).

Lemma writers_app ws1 ws2 : writers (ws1 ++ ws2) = writers ws1 + writers ws2.
Proof. induction ws1 as [|pc ws1 IH]; simpl; lia. Qed.

Lemma writers_insert ws i pc pc' :
  ws !! i = Some pc →
  writers (<[i := pc']> ws) + writing pc = writers ws + writing pc'.
Proof.
  revert i. induction ws as [|a ws IH]; intros [|i] H; simplify_eq/=; [lia|].
  specialize (IH i H). lia.
Qed.

(** A statement of a worker changes the lock only by taking it free and by
    giving it back. *)
Lemma V2_auth_lock cfg pc sh rd :
  (writing pc = 1 → writer sh = true) →
  (writer sh = true → readers sh = 0) →
  readers sh = rd →
  match V2.auth cfg false pc sh with
  | Next pc' sh' =>
      (if writer sh' then 1 else 0) + writing pc
      = (if writer sh then 1 else 0) + writing pc'
      ∧ readers sh' = rd
      ∧ (writer sh' = true → readers sh' = 0)
  | Blocked => True
  | Exit _ _ | Panic _ => False
  end.
Proof.
  intros Hw Hx Hr. destruct pc; cbn in *; try done;
    repeat match goal with
      | |- context [if showErr ?c then _ else _] => destruct (showErr c)
      | |- context [debug_lines ?c ?r ?s] => unfold debug_lines; destruct (debug c)
      | |- context [release ?s] => unfold release; destruct (limiter s)
      end; cbn; try done.
  - destruct (writer sh) eqn:Hwr; cbn; [done|].
    destruct (Nat.eqb_spec (readers sh) 0); cbn; [|done]. repeat split; lia.
  - specialize (Hw eq_refl). rewrite Hw in *. specialize (Hx eq_refl).
    repeat split; try done. lia.
Qed.

Lemma V2_reporter_lock cfg pc sh :
  (writer sh = true → readers sh = 0) →
  readers sh = reading (Some pc) →
  match V2.reporter cfg pc sh with
  | Next pc' sh' =>
      writer sh' = writer sh
      ∧ readers sh' = reading (Some pc')
      ∧ (writer sh' = true → readers sh' = 0)
  | Blocked => True
  | Exit _ _ | Panic _ => False
  end.
Proof.
  intros Hx Hrd. destruct pc; cbn; rewrite ?percentage_percent; cbn in *; try done;
    repeat match goal with
      | |- context [if showErr ?c then _ else _] => destruct (showErr c)
      end; cbn; try done.
  - destruct (writer sh) eqn:Hwr; cbn; [done|]. rewrite Hrd. by repeat split.
  - destruct (writer sh) eqn:Hwr; [specialize (Hx eq_refl); lia|].
    rewrite Hrd. by repeat split.
Qed.

Lemma writers_lookup ws i pc : ws !! i = Some pc → (writing pc <= writers ws)%nat.
Proof.
  revert i. induction ws as [|a ws IH]; intros [|i] H; simplify_eq/=; [lia|].
  specialize (IH i H). lia.
Qed.

Lemma lock_inv_step cfg l st st' :
  (0 < threads cfg < 2 ^ 63)%Z →
  limiter_inv cfg st →
  lock_inv st →
  step V2.program cfg l st = Some st' →
  lock_inv st'.
Proof.
  intros Ht (Hrun & Hmain & _) (Hwr & Hrd & Hx & Hfirst) Hstep. unfold step in Hstep.
  rewrite Hrun in Hstep. destruct l as [|i|who r| |who rsp msg].
  - unfold main_step in Hstep.
    destruct (main_pc st) as [|pc| |] eqn:Hpc.
    + destruct (Z.eqb_spec (threads cfg) 0); [lia|].
      destruct (Z.leb_spec (2 ^ 63) (threads cfg)); [lia|].
      injection Hstep as <-. unfold lock_inv. cbn.
      rewrite (Hfirst eq_refl) in Hrd. by repeat split.
    + by destruct (Hmain pc).
    + destruct (Z.of_nat (limiter (shared st)) <? threads cfg)%Z; [|done].
      injection Hstep as <-. unfold lock_inv. cbn. by repeat split.
    + injection Hstep as <-. unfold lock_inv. cbn.
      rewrite writers_app. cbn. repeat split; try done. lia.
  - unfold work_step in Hstep.
    destruct (workers st !! i) as [pc|] eqn:Hw; [|done].
    pose proof (writers_lookup _ _ _ Hw) as Hle.
    assert (writing pc = 1 → writer (shared st) = true) as Hhold.
    { intros H1. destruct (writer (shared st)); [done|lia]. }
    pose proof (V2_auth_lock cfg pc (shared st) (readers (shared st))
                  Hhold Hx eq_refl) as Hb.
    change (auth V2.program) with V2.auth in Hstep.
    destruct (V2.auth cfg false pc (shared st)) as [pc' sh'| | |]; try done.
    injection Hstep as <-. unfold lock_inv. cbn.
    pose proof (writers_insert (workers st) i pc pc' Hw) as Hi.
    destruct Hb as (Hb1 & Hb2 & Hb3).
    split; [lia|]. split; [congruence|]. by split.
  - unfold auth_done in Hstep. destruct who as [i|].
    + destruct (workers st !! i) as [pc|] eqn:Hw; [|done].
      destruct pc; try done. injection Hstep as <-. unfold lock_inv. cbn.
      pose proof (writers_insert (workers st) i WCall (returned r) Hw) as Hi.
      assert (writing (returned r) = 0) as Ha by (by destruct r).
      cbn in Hi. repeat split; try done. lia.
    + destruct (main_pc st) as [|pc| |] eqn:Hpc; try done.
      by destruct (Hmain pc).
  - unfold report_step in Hstep.
    destruct (reporter_pc st) as [pc|] eqn:Hrp; [|done].
    pose proof (V2_reporter_lock cfg pc (shared st) Hx Hrd) as Hb.
    change (reporter V2.program) with V2.reporter in Hstep.
    destruct (V2.reporter cfg pc (shared st)) as [pc' sh'| | |]; try done.
    injection Hstep as <-. unfold lock_inv. cbn.
    destruct Hb as (Hb1 & Hb2 & Hb3).
    split; [by rewrite Hb1|]. split; [done|]. split; [done|].
    intros Hs. by specialize (Hfirst Hs).
  - apply call_log_frame in Hstep as ->. done.
Qed.

Lemma lock_inv_run cfg sched :
  (0 < threads cfg < 2 ^ 63)%Z →
  ∀ st st',
    limiter_inv cfg st → lock_inv st →
    run V2.program cfg sched st = Some st' →
    lock_inv st'.
Proof.
  intros Ht. induction sched as [|l sched IH]; intros st st' Hlim Hinv; cbn [run].
  - by intros [= <-].
  - destruct (step V2.program cfg l st) as [st1|] eqn:Hstep; [|done].
    apply IH; [by eapply limiter_inv_step|by eapply lock_inv_step].
Qed.

(** X18.  The tally is written under the lock alone: at most one worker
    is between [Lock] and [Unlock], and none while the reporter is between
    [RLock] and [RUnlock]; the lock is held exactly by them. *)
Theorem tally_lock_exclusive cfg sched st :
  (0 < threads cfg)%Z →
  run V2.program cfg sched init = Some st →
  (writers (workers st) + reading (reporter_pc st) <= 1)%nat
  ∧ writers (workers st) = (if writer (shared st) then 1 else 0)
  ∧ readers (shared st) = reading (reporter_pc st).
Proof.
  intros Ht Hrun.
  destruct (Z.lt_ge_cases (threads cfg) (2 ^ 63)) as [Hlt|Hge].
  2:{ destruct (run_out_of_range _ cfg sched st Hge Hrun) as [[_ ->]|[_ ->]];
        cbn; repeat split; lia. }
  assert (lock_inv init) as Hinit by (by unfold lock_inv).
  destruct (lock_inv_run cfg sched (conj Ht Hlt) init st
              (limiter_inv_init cfg (conj Ht Hlt)) Hinit Hrun)
    as (Hwr & Hrd & Hx & _).
  split; [|by split].
  rewrite Hwr, <- Hrd. destruct (writer (shared st)); [|destruct (reporter_pc st) as [[]|]; cbn in *; lia].
  rewrite (Hx eq_refl). lia.
Qed.

End TallyLockProofs.

(** ** Accounting of the attempts *)

Section AccountingProofs.
Import Harness HarnessInv Accounting.
#[local] Open Scope Z_scope.

Implicit Types (cfg : Config) (st : State) (sh : Shared) (ws : list WPc).

Lemma count_app f ws1 ws2 : count f (ws1 ++ ws2) = (count f ws1 + count f ws2)%nat.
Proof. induction ws1 as [|pc ws1 IH]; simpl; lia. Qed.

Lemma count_insert f ws i pc pc' :
  ws !! i = Some pc →
  (count f (<[i := pc']> ws) + f pc = count f ws + f pc')%nat.
Proof.
  revert i. induction ws as [|a ws IH]; intros [|i] H; simplify_eq/=; [lia|].
  specialize (IH i H). lia.
Qed.

Lemma V2_auth_accounting cfg pc sh n rp :
  n + 1 < 2 ^ 64 →
  counters_inv n sh rp →
  match V2.auth cfg false pc sh with
  | Next pc' sh' =>
      ops sh' + totalReq sh' + Z.of_nat (not_started pc')
      = ops sh + totalReq sh + Z.of_nat (not_started pc)
      ∧ fps sh' + totalErr sh' + Z.of_nat (uncounted_failure pc')
        = fps sh + totalErr sh + Z.of_nat (uncounted_failure pc)
  | _ => True
  end.
Proof.
  intros Hn Hinv.
  destruct pc; cbn; try done;
    repeat match goal with
      | |- context [if ?b then _ else _] => destruct b
      | |- context [release ?sh] => unfold release; destruct (limiter sh)
      | |- context [debug_lines ?c ?r ?s] => unfold debug_lines
      end; cbn; try done;
    unfold counters_inv, AddUint64 in *; rewrite ?u64_small by lia; lia.
Qed.

Lemma V2_reporter_accounting cfg pc sh n :
  n + 1 < 2 ^ 64 →
  counters_inv n sh (Some pc) →
  match V2.reporter cfg pc sh with
  | Next pc' sh' =>
      ops sh' + totalReq sh' + pending_s (Some pc')
      = ops sh + totalReq sh + pending_s (Some pc)
      ∧ fps sh' + totalErr sh' + pending_f (Some pc')
        = fps sh + totalErr sh + pending_f (Some pc)
  | _ => True
  end.
Proof.
  intros Hn Hinv.
  destruct pc; cbn; rewrite ?percentage_percent; cbn; try done;
    repeat match goal with
      | |- context [if ?b then _ else _] => destruct b
      end; cbn; try done;
    unfold counters_inv, pending_s, pending_f, AddUint64 in *; cbn in *;
    rewrite ?u64_small by lia; lia.
Qed.

Lemma accounting_step cfg l st st' n k :
  (0 < threads cfg < 2 ^ 63) →
  n + 1 < 2 ^ 64 →
  limiter_inv cfg st →
  counters_inv n (shared st) (reporter_pc st) →
  no_reporter_at_start st →
  accounting_inv k st →
  step V2.program cfg l st = Some st' →
  accounting_inv (k + Z.of_nat (is_failure_return l)) st'.
Proof.
  intros Ht Hn (Hrun & Hmain & _) Hcnt Hfirst (Hops & Hfps) Hstep.
  unfold step in Hstep. rewrite Hrun in Hstep. destruct l as [|i|who r| |who rsp msg].
  - unfold main_step in Hstep.
    destruct (main_pc st) as [|pc| |] eqn:Hpc.
    + destruct (Z.eqb_spec (threads cfg) 0); [lia|].
      destruct (Z.leb_spec (2 ^ 63) (threads cfg)); [lia|].
      injection Hstep as <-. unfold accounting_inv. cbn.
      rewrite (Hfirst Hpc) in Hops, Hfps. cbn in *. lia.
    + by destruct (Hmain pc).
    + destruct (Z.of_nat (limiter (shared st)) <? threads cfg); [|done].
      injection Hstep as <-. unfold accounting_inv. cbn. lia.
    + injection Hstep as <-. unfold accounting_inv. cbn.
      rewrite !count_app, length_app. cbn. lia.
  - unfold work_step in Hstep.
    destruct (workers st !! i) as [pc|] eqn:Hw; [|done].
    pose proof (V2_auth_balance cfg pc (shared st)) as Hbal.
    pose proof (V2_auth_accounting cfg pc (shared st) n (reporter_pc st) Hn Hcnt) as Hb.
    change (auth V2.program) with V2.auth in Hstep.
    destruct (V2.auth cfg false pc (shared st)) as [pc' sh'| | |]; try done.
    injection Hstep as <-. unfold accounting_inv. cbn.
    pose proof (count_insert not_started (workers st) i pc pc' Hw).
    pose proof (count_insert uncounted_failure (workers st) i pc pc' Hw).
    rewrite length_insert. lia.
  - unfold auth_done in Hstep. destruct who as [i|].
    + destruct (workers st !! i) as [pc|] eqn:Hw; [|done].
      destruct pc; try done. injection Hstep as <-. unfold accounting_inv. cbn.
      pose proof (count_insert not_started (workers st) i WCall (returned r) Hw).
      pose proof (count_insert uncounted_failure (workers st) i WCall (returned r) Hw).
      rewrite length_insert. destruct r; cbn in *; lia.
    + destruct (main_pc st) as [|pc| |] eqn:Hpc; try done.
      by destruct (Hmain pc).
  - unfold report_step in Hstep.
    destruct (reporter_pc st) as [pc|] eqn:Hrp; [|done].
    pose proof (V2_reporter_accounting cfg pc (shared st) n Hn Hcnt) as Hb.
    pose proof (V2_reporter_limiter cfg pc (shared st)) as Hlim.
    change (reporter V2.program) with V2.reporter in Hstep.
    destruct (V2.reporter cfg pc (shared st)) as [pc' sh'| | |]; try done.
    injection Hstep as <-. unfold accounting_inv.
    cbn [shared workers reporter_pc is_failure_return]. lia.
  - apply call_log_frame in Hstep as ->. unfold accounting_inv. cbn. lia.
Qed.

Lemma accounting_run cfg sched :
  (0 < threads cfg < 2 ^ 63) →
  ∀ st st' n k,
    n + Z.of_nat (length sched) < 2 ^ 64 →
    limiter_inv cfg st →
    counters_inv n (shared st) (reporter_pc st) →
    TallyLock.lock_inv st →
    accounting_inv k st →
    run V2.program cfg sched st = Some st' →
    accounting_inv (k + Z.of_nat (failure_returns sched)) st'.
Proof.
  intros Ht. induction sched as [|l sched IH];
    intros st st' n k Hn Hlim Hcnt Hlock Hacc; cbn [run].
  - intros [= <-]. cbn. by rewrite Z.add_0_r.
  - destruct (step V2.program cfg l st) as [st1|] eqn:Hstep; [|done].
    intros Hrun. cbn [length failure_returns] in *.
    replace (k + Z.of_nat (is_failure_return l + failure_returns sched)%nat)
      with ((k + Z.of_nat (is_failure_return l)) + Z.of_nat (failure_returns sched))
      by lia.
    apply (IH st1 st' (n + 1)); [lia| | | | |done].
    + by eapply limiter_inv_step.
    + eapply counters_inv_step; [|done..]. lia.
    + by eapply lock_inv_step.
    + eapply (accounting_step cfg l st st1 n); try done; [lia|].
      by destruct Hlock as (_ & _ & _ & ?).
Qed.

(** X19.  In continuous-load mode, in an execution of fewer than [2^64]
    steps and under every interleaving: the attempts counted (in the
    window counter, in the value the reporter holds, or in the total) are
    exactly the workers that have executed their first statement, and the
    failures counted are exactly the failed calls, less the workers that
    have not yet executed the statement after their failed call. *)
Theorem attempts_accounted cfg sched st :
  (0 < threads cfg) →
  Z.of_nat (length sched) < 2 ^ 64 →
  run V2.program cfg sched init = Some st →
  ops (shared st) + totalReq (shared st) + pending_s (reporter_pc st)
  = Z.of_nat (length (workers st)) - Z.of_nat (count not_started (workers st))
  ∧ fps (shared st) + totalErr (shared st) + pending_f (reporter_pc st)
    = Z.of_nat (failure_returns sched)
      - Z.of_nat (count uncounted_failure (workers st)).
Proof.
  intros Ht Hn Hrun.
  destruct (Z.lt_ge_cases (threads cfg) (2 ^ 63)) as [Hlt|Hge].
  2:{ by destruct (run_out_of_range _ cfg sched st Hge Hrun) as [[-> ->]|[-> ->]]. }
  assert (TallyLock.lock_inv init) as Hlock by (by unfold TallyLock.lock_inv).
  assert (accounting_inv 0 init) as Hacc by (by unfold accounting_inv).
  destruct (accounting_run cfg sched (conj Ht Hlt) init st 0 0 Hn
              (limiter_inv_init cfg (conj Ht Hlt))
              counters_inv_init Hlock Hacc Hrun) as [H1 H2].
  lia.
Qed.

End AccountingProofs.

(** ** Further theorems at sample inputs *)

Section MoreSamples.
#[local] Existing Instance sample_library.
Import Harness HarnessInv SingleShot TallyLock Accounting.

Lemma FormatJSON_frame_witness :
  jpath ["credentials"; "params"; "AWSAccessKeyId"] (JObj (mask_data ec2_data))
  = Some (JStr "AK1").
Proof.
  destruct (FormatJSON_frame ec2_body ec2_data
              ["credentials"; "params"; "AWSAccessKeyId"]
              ltac:(vm_compute; reflexivity) ltac:(reflexivity)) as [_ H].
  rewrite H. vm_compute. reflexivity.
Defined.

Lemma auth_fields_masked_witness :
  jpath ["auth"; "passwordCredentials"; "password"] (JObj (mask_data v2_auth_data))
  = Some mask
  ∧ jpath ["auth"; "passwordCredentials"; "password"] (JObj v2_auth_data) = None.
Proof.
  destruct (auth_fields_masked v2_auth_data v2_auth
              ltac:(vm_compute; reflexivity)) as [H _].
  split; [|vm_compute; reflexivity].
  apply (H v2_user). vm_compute. reflexivity.
Defined.

Lemma present_fields_masked_witness :
  jpath ["token"; "catalog"] (JObj (mask_data token_data)) = Some mask
  ∧ jpath ["token"; "id"] (JObj (mask_data token_data)) = Some (JStr "tok-123").
Proof.
  destruct (present_fields_masked token_data) as [_ H].
  split; [|vm_compute; reflexivity].
  rewrite (H token_fields) by (vm_compute; reflexivity).
  vm_compute. reflexivity.
Defined.

Lemma RoundTrip_without_logger_witness :
  ∃ res request' w',
    RoundTrip (silent_rt (flaky 1)) (sample_request (Some 0)) (sample_world "{}")
    = Some (res, request', w')
    ∧ res = (Some {| StatusCode := 200;
                     resp_Header := {[ "Content-Type" := ["application/json"] ]};
                     resp_Body := Some 0 |}, None)
    ∧ out w' = []
    ∧ req_Body request' = Some 0
    ∧ ∃ k, flaky 1 k request' [sample_stream "{}"] = (Some sample_response, None).
Proof.
  destruct (RoundTrip (silent_rt (flaky 1)) (sample_request (Some 0))
              (sample_world "{}")) as [[[res request'] w']|] eqn:H;
    [|vm_compute in H; discriminate].
  destruct (RoundTrip_without_logger (silent_rt (flaky 1)) (sample_request (Some 0))
              (sample_world "{}") res request' w' eq_refl H) as (H1 & H2 & _ & H4).
  assert (res = (Some {| StatusCode := 200;
                         resp_Header := {[ "Content-Type" := ["application/json"] ]};
                         resp_Body := Some 0 |}, None)) as Hres.
  { vm_compute in H. injection H as <- _ _. reflexivity. }
  exists res, request', w'. split; [reflexivity|]. split; [exact Hres|].
  split; [exact H1|]. split; [rewrite H2; reflexivity|].
  destruct (H4 _ ltac:(rewrite Hres; reflexivity)) as (ort & r & k & Hort & _ & Hk & Hr).
  injection Hort as <-. injection Hr as Hc Hh Hbody.
  exists (0 + k). rewrite Hres in Hk. cbn [snd] in Hk.
  destruct r as [c h b]. cbn in *. by subst.
Defined.

Lemma single_shot_outcome_witness :
  ∃ st,
    run V2.program single_cfg single_sched init = Some st
    ∧ status st = Exited 0
    ∧ stdout (shared st) = ["tok-123"]
    ∧ stderr (shared st)
      = ["-> URL: POST http://keystone/v3/ec2tokens"; "User: alice"; "Project: demo"]
    ∧ status st ≠ Panicked.
Proof.
  destruct (run V2.program single_cfg single_sched init)
    as [st|] eqn:Hrun; [|vm_compute in Hrun; discriminate].
  destruct (single_shot_outcome V2.program single_cfg _ st
              (or_intror eq_refl) eq_refl Hrun) as (_ & _ & H & _).
  exists st. split; [reflexivity|].
  vm_compute in Hrun. injection Hrun as <-.
  split; [reflexivity|]. split; [reflexivity|]. split; [reflexivity|]. discriminate.
Defined.

Lemma tally_lock_exclusive_witness :
  ∃ st,
    run V2.program sample_cfg tally_sched init = Some st
    ∧ writers (workers st) = 1
    ∧ (writers (workers st) + reading (reporter_pc st) <= 1)%nat.
Proof.
  destruct (run V2.program sample_cfg tally_sched init) as [st|] eqn:Hrun;
    [|vm_compute in Hrun; discriminate].
  destruct (tally_lock_exclusive sample_cfg tally_sched st eq_refl Hrun)
    as (H & _).
  exists st. split; [reflexivity|]. split; [|exact H].
  vm_compute in Hrun. injection Hrun as <-. reflexivity.
Defined.

Lemma attempts_accounted_witness :
  ∃ st,
    run V2.program sample_cfg sample_sched init = Some st
    ∧ (totalReq (shared st) = 1 ∧ totalErr (shared st) = 1)%Z
    ∧ (ops (shared st) + totalReq (shared st) + pending_s (reporter_pc st)
       = Z.of_nat (length (workers st))
         - Z.of_nat (count not_started (workers st)))%Z.
Proof.
  destruct (run V2.program sample_cfg sample_sched init) as [st|] eqn:Hrun;
    [|vm_compute in Hrun; discriminate].
  destruct (attempts_accounted sample_cfg sample_sched st eq_refl eq_refl Hrun)
    as (H & _).
  exists st. split; [reflexivity|]. split; [|exact H].
  vm_compute in Hrun. injection Hrun as <-. split; reflexivity.
Defined.

End MoreSamples.

(** ** The error tally counts the failures by category *)

Section TallyProofs.
Import Harness HarnessInv Accounting Tally.
#[local] Open Scope Z_scope.

Implicit Types (cfg : Config) (st : State) (sh : Shared) (ws : list WPc).

Lemma V2_auth_tally cfg t pc sh :
  showErr cfg = true →
  0 ≤ tally t sh → tally t sh + 1 < 2 ^ 64 →
  (∀ v, errs sh !! t = Some v → 0 < v) →
  match V2.auth cfg false pc sh with
  | Next pc' sh' =>
      tally t sh' + Z.of_nat (untallied t pc')
      = tally t sh + Z.of_nat (untallied t pc)
      ∧ 0 ≤ tally t sh'
      ∧ ∀ v, errs sh' !! t = Some v → 0 < v
  | _ => True
  end.
Proof.
  intros Hshow H0 Hb Hpos.
  destruct pc; cbn [V2.auth]; rewrite ?Hshow; try done.
  - destruct (writer sh || negb (readers sh =? 0)%nat); done.
  - unfold tally in *. cbn [errs set_errs untallied].
    destruct (String.eqb_spec t0 t) as [->|Hne].
    + rewrite lookup_insert_eq. set (d := default 0 (errs sh !! t)) in *.
      cbn [default]. unfold AddUint64, id. rewrite u64_small by lia.
      split; [lia|]. split; [lia|]. intros v [= <-]. lia.
    + rewrite lookup_insert_ne by done. done.
  - unfold debug_lines. by destruct (debug cfg).
  - unfold release. by destruct (limiter sh).
Qed.

Lemma V2_reporter_errs cfg pc sh :
  match V2.reporter cfg pc sh with
  | Next pc' sh' => errs sh' = errs sh
  | _ => True
  end.
Proof.
  destruct pc; cbn [V2.reporter]; rewrite ?percentage_percent; cbn; try done.
  - by destruct (showErr cfg).
  - by destruct (writer sh).
Qed.

Lemma untallied_bound t ws : (count (untallied t) ws <= length ws)%nat.
Proof.
  induction ws as [|pc ws IH]; cbn [count length]; [lia|].
  assert (untallied t pc <= 1)%nat; [|lia].
  destruct pc; cbn; try lia; by destruct (String.eqb _ _); lia.
Qed.

Lemma tally_step cfg t l st st' n k :
  (0 < threads cfg < 2 ^ 63) →
  showErr cfg = true →
  k ≤ n → n + 1 < 2 ^ 64 →
  limiter_inv cfg st →
  tally_inv t k st →
  step V2.program cfg l st = Some st' →
  tally_inv t (k + Z.of_nat (is_failure_of t l)) st'.
Proof.
  intros Ht Hshow Hkn Hn (Hrun & Hmain & _) (Hsum & H0 & Hpos) Hstep.
  unfold step in Hstep. rewrite Hrun in Hstep. destruct l as [|i|who r| |who rsp msg].
  - unfold main_step in Hstep.
    destruct (main_pc st) as [|pc| |] eqn:Hpc.
    + destruct (Z.eqb_spec (threads cfg) 0); [lia|].
      destruct (Z.leb_spec (2 ^ 63) (threads cfg)); [lia|].
      injection Hstep as <-. unfold tally_inv. cbn. split; [lia|done].
    + by destruct (Hmain pc).
    + destruct (Z.of_nat (limiter (shared st)) <? threads cfg); [|done].
      injection Hstep as <-. unfold tally_inv, tally in *. cbn. split; [lia|done].
    + injection Hstep as <-. unfold tally_inv. cbn.
      rewrite count_app. cbn. split; [lia|done].
  - unfold work_step in Hstep.
    destruct (workers st !! i) as [pc|] eqn:Hw; [|done].
    pose proof (V2_auth_balance cfg pc (shared st)) as Hbal.
    assert (tally t (shared st) + 1 < 2 ^ 64) as Hb by lia.
    pose proof (V2_auth_tally cfg t pc (shared st) Hshow H0 Hb Hpos) as Hstepw.
    change (auth V2.program) with V2.auth in Hstep.
    destruct (V2.auth cfg false pc (shared st)) as [pc' sh'| | |]; try done.
    injection Hstep as <-. unfold tally_inv. cbn.
    pose proof (count_insert (untallied t) (workers st) i pc pc' Hw).
    destruct Hstepw as (? & ? & ?). split; [lia|done].
  - unfold auth_done in Hstep. destruct who as [i|].
    + destruct (workers st !! i) as [pc|] eqn:Hw; [|done].
      destruct pc; try done. injection Hstep as <-. unfold tally_inv. cbn.
      pose proof (count_insert (untallied t) (workers st) i WCall (returned r) Hw).
      split; [|done]. destruct r; cbn in *; lia.
    + destruct (main_pc st) as [|pc| |] eqn:Hpc; try done.
      by destruct (Hmain pc).
  - unfold report_step in Hstep.
    destruct (reporter_pc st) as [pc|] eqn:Hrp; [|done].
    pose proof (V2_reporter_errs cfg pc (shared st)) as He.
    pose proof (V2_reporter_limiter cfg pc (shared st)) as Hlim.
    change (reporter V2.program) with V2.reporter in Hstep.
    destruct (V2.reporter cfg pc (shared st)) as [pc' sh'| | |]; try done.
    injection Hstep as <-. unfold tally_inv, tally in *.
    cbn [shared workers is_failure_of]. rewrite He. split; [lia|done].
  - apply call_log_frame in Hstep as ->. unfold tally_inv, tally in *. cbn. split; [lia|done].
Qed.

Lemma is_failure_of_bound t l : (is_failure_of t l <= 1)%nat.
Proof.
  destruct l as [| |[i|] [res|e]| |]; cbn; try lia. destruct (String.eqb _ _); lia.
Qed.

Lemma tally_run cfg t sched :
  (0 < threads cfg < 2 ^ 63) →
  showErr cfg = true →
  ∀ st st' n k,
    k ≤ n → n + Z.of_nat (length sched) < 2 ^ 64 →
    limiter_inv cfg st →
    tally_inv t k st →
    run V2.program cfg sched st = Some st' →
    tally_inv t (k + Z.of_nat (failures_of t sched)) st'.
Proof.
  intros Ht Hshow. induction sched as [|l sched IH];
    intros st st' n k Hkn Hn Hlim Hinv; cbn [run].
  - intros [= <-]. cbn. by rewrite Z.add_0_r.
  - destruct (step V2.program cfg l st) as [st1|] eqn:Hstep; [|done].
    intros Hrun. cbn [length failures_of] in *.
    replace (k + Z.of_nat (is_failure_of t l + failures_of t sched)%nat)
      with ((k + Z.of_nat (is_failure_of t l)) + Z.of_nat (failures_of t sched))
      by lia.
    pose proof (is_failure_of_bound t l).
    apply (IH st1 st' (n + 1)); [lia|lia| | |done].
    + by eapply limiter_inv_step.
    + eapply (tally_step cfg t l st st1 n); try done. lia.
Qed.

(** X20.  In continuous-load mode with [--show-error], in an execution of
    fewer than [2^64] steps and under every interleaving: the count the
    tally holds for a category is the number of calls that failed with an
    error of that category, less the workers that have not yet recorded
    theirs; and a category in the tally has a positive count. *)
Theorem failures_tallied cfg sched st t :
  (0 < threads cfg) →
  showErr cfg = true →
  Z.of_nat (length sched) < 2 ^ 64 →
  run V2.program cfg sched init = Some st →
  tally t (shared st)
  = Z.of_nat (failures_of t sched) - Z.of_nat (count (untallied t) (workers st))
  ∧ ∀ v, errs (shared st) !! t = Some v → 0 < v.
Proof.
  intros Ht Hshow Hn Hrun.
  destruct (Z.lt_ge_cases (threads cfg) (2 ^ 63)) as [Hlt|Hge].
  2:{ by destruct (run_out_of_range _ cfg sched st Hge Hrun) as [[-> ->]|[-> ->]]. }
  assert (tally_inv t 0 init) as Hinv by (by unfold tally_inv).
  destruct (tally_run cfg t sched (conj Ht Hlt) Hshow init st 0 0 ltac:(lia) Hn
              (limiter_inv_init cfg (conj Ht Hlt)) Hinv Hrun) as (H1 & _ & H2).
  split; [lia|done].
Qed.

Lemma V2_auth_quiet cfg pc sh :
  showErr cfg = false →
  tallying pc = 0%nat →
  match V2.auth cfg false pc sh with
  | Next pc' sh' => errs sh' = errs sh ∧ tallying pc' = 0%nat
  | _ => True
  end.
Proof.
  intros Hshow Hpc.
  destruct pc; cbn [V2.auth]; rewrite ?Hshow; try done.
  - unfold debug_lines. by destruct (debug cfg).
  - unfold release. by destruct (limiter sh).
Qed.

Lemma count_zero_lookup f ws i pc :
  count f ws = 0%nat → ws !! i = Some pc → f pc = 0%nat.
Proof.
  revert i. induction ws as [|a ws IH]; intros [|i] H Hl; simplify_eq/=; [lia|].
  apply (IH i); [lia|done].
Qed.

Lemma quiet_step cfg l st st' :
  (0 < threads cfg < 2 ^ 63) →
  showErr cfg = false →
  limiter_inv cfg st →
  quiet_inv st →
  step V2.program cfg l st = Some st' →
  quiet_inv st'.
Proof.
  intros Ht Hshow (Hrun & Hmain & _) (Hempty & Hcount & Hrp) Hstep.
  unfold step in Hstep. rewrite Hrun in Hstep. destruct l as [|i|who r| |who rsp msg].
  - unfold main_step in Hstep.
    destruct (main_pc st) as [|pc| |] eqn:Hpc.
    + destruct (Z.eqb_spec (threads cfg) 0); [lia|].
      destruct (Z.leb_spec (2 ^ 63) (threads cfg)); [lia|].
      by injection Hstep as <-.
    + by destruct (Hmain pc).
    + destruct (Z.of_nat (limiter (shared st)) <? threads cfg); [|done].
      by injection Hstep as <-.
    + injection Hstep as <-. unfold quiet_inv. cbn.
      rewrite count_app. cbn. split; [done|]. split; [lia|done].
  - unfold work_step in Hstep.
    destruct (workers st !! i) as [pc|] eqn:Hw; [|done].
    pose proof (V2_auth_balance cfg pc (shared st)) as Hbal.
    pose proof (V2_auth_quiet cfg pc (shared st) Hshow
                  (count_zero_lookup _ _ _ _ Hcount Hw)) as Hq.
    change (auth V2.program) with V2.auth in Hstep.
    destruct (V2.auth cfg false pc (shared st)) as [pc' sh'| | |]; try done.
    injection Hstep as <-. unfold quiet_inv. cbn.
    pose proof (count_insert tallying (workers st) i pc pc' Hw).
    destruct Hq as [-> ?]. split; [done|]. split; [lia|done].
  - unfold auth_done in Hstep. destruct who as [i|].
    + destruct (workers st !! i) as [pc|] eqn:Hw; [|done].
      destruct pc; try done. injection Hstep as <-. unfold quiet_inv. cbn.
      pose proof (count_insert tallying (workers st) i WCall (returned r) Hw).
      split; [done|]. split; [|done]. destruct r; cbn in *; lia.
    + destruct (main_pc st) as [|pc| |] eqn:Hpc; try done.
      by destruct (Hmain pc).
  - unfold report_step in Hstep.
    destruct (reporter_pc st) as [pc|] eqn:Hrpc; [|done].
    pose proof (V2_reporter_errs cfg pc (shared st)) as He.
    pose proof (V2_reporter_limiter cfg pc (shared st)) as Hlim.
    change (reporter V2.program) with V2.reporter in Hstep.
    destruct pc; cbn [V2.reporter] in *; rewrite ?percentage_percent in *;
      rewrite ?Hshow in *; try done;
      injection Hstep as <-; unfold quiet_inv; cbn; done.
  - apply call_log_frame in Hstep as ->. done.
Qed.

(** X21.  In continuous-load mode without [--show-error], under every
    interleaving: the tally stays empty, no worker is ever at the tally,
    and the reporter never takes its lock. *)
Theorem no_tally_without_show_error cfg sched st :
  (0 < threads cfg) →
  showErr cfg = false →
  run V2.program cfg sched init = Some st →
  errs (shared st) = ∅
  ∧ count tallying (workers st) = 0%nat
  ∧ reporter_pc st ≠ Some RLock ∧ reporter_pc st ≠ Some RLocked
  ∧ writer (shared st) = false ∧ readers (shared st) = 0%nat.
Proof.
  intros Ht Hshow Hrun.
  destruct (Z.lt_ge_cases (threads cfg) (2 ^ 63)) as [Hlt|Hge].
  2:{ by destruct (run_out_of_range _ cfg sched st Hge Hrun) as [[_ ->]|[_ ->]]. }
  pose proof (conj Ht Hlt) as Hrange.
  assert (limiter_inv cfg init ∧ quiet_inv init ∧ TallyLock.lock_inv init) as Hinit.
  { split; [by apply limiter_inv_init|]. by split. }
  revert Hinit Hrun. generalize init. induction sched as [|l sched IH];
    intros st0 (Hlim & Hq & Hlock); cbn [run].
  - intros [= <-]. destruct Hq as (He & Hc & Hrp).
    destruct Hlock as (Hw & Hr & _).
    split; [done|]. split; [done|].
    assert (TallyLock.writers (workers st0) = 0%nat) as Hw0.
    { clear -Hc. induction (workers st0) as [|pc ws IHws]; [done|].
      cbn in *. destruct pc; cbn in *; try lia; by apply IHws. }
    rewrite Hw0 in Hw.
    destruct (reporter_pc st0) as [[]|]; cbn in *; try done;
      (split; [done|]); (split; [done|]); (split; [by destruct (writer _)|done]).
  - destruct (step V2.program cfg l st0) as [st1|] eqn:Hstep; [|done].
    apply IH. split; [by eapply limiter_inv_step|].
    split; [by eapply quiet_step|by eapply lock_inv_step].
Qed.

Lemma failures_tallied_witness :
  ∃ st,
    run V2.program sample_cfg tallied_sched init = Some st
    ∧ errs (shared st) !! "dial tcp: connection refused" = Some 1
    ∧ tally "dial tcp: connection refused" (shared st)
      = Z.of_nat (failures_of "dial tcp: connection refused" tallied_sched)
        - Z.of_nat (count (untallied "dial tcp: connection refused") (workers st)).
Proof.
  destruct (run V2.program sample_cfg tallied_sched init) as [st|] eqn:Hrun;
    [|vm_compute in Hrun; discriminate].
  destruct (failures_tallied sample_cfg tallied_sched st
              "dial tcp: connection refused" eq_refl eq_refl eq_refl Hrun)
    as (H & _).
  exists st. split; [reflexivity|]. split; [|exact H].
  vm_compute in Hrun. injection Hrun as <-. vm_compute. reflexivity.
Defined.

Lemma no_tally_without_show_error_witness :
  ∃ st,
    run V2.program quiet_cfg sample_sched init = Some st
    ∧ errs (shared st) = ∅.
Proof.
  destruct (run V2.program quiet_cfg sample_sched init) as [st|] eqn:Hrun;
    [|vm_compute in Hrun; discriminate].
  destruct (no_tally_without_show_error quiet_cfg sample_sched st
              eq_refl eq_refl Hrun) as (H & _).
  exists st. split; [reflexivity|exact H].
Defined.

End TallyProofs.

(** ** The authentication call *)

Section AuthProofs.
Import Harness Auth.

(** X22.  [OpenStackEC2Auth] returns a result and no error, or an error
    and no result, never both and never neither; it returns a result
    exactly when the request and the three extractions succeeded with a
    user and a project scope, and the result holds their names and the
    token. *)
Theorem OpenStackEC2Auth_result res :
  (∃ r, OpenStackEC2Auth res = (Some r, None) ∧ succeeded res r)
  ∨ (∃ e, OpenStackEC2Auth res = (None, Some e) ∧ ¬ ∃ r, succeeded res r).
Proof.
  unfold OpenStackEC2Auth, succeeded.
  destruct (Err res) as [e|] eqn:He.
  { right. exists e. split; [done|]. by intros (r & ? & _). }
  destruct (ExtractUser res) as [user [e|]] eqn:Hu.
  { right. exists e. split; [done|]. by intros (r & _ & u & p & ? & _). }
  destruct user as [user|].
  2:{ right. eexists. split; [done|]. by intros (r & _ & u & p & ? & _). }
  destruct (ExtractProject res) as [project [e|]] eqn:Hp.
  { right. exists e. split; [done|]. by intros (r & _ & u & p & _ & ? & _). }
  destruct project as [project|].
  2:{ right. eexists. split; [done|]. by intros (r & _ & u & p & _ & ? & _). }
  destruct (ExtractTokenID res) as [tokenID [e|]] eqn:Ht.
  { right. exists e. split; [done|]. by intros (r & _ & u & p & _ & _ & ? & _). }
  left. eexists. split; [done|]. split; [done|]. by exists user, project.
Qed.

End AuthProofs.

(** ** The settings of [main] *)

Section StartupProofs.
Import Startup.

Lemma or_env_unset flag env : or_env flag env = "" ↔ unset flag env.
Proof.
  unfold or_env, unset. destruct (String.eqb_spec flag "") as [->|Hne].
  - split; [done|by intros [_ ?]].
  - split; [done|by intros [? _]].
Qed.

Lemma messages_distinct :
  missing_auth_url ≠ missing_access
  ∧ missing_auth_url ≠ missing_secret
  ∧ missing_access ≠ missing_secret.
Proof. by repeat split. Qed.

(** X23.  [main] goes on exactly when each of the three settings is given
    as a flag or in the environment, and then a flag that is given takes
    precedence over the environment; otherwise it exits after logging one
    message for every setting that is missing and nothing else. *)
Theorem settings_validated Getenv flags :
  let unset_url := unset (authURL flags) (Getenv "OS_AUTH_URL") in
  let unset_access := unset (Access flags) (Getenv "AWS_ACCESS_KEY_ID") in
  let unset_secret := unset (Secret flags) (Getenv "AWS_SECRET_ACCESS_KEY") in
  match settings Getenv flags with
  | (logged, Some s) =>
      logged = [] ∧ ¬ unset_url ∧ ¬ unset_access ∧ ¬ unset_secret
      ∧ authURL s ≠ "" ∧ Access s ≠ "" ∧ Secret s ≠ ""
      ∧ (authURL flags ≠ "" → authURL s = authURL flags)
      ∧ (Access flags ≠ "" → Access s = Access flags)
      ∧ (Secret flags ≠ "" → Secret s = Secret flags)
  | (logged, None) =>
      (unset_url ∨ unset_access ∨ unset_secret)
      ∧ (missing_auth_url ∈ logged ↔ unset_url)
      ∧ (missing_access ∈ logged ↔ unset_access)
      ∧ (missing_secret ∈ logged ↔ unset_secret)
      ∧ NoDup logged
      ∧ ∀ m, m ∈ logged →
             m = missing_auth_url ∨ m = missing_access ∨ m = missing_secret
  end.
Proof.
  intros unset_url unset_access unset_secret.
  pose proof (or_env_unset (authURL flags) (Getenv "OS_AUTH_URL")) as Hu.
  pose proof (or_env_unset (Access flags) (Getenv "AWS_ACCESS_KEY_ID")) as Ha.
  pose proof (or_env_unset (Secret flags) (Getenv "AWS_SECRET_ACCESS_KEY")) as Hs.
  assert (∀ flag env, flag ≠ "" → or_env flag env = flag) as Hflag.
  { intros flag env H. unfold or_env. by destruct (String.eqb_spec flag ""). }
  destruct messages_distinct as (D1 & D2 & D3).
  unfold settings, errors, from_env. cbn [authURL Access Secret].
  fold unset_url unset_access unset_secret in Hu, Ha, Hs.
  generalize dependent unset_url. generalize dependent unset_access.
  generalize dependent unset_secret.
  generalize missing_auth_url missing_access missing_secret D1 D2 D3.
  intros m1 m2 m3 ? ? ? us Hs ua Ha uu Hu.
  destruct (String.eqb_spec (or_env (authURL flags) (Getenv "OS_AUTH_URL")) "")
    as [Hu'|Hu'];
    destruct (String.eqb_spec (or_env (Access flags) (Getenv "AWS_ACCESS_KEY_ID")) "")
      as [Ha'|Ha'];
    destruct (String.eqb_spec (or_env (Secret flags) (Getenv "AWS_SECRET_ACCESS_KEY")) "")
      as [Hs'|Hs'];
    cbn [app];
    repeat match goal with
      | |- _ ∧ _ => split
      | |- NoDup _ => constructor
      | |- ∀ m : error, _ => intros ?
      end;
    rewrite ?elem_of_cons, ?elem_of_nil;
    try (intuition congruence);
    cbn [authURL Access Secret]; intros; by apply Hflag.
Qed.

End StartupProofs.

(** ** The response of a round trip *)

Section ResponseProofs.
Context {lib : Library}.

Lemma inject_headers_body rt request :
  req_Body (inject_headers rt request) = req_Body request.
Proof. unfold inject_headers. by destruct (rt_headers rt). Qed.

(** X24.  A request without a body, answered by the transport at the
    first attempt with a response whose body is open and readable:
    [RoundTrip] returns the response with its status and headers, and a
    body that holds exactly the bytes the transport delivered, whether
    the body was logged or not.  With a logger the error that came with
    the response is replaced by the outcome of the logging. *)
Theorem RoundTrip_response_intact rt ort request w r e s :
  rt_Rt rt = Some ort →
  req_Body request = None →
  ort (length (calls w)) (inject_headers rt request) (streams w) = (Some r, e) →
  streams w !! resp_Body r = Some s → closed s = false → fail s = None →
  ∃ b w' s',
    RoundTrip rt request w
    = Some ((Some {| StatusCode := StatusCode r; resp_Header := resp_Header r;
                     resp_Body := Some b |},
             match rt_Logger rt with Some _ => None | None => e end),
            inject_headers rt request, w')
    ∧ streams w' !! b = Some s'
    ∧ data s' = data s ∧ closed s' = false ∧ fail s' = None
    ∧ calls w' = (calls w ++ [inject_headers rt request])%list.
Proof.
  intros Hrt Hbody Hort Hs Hc Hf.
  pose proof (inject_headers_body rt request) as Hb. rewrite Hbody in Hb.
  unfold RoundTrip, log_request_phase. rewrite Hb, Hrt.
  destruct (rt_Logger rt) as [lg|] eqn:Hlg.
  - unfold delegate. rewrite !req_log_calls, !req_log_streams, Hort.
    rewrite retry_loop_response. unfold log_response_phase. rewrite Hlg.
    set (w1 := resp_log rt _ (resp_log rt _ (record_call _ _))).
    assert (streams w1 = streams w) as Hst by reflexivity.
    assert (calls w1 = (calls w ++ [inject_headers rt request])%list) as Hcalls
      by reflexivity.
    destruct (is_json_response (Header_Get (resp_Header r) "Content-Type")) eqn:Hct.
    + destruct (logResponse_buffered rt (resp_Body r) _ w1 s
                  ltac:(by rewrite Hst) Hc Hf Hct) as (w2 & -> & Hst2 & Hcalls2).
      destruct (buffered_store_lookup (streams w1) (resp_Body r) s
                  ltac:(by rewrite Hst)) as (Hnew & _).
      eexists _, _, (NopCloser (data s)). split; [reflexivity|].
      unfold close_body. rewrite Hb. rewrite Hst2, Hcalls2, Hcalls.
      by rewrite Hnew.
    + unfold logResponse. rewrite Hct.
      eexists _, _, s. split; [reflexivity|].
      unfold close_body. rewrite Hb. cbn [streams resp_log set_out calls].
      by rewrite Hst.
  - unfold delegate. rewrite Hort, retry_loop_response.
    unfold log_response_phase. rewrite Hlg.
    eexists _, _, s. split; [reflexivity|].
    unfold close_body. by rewrite Hb.
Qed.

(** X25.  With a logger, when the JSON body of the response cannot be
    read to its end, [RoundTrip] returns the read error together with a
    response that has no body; the body of the transport's response is
    closed. *)
Theorem RoundTrip_response_read_failure rt lg ort request w r e s e' :
  rt_Logger rt = Some lg →
  rt_Rt rt = Some ort →
  req_Body request = None →
  ort (length (calls w)) (inject_headers rt request) (streams w) = (Some r, e) →
  is_json_response (Header_Get (resp_Header r) "Content-Type") = true →
  streams w !! resp_Body r = Some s → closed s = false → fail s = Some e' →
  ∃ w',
    RoundTrip rt request w
    = Some ((Some {| StatusCode := StatusCode r; resp_Header := resp_Header r;
                     resp_Body := None |}, Some e'),
            inject_headers rt request, w')
    ∧ streams w' !! resp_Body r = Some (close_stream (drained s))
    ∧ length (streams w') = length (streams w).
Proof.
  intros Hlg Hrt Hbody Hort Hct Hs Hc Hf.
  pose proof (inject_headers_body rt request) as Hb. rewrite Hbody in Hb.
  unfold RoundTrip, log_request_phase. rewrite Hb, Hrt, Hlg.
  unfold delegate. rewrite !req_log_calls, !req_log_streams, Hort.
  rewrite retry_loop_response. unfold log_response_phase. rewrite Hlg.
  set (w1 := resp_log rt _ (resp_log rt _ (record_call _ _))).
  assert (streams w1 = streams w) as Hst by reflexivity.
  rewrite (logResponse_read_failure rt (resp_Body r) _ w1 s e'
             ltac:(by rewrite Hst) Hc Hf Hct).
  eexists. split; [reflexivity|].
  unfold close_body. rewrite Hb. cbn [streams set_streams]. rewrite Hst.
  split; [by apply closed_drained_lookup|].
  unfold Close. by rewrite length_alter, length_insert.
Qed.


End ResponseProofs.

(** ** The theorems of the round tripper at sample inputs *)

Section ClientSamples.
#[local] Existing Instance sample_library.


Lemma default_headers_masked_witness :
  ("X-Subject-Token" +:+ ": ***")
  ∈ formatHeaders_lines (sample_rt refusing)
      {[ "X-Subject-Token" := ["gAAAAAB"] ]}.
Proof.
  apply (default_headers_masked (sample_rt refusing) _ "X-Subject-Token"
           ["gAAAAAB"] "x-subject-token").
  - reflexivity.
  - vm_compute. tauto.
  - reflexivity.
  - reflexivity.
Defined.

Lemma other_headers_printed_witness :
  ("Accept: application/json text/plain")
  ∈ formatHeaders_lines (sample_rt refusing)
      {[ "Accept" := ["application/json"; "text/plain"] ]}.
Proof.
  destruct (other_headers_printed (sample_rt refusing)
              {[ "Accept" := ["application/json"; "text/plain"] ]}
              "Accept" ["application/json"; "text/plain"]
              ltac:(apply lookup_singleton_eq))
    as [H _].
  apply H. apply (bool_decide_unpack _). vm_compute. exact I.
Defined.

Lemma RoundTrip_nil_transport_witness :
  ∃ w',
    RoundTrip bare_rt (sample_request None) (sample_world "{}")
    = Some ((None, Some "Rt RoundTripper is nil, aborting"), sample_request None, w')
    ∧ calls w' = [].
Proof.
  destruct (RoundTrip_nil_transport bare_rt (sample_request None)
              (sample_world "{}") eq_refl)
    as (e & request' & w' & H1 & H2 & H3).
  specialize (H3 eq_refl). subst e.
  exists w'. split; [|exact H2].
  assert (request' = sample_request None) as Hreq.
  { pose proof H1 as H1'. vm_compute in H1'. injection H1' as <- _.
    vm_compute. reflexivity. }
  rewrite Hreq in H1. exact H1.
Defined.

Lemma RoundTrip_closes_request_body_witness :
  ∃ res request' w',
    RoundTrip (sample_rt (flaky 1)) (sample_request (Some 0)) (sample_world "{}")
    = Some (res, request', w')
    ∧ is_closed (streams w') 0.
Proof.
  destruct (RoundTrip_total (sample_rt (flaky 1)) (sample_request (Some 0))
              (sample_world "{}")) as [[[res request'] w'] H].
  exists res, request', w'. split; [exact H|].
  assert (closable (streams (sample_world "{}")) 0) as Hc.
  { exists (sample_stream "{}"). split; reflexivity. }
  destruct (RoundTrip_closes_request_body (sample_rt (flaky 1))
              (sample_request (Some 0)) (sample_world "{}") 0 res request' w'
              eq_refl Hc H) as [Hcl _].
  exact Hcl.
Defined.

Lemma RoundTrip_response_intact_witness :
  ∃ b w' s',
    RoundTrip (sample_rt (flaky 0)) (sample_request None) (sample_world "{}")
    = Some ((Some {| StatusCode := 200;
                     resp_Header := {[ "Content-Type" := ["application/json"] ]};
                     resp_Body := Some b |}, None),
            sample_request None, w')
    ∧ streams w' !! b = Some s'
    ∧ data s' = "{}".
Proof.
  destruct (RoundTrip_response_intact (sample_rt (flaky 0)) (flaky 0)
              (sample_request None) (sample_world "{}") sample_response None
              (sample_stream "{}") eq_refl eq_refl eq_refl eq_refl eq_refl eq_refl)
    as (b & w' & s' & H & Hl & Hd & _).
  exists b, w', s'. split; [exact H|]. split; [exact Hl|exact Hd].
Defined.

Lemma RoundTrip_response_read_failure_witness :
  ∃ w',
    RoundTrip (sample_rt (flaky 0)) (sample_request None) broken_world
    = Some ((Some {| StatusCode := 200;
                     resp_Header := {[ "Content-Type" := ["application/json"] ]};
                     resp_Body := None |}, Some "unexpected EOF"),
            sample_request None, w')
    ∧ streams w' !! 0 = Some (close_stream (drained broken_stream)).
Proof.
  destruct (RoundTrip_response_read_failure (sample_rt (flaky 0)) Logger (flaky 0)
              (sample_request None) broken_world sample_response None
              broken_stream "unexpected EOF"
              eq_refl eq_refl eq_refl eq_refl eq_refl eq_refl eq_refl eq_refl)
    as (w' & H & Hl & _).
  exists w'. split; [exact H|exact Hl].
Defined.

Lemma SetSensitiveHeaders_membership_witness :
  formatHeaders
    (SetSensitiveHeaders (SetSensitiveHeaders bare_rt ["x-custom"])
       GetDefaultSensitiveHeaders)
    {[ "X-Custom" := ["v"] ]} newline
  = "X-Custom: v"
  ∧ "X-Custom: ***"
    ∈ formatHeaders_lines (SetSensitiveHeaders bare_rt ["x-custom"])
        {[ "X-Custom" := ["v"] ]}.
Proof.
  destruct (SetSensitiveHeaders_membership bare_rt ["x-custom"]
              {[ "X-Custom" := ["v"] ]} "X-Custom" ["v"] newline) as [H1 H2].
  split.
  - rewrite (H1 eq_refl). reflexivity.
  - specialize (H2 ltac:(apply lookup_singleton_eq)).
    rewrite decide_True in H2 by (apply list_elem_of_here). exact H2.
Defined.

End ClientSamples.
